(** * syscall_intercept (RISC-V 64): dispatcher and patch planner

    A shallow embedding of [src/intercept.c] (the dispatcher, followed in the
    same file by the patcher) and the properties of its behaviour.

    Addresses, registers and machine integers are [Z]; C arrays are lists read
    with stdpp's lookup; the process environment is a finite map from names to
    values; calls that leave the translation unit (the user hook, the kernel,
    the log, writes to file descriptor 2) are recorded as events. *)

From Stdlib Require Import ZArith Lia.
From stdpp Require Import base option list gmap strings.

Local Open Scope Z_scope.

(** Machine integers. *)
Definition to_uint8 (z : Z) : Z := z mod 256.
Definition to_int32 (z : Z) : Z := (z + 2 ^ 31) mod 2 ^ 32 - 2 ^ 31.
Definition to_int64 (z : Z) : Z := (z + 2 ^ 63) mod 2 ^ 64 - 2 ^ 63.
Definition to_uint64 (z : Z) : Z := z mod 2 ^ 64.
Definition INT64_MIN : Z := - 2 ^ 63.

(** ** Data model

    The structs are declared in headers that are not part of the tree; the
    records below have the members the source reads and writes. *)

(** One disassembled instruction of the window around an [ecall]. *)
Record intercept_disasm_result := {
  address : Z;
  length : Z;
  is_set : bool;
  is_syscall : bool;
  is_abs_jump : bool;
  has_ip_relative_opr : bool;
  is_ra_used : bool;
  reg_set : Z;
  a7_set : Z;
  is_a7_modified : bool
}.

Record patch_desc := {
  syscall_addr : Z;
  syscall_offset : Z;
  surrounding_instrs : list intercept_disasm_result;
  syscall_num : Z;
  syscall_idx : nat;
  return_register : Z;
  dst_jmp_patch : Z;
  patch_size_bytes : Z;
  return_address : Z;
  relocation_address : Z;
  is_ra_used_before : bool;
  is_ra_used_after : bool;
  start_with_c_nop : bool;
  end_with_c_nop : bool
}.

(** [count] of the C struct is the length of [items]. *)
Record intercept_desc := {
  base_addr : Z;
  path : string;
  text_start : Z;
  text_end : Z;
  items : list patch_desc;
  uses_trampoline : bool;
  trampoline_address : Z;
  jump_table : gset Z
}.

(** ** Constants of the headers

    [intercept.h], [rv_encode.h] and [disasm_wrapper.h] are included by the
    source but are not part of the tree: the patch-class tags, the
    instruction sizes, the [jal] reach, the window geometry, the register
    numbers and the sizes of the encodings are parameters of the
    development. *)
Class InterceptHeader := {
  TYPE_GW : Z;
  TYPE_MID : Z;
  TYPE_GW_SIZE : Z;
  TYPE_MID_SIZE : Z;
  JAL_INS_SIZE : Z;
  C_LI_INS_SIZE : Z;
  ADDI_INS_SIZE : Z;
  ECALL_INS_SIZE : Z;
  MODIFY_SP_INS_SIZE : Z;
  STORE_LOAD_INS_SIZE : Z;
  JUMP_2GB_INS_SIZE : Z;
  C_NOP_INS_SIZE : Z;
  RVC_INS_SIZE : Z;
  JAL_MID_REACH : Z;
  SURROUNDING_INSTRS_NUM : nat;
  SYSCALL_IDX : nat;
  REG_RA : Z;
  REG_A7 : Z;
  (* whether the translation unit is compiled with [__riscv_c] *)
  riscv_c : bool;
  (* bytes the [rv_encode.h] encoders emit in a relocation block: by
     [load_orig_ra_temp], by [store_new_ra_temp], by [copy_jump], and by
     [finalize_and_jump_back] for a given patch *)
  load_orig_ra_temp_size : Z;
  store_new_ra_temp_size : Z;
  copy_jump_size : Z;
  finalize_and_jump_back_size : patch_desc → Z
}.

Record wrapper_ret := { a0 : Z; a1 : Z }.

(** A C function that may leave through [xabort]. *)
Inductive outcome (A : Type) : Type :=
  | Returned (a : A)
  | Aborted (msg : string).
Arguments Returned {A} a.
Arguments Aborted {A} msg.

(** The three patch shapes.  The [syscall_num] field of a patch holds
    [TYPE_GW] or [TYPE_MID] for those shapes; every other value (the
    [default:] label of the source's switches, commented [TYPE_SML] there)
    is a small patch, which keeps its syscall number. *)
Inductive patch_type := GW | MID | SML.

Module Dispatch.
Section WithHeader.
Context `{InterceptHeader}.

Definition patch_type_of (num : Z) : patch_type :=
  if num =? TYPE_GW then GW else if num =? TYPE_MID then MID else SML.

(** Position of each shape's candidate in [ret_addrs]. *)
Definition slot_of (t : patch_type) : nat :=
  match t with MID => 0 | SML => 1 | GW => 2 end%nat.

(** *** detect_cur_patch *)

(** [sizeof(ret_addrs)] for [uint64_t ret_addrs[3]]: the bound of the outer
    loop of [detect_cur_patch]. *)
Definition sizeof_ret_addrs : nat := 3 * 8.

(** [ret_addrs[i]]: the three candidates, then whatever the stack holds after
    the array ([beyond]). *)
Definition ret_addrs_get (ret_addrs : list Z) (beyond : nat → Z) (i : nat) : Z :=
  default (beyond i) (ret_addrs !! i).

(** The [switch (syscall_num)] on a patch whose return address matched. *)
Definition slot_matches (num : Z) (ra_idx : nat) : bool :=
  if num =? TYPE_GW then Nat.eqb ra_idx 2
  else if num =? TYPE_MID then Nat.eqb ra_idx 0
  else Nat.eqb ra_idx 1.

(** The locals [syscall_num] and [reloc_addr], and the indices at which
    [ret_addrs] has been read so far (latest first). *)
Record detect_state := {
  ds_syscall_num : Z;
  ds_reloc_addr : Z;
  ds_reads : list nat
}.

(** Inner loop over the patches of one object; [true] is the [goto]. *)
Fixpoint scan_items (ret_addrs : list Z) (beyond : nat → Z) (ra_idx : nat)
    (ps : list patch_desc) (st : detect_state) : bool * detect_state :=
  match ps with
  | [] => (false, st)
  | patch :: ps' =>
      let st' := {| ds_syscall_num := syscall_num patch;
                    ds_reloc_addr := relocation_address patch;
                    ds_reads := ra_idx :: ds_reads st |} in
      if (return_address patch =? ret_addrs_get ret_addrs beyond ra_idx)
         && slot_matches (syscall_num patch) ra_idx
      then (true, st')
      else scan_items ret_addrs beyond ra_idx ps' st'
  end.

Fixpoint scan_objs (ret_addrs : list Z) (beyond : nat → Z) (ra_idx : nat)
    (os : list intercept_desc) (st : detect_state) : bool * detect_state :=
  match os with
  | [] => (false, st)
  | o :: os' =>
      match scan_items ret_addrs beyond ra_idx (items o) st with
      | (true, st') => (true, st')
      | (false, st') => scan_objs ret_addrs beyond ra_idx os' st'
      end
  end.

(** Outer loop: [n] iterations are left, [ra_idx] is the current index.  The
    result is the value of [ra_idx] at the label [ret_to_irq_entry]. *)
Fixpoint scan_slots (objs : list intercept_desc) (ret_addrs : list Z)
    (beyond : nat → Z) (n : nat) (ra_idx : nat) (st : detect_state)
    : nat * detect_state :=
  match n with
  | O => (ra_idx, st)
  | S n' =>
      match scan_objs ret_addrs beyond ra_idx objs st with
      | (true, st') => (ra_idx, st')
      | (false, st') => scan_slots objs ret_addrs beyond n' (S ra_idx) st'
      end
  end.

Definition detect_cur_patch_run (objs : list intercept_desc)
    (MID_ret_addr SML_ret_addr GW_ret_addr : Z) (beyond : nat → Z)
    : nat * detect_state :=
  scan_slots objs [MID_ret_addr; SML_ret_addr; GW_ret_addr] beyond
    sizeof_ret_addrs 0
    {| ds_syscall_num := INT64_MIN; ds_reloc_addr := 0; ds_reads := [] |}.

Definition detect_cur_patch (objs : list intercept_desc)
    (MID_ret_addr SML_ret_addr GW_ret_addr : Z) (beyond : nat → Z)
    : outcome wrapper_ret :=
  let '(ra_idx, st) :=
    detect_cur_patch_run objs MID_ret_addr SML_ret_addr GW_ret_addr beyond in
  if (sizeof_ret_addrs <=? ra_idx)%nat
  then Aborted "Failed to identify patch"
  else Returned {| a0 := ds_syscall_num st; a1 := ds_reloc_addr st |}.

(** The indices of [ret_addrs] read by one call, in program order. *)
Definition detect_cur_patch_reads (objs : list intercept_desc)
    (MID_ret_addr SML_ret_addr GW_ret_addr : Z) (beyond : nat → Z) : list nat :=
  reverse (ds_reads
    (snd (detect_cur_patch_run objs MID_ret_addr SML_ret_addr GW_ret_addr beyond))).

(** *** get_cur_patch *)

(** A [struct patch_desc *] into [objs]: object index and item index. *)
Definition patch_ptr : Type := nat * nat.

Definition deref (objs : list intercept_desc) (ptr : patch_ptr) : option patch_desc :=
  o ← objs !! ptr.1; items o !! ptr.2.

(** Inner loop: [patch] is assigned at every item and the loop is left at a
    match. *)
Fixpoint get_cur_patch_items (key : Z) (o p : nat) (ps : list patch_desc)
    (patch : option patch_ptr) : option patch_ptr :=
  match ps with
  | [] => patch
  | x :: ps' =>
      if to_int64 (return_address x) =? key then Some (o, p)
      else get_cur_patch_items key o (S p) ps' (Some (o, p))
  end.

(** Outer loop: the [break] above leaves the inner loop only. *)
Fixpoint get_cur_patch_objs (key : Z) (o : nat) (os : list intercept_desc)
    (patch : option patch_ptr) : option patch_ptr :=
  match os with
  | [] => patch
  | d :: os' =>
      get_cur_patch_objs key (S o) os' (get_cur_patch_items key o 0 (items d) patch)
  end.

Definition get_cur_patch (objs : list intercept_desc) (key : Z) : option patch_ptr :=
  get_cur_patch_objs key 0 objs None.

(** *** intercept_routine *)

(** Sentinels handed back to the assembly entry. *)
Definition UNH_SYSCALL : Z := -0x1000.
Definition UNH_GENERIC : Z := -0x1001.
Definition UNH_CLONE : Z := -0x1002.

(** Linux constants of the system headers ([<syscall.h>] on riscv64 and
    [<linux/sched.h>]). *)
Definition SYS_rt_sigreturn : Z := 139.
Definition SYS_clone : Z := 220.
Definition SYS_clone3 : Z := 435.
Definition CLONE_VFORK : Z := 0x4000.

Record syscall_desc := { nr : Z; args : list Z }.

Definition arg (d : syscall_desc) (i : nat) : Z := default 0 (args d !! i).

(** The three hook pointers.  A hook of type [intercept_hook_point] receives
    the number, the six arguments and the result slot; it yields its [int]
    and the content it leaves in the slot.  For the two clone hooks only
    whether the pointer is non-NULL matters. *)
Record hook_points := {
  intercept_hook_point : option (Z → list Z → Z → Z * Z);
  intercept_hook_point_clone_child : bool;
  intercept_hook_point_clone_parent : bool
}.

(** What the routine calls outside the tree: the magic-syscall handler
    (its [int] and the content it leaves in the result slot), the
    no-intercept primitive, and the [stack] member read through a
    [struct clone_args] pointer. *)
Record collaborators := {
  handle_magic_syscalls : syscall_desc → Z → Z * Z;
  syscall_no_intercept : syscall_desc → wrapper_ret;
  clone_args_stack : Z → Z
}.

(** The [a0] member of a returned pair, for places where a parameter of the
    same name is in scope. *)
Definition ret_a0 (r : wrapper_ret) : Z := a0 r.

Inductive log_kind := UNKNOWN | KNOWN.

Inductive event :=
  | Ev_log (patch : option patch_ptr) (desc : syscall_desc) (k : log_kind) (res : Z)
  | Ev_hook (desc : syscall_desc)
  | Ev_kernel (desc : syscall_desc)
  | Ev_clone_child
  | Ev_clone_parent (v : Z).

Definition is_kernel_call (e : event) : bool :=
  match e with Ev_kernel _ => true | _ => false end.

Definition intercept_routine_post_clone (hk : hook_points) (a0 : Z) : list event :=
  if a0 =? 0
  then (if intercept_hook_point_clone_child hk then [Ev_clone_child] else [])
  else (if intercept_hook_point_clone_parent hk then [Ev_clone_parent a0] else []).

Definition intercept_routine (objs : list intercept_desc) (env : collaborators)
    (hk : hook_points) (a0 a1 a2 a3 a4 a5 a6 a7 : Z) : wrapper_ret * list event :=
  let patch := get_cur_patch objs a6 in
  let desc := {| nr := to_int32 a7; args := [a0; a1; a2; a3; a4; a5] |} in
  let '(magic, r0) := handle_magic_syscalls env desc a0 in
  if magic =? 0 then ({| a0 := r0; a1 := a1 |}, [])
  else
    let ev_unknown := [Ev_log patch desc UNKNOWN 0] in
    let '(forward_to_kernel, r1, ev_hook) :=
      match intercept_hook_point hk with
      | None => (1, r0, [])
      | Some hook =>
          let '(ret, r) := hook (nr desc) (args desc) r0 in
          (ret, r, [Ev_hook desc])
      end in
    if nr desc =? SYS_rt_sigreturn
    then ({| a0 := UNH_SYSCALL; a1 := UNH_GENERIC |}, ev_unknown ++ ev_hook)
    else if negb (forward_to_kernel =? 0)
    then
      if (nr desc =? SYS_clone)
         && (negb (arg desc 1 =? 0)
             || negb (Z.land (arg desc 0) CLONE_VFORK =? 0))
      then ({| a0 := UNH_SYSCALL; a1 := UNH_CLONE |}, ev_unknown ++ ev_hook)
      else if (nr desc =? SYS_clone3)
              && negb (clone_args_stack env (arg desc 0) =? 0)
      then ({| a0 := UNH_SYSCALL; a1 := UNH_CLONE |}, ev_unknown ++ ev_hook)
      else
        let result := syscall_no_intercept env desc in
        let ev_post :=
          if nr desc =? SYS_clone
          then intercept_routine_post_clone hk (ret_a0 result)
          else if nr desc =? SYS_clone3
          then intercept_routine_post_clone hk (ret_a0 result)
          else [] in
        (result,
         ev_unknown ++ ev_hook ++ [Ev_kernel desc] ++ ev_post
           ++ [Ev_log patch desc KNOWN (ret_a0 result)])
    else
      ({| a0 := r1; a1 := a1 |},
       ev_unknown ++ ev_hook ++ [Ev_log patch desc KNOWN r1]).

End WithHeader.
End Dispatch.

(** ** The constructor's reading of the environment, and debug_dump *)

Module Startup.

(** The two flags of static storage set from the environment; static storage
    starts zeroed. *)
Record globals := { debug_dumps_on : bool; patch_all_objs : bool }.

Definition globals_init : globals :=
  {| debug_dumps_on := false; patch_all_objs := false |}.

(** [getenv]: the value of a name in the process environment, NULL ([None])
    when the name is not there. *)
Definition getenv (environ : gmap string string) (name : string) : option string :=
  environ !! name.

Definition not_NULL {A} (p : option A) : bool :=
  match p with Some _ => true | None => false end.

(** [intercept], up to the two flags.  [hook_allowed] is what
    [syscall_hook_in_process_allowed] answers (defined outside the tree). *)
Definition intercept_flags (hook_allowed : bool) (environ : gmap string string)
    (g : globals) : globals :=
  if negb hook_allowed then g
  else {| debug_dumps_on := not_NULL (getenv environ "INTERCEPT_DEBUG_DUMP");
          patch_all_objs := not_NULL (getenv environ "INTERCEPT_ALL_OBJS") |}.

(** [syscall_no_intercept(SYS_write, fd, buf, len)]. *)
Inductive fd_write := Sys_write (fd : Z) (buf : string) (len : Z).

(** [debug_dump]: [formatted] is the text [vsnprintf] produces from the
    format and its arguments, [len] its length. *)
Definition debug_dump (g : globals) (formatted : string) : list fd_write :=
  if negb (debug_dumps_on g) then []
  else
    let len := Z.of_nat (String.length formatted) in
    if len <=? 0 then [] else [Sys_write 2 formatted len].

End Startup.

(** ** The patcher *)

Module Patcher.
Section WithHeader.
Context `{InterceptHeader}.

(** Modelled from the spec: [has_jump] and [mark_jump] (their file is not in
    the tree) read and extend the object's jump-target set, "the set of
    addresses targeted by any branch or jump instruction within this
    object's text". *)
Definition has_jump (desc : intercept_desc) (addr : Z) : bool :=
  bool_decide (addr ∈ jump_table desc).

Definition set_jump_table (t : gset Z) (d : intercept_desc) : intercept_desc :=
  {| base_addr := base_addr d; path := path d; text_start := text_start d;
     text_end := text_end d; items := items d;
     uses_trampoline := uses_trampoline d;
     trampoline_address := trampoline_address d; jump_table := t |}.

Definition set_items (l : list patch_desc) (d : intercept_desc) : intercept_desc :=
  {| base_addr := base_addr d; path := path d; text_start := text_start d;
     text_end := text_end d; items := l;
     uses_trampoline := uses_trampoline d;
     trampoline_address := trampoline_address d; jump_table := jump_table d |}.

Definition mark_jump (desc : intercept_desc) (addr : Z) : intercept_desc :=
  set_jump_table ({[addr]} ∪ jump_table desc) desc.

(** Assignments to the members of a patch. *)
Definition set_syscall_num (v : Z) (p : patch_desc) : patch_desc :=
  {| syscall_addr := syscall_addr p; syscall_offset := syscall_offset p;
     surrounding_instrs := surrounding_instrs p; syscall_num := v;
     syscall_idx := syscall_idx p; return_register := return_register p;
     dst_jmp_patch := dst_jmp_patch p; patch_size_bytes := patch_size_bytes p;
     return_address := return_address p;
     relocation_address := relocation_address p;
     is_ra_used_before := is_ra_used_before p;
     is_ra_used_after := is_ra_used_after p;
     start_with_c_nop := start_with_c_nop p; end_with_c_nop := end_with_c_nop p |}.

Definition set_return_register (v : Z) (p : patch_desc) : patch_desc :=
  {| syscall_addr := syscall_addr p; syscall_offset := syscall_offset p;
     surrounding_instrs := surrounding_instrs p; syscall_num := syscall_num p;
     syscall_idx := syscall_idx p; return_register := v;
     dst_jmp_patch := dst_jmp_patch p; patch_size_bytes := patch_size_bytes p;
     return_address := return_address p;
     relocation_address := relocation_address p;
     is_ra_used_before := is_ra_used_before p;
     is_ra_used_after := is_ra_used_after p;
     start_with_c_nop := start_with_c_nop p; end_with_c_nop := end_with_c_nop p |}.

Definition set_dst_jmp_patch (v : Z) (p : patch_desc) : patch_desc :=
  {| syscall_addr := syscall_addr p; syscall_offset := syscall_offset p;
     surrounding_instrs := surrounding_instrs p; syscall_num := syscall_num p;
     syscall_idx := syscall_idx p; return_register := return_register p;
     dst_jmp_patch := v; patch_size_bytes := patch_size_bytes p;
     return_address := return_address p;
     relocation_address := relocation_address p;
     is_ra_used_before := is_ra_used_before p;
     is_ra_used_after := is_ra_used_after p;
     start_with_c_nop := start_with_c_nop p; end_with_c_nop := end_with_c_nop p |}.

Definition set_relocation_address (v : Z) (p : patch_desc) : patch_desc :=
  {| syscall_addr := syscall_addr p; syscall_offset := syscall_offset p;
     surrounding_instrs := surrounding_instrs p; syscall_num := syscall_num p;
     syscall_idx := syscall_idx p; return_register := return_register p;
     dst_jmp_patch := dst_jmp_patch p; patch_size_bytes := patch_size_bytes p;
     return_address := return_address p;
     relocation_address := v;
     is_ra_used_before := is_ra_used_before p;
     is_ra_used_after := is_ra_used_after p;
     start_with_c_nop := start_with_c_nop p; end_with_c_nop := end_with_c_nop p |}.

Definition set_surrounding_instrs (v : list intercept_disasm_result)
    (p : patch_desc) : patch_desc :=
  {| syscall_addr := syscall_addr p; syscall_offset := syscall_offset p;
     surrounding_instrs := v; syscall_num := syscall_num p;
     syscall_idx := syscall_idx p; return_register := return_register p;
     dst_jmp_patch := dst_jmp_patch p; patch_size_bytes := patch_size_bytes p;
     return_address := return_address p;
     relocation_address := relocation_address p;
     is_ra_used_before := is_ra_used_before p;
     is_ra_used_after := is_ra_used_after p;
     start_with_c_nop := start_with_c_nop p; end_with_c_nop := end_with_c_nop p |}.

(** The members written by [check_surrounding_instructions] after its scan. *)
Definition set_window (idx : nat) (v : list intercept_disasm_result)
    (before after : bool) (p : patch_desc) : patch_desc :=
  {| syscall_addr := syscall_addr p; syscall_offset := syscall_offset p;
     surrounding_instrs := v; syscall_num := syscall_num p;
     syscall_idx := idx; return_register := return_register p;
     dst_jmp_patch := dst_jmp_patch p; patch_size_bytes := patch_size_bytes p;
     return_address := return_address p;
     relocation_address := relocation_address p;
     is_ra_used_before := before; is_ra_used_after := after;
     start_with_c_nop := start_with_c_nop p; end_with_c_nop := end_with_c_nop p |}.

(** The members written by [position_patch]. *)
Definition set_position (ret dst size : Z) (start_nop end_nop : bool)
    (p : patch_desc) : patch_desc :=
  {| syscall_addr := syscall_addr p; syscall_offset := syscall_offset p;
     surrounding_instrs := surrounding_instrs p; syscall_num := syscall_num p;
     syscall_idx := syscall_idx p; return_register := return_register p;
     dst_jmp_patch := dst; patch_size_bytes := size;
     return_address := ret;
     relocation_address := relocation_address p;
     is_ra_used_before := is_ra_used_before p;
     is_ra_used_after := is_ra_used_after p;
     start_with_c_nop := start_nop; end_with_c_nop := end_nop |}.

(** An element of the window array; a zeroed record stands for an index
    outside the list. *)
Definition no_instr : intercept_disasm_result :=
  {| address := 0; length := 0; is_set := false; is_syscall := false;
     is_abs_jump := false; has_ip_relative_opr := false; is_ra_used := false;
     reg_set := 0; a7_set := 0; is_a7_modified := false |}.

Definition instr_at (instrs : list intercept_disasm_result) (i : nat)
    : intercept_disasm_result :=
  default no_instr (instrs !! i).

Definition is_copiable_before_syscall (ins : intercept_disasm_result) : bool :=
  if negb (is_set ins) then false
  else negb (has_ip_relative_opr ins || is_abs_jump ins || is_syscall ins).

Definition is_copiable_after_syscall (ins : intercept_disasm_result) : bool :=
  if negb (is_set ins) then false
  else negb (has_ip_relative_opr ins || is_syscall ins).

Definition is_SML_patchable (patch : patch_desc) (patchable_size : Z) : bool :=
  if syscall_num patch <? 0 then false
  else if patchable_size <=? JAL_INS_SIZE then false
  else if (return_register patch =? 0)
          && ((patchable_size =? JAL_INS_SIZE + C_LI_INS_SIZE)
              && (31 <? syscall_num patch))
  then false
  else true.

(** A loop [for (i = ...; ...; ++i) { size += instrs[i].length; if (fits
    size) return ...; }] with [n] iterations left: the index at which it
    returns, if it does.  [size] is a [uint8_t]. *)
Fixpoint first_fit (fits : Z → bool) (instrs : list intercept_disasm_result)
    (n i : nat) (size : Z) : option nat :=
  match n with
  | O => None
  | S n' =>
      let size' := to_uint8 (size + length (instr_at instrs i)) in
      if fits size' then Some i else first_fit fits instrs n' (S i) size'
  end.

Definition check_two_ecalls (patch : patch_desc)
    (syscall_idx start_idx second_ecall_idx : nat) : nat :=
  let instrs := surrounding_instrs patch in
  let forced_MID :=
    if syscall_num patch <? 0
    then first_fit (λ size, TYPE_MID_SIZE <=? size) instrs
           (second_ecall_idx - start_idx) start_idx 0
    else None in
  match forced_MID with
  | Some i => S i
  | None =>
      match first_fit
              (λ size, (TYPE_MID_SIZE <=? size) || is_SML_patchable patch size)
              instrs (S syscall_idx - start_idx) start_idx 0 with
      | Some _ => S syscall_idx
      | None =>
          match first_fit (is_SML_patchable patch) instrs
                  (second_ecall_idx - start_idx) start_idx 0 with
          | Some i => S i
          | None => start_idx
          end
      end
  end.

(** State of the scan of [check_surrounding_instructions]: the patch (its
    [syscall_num] is updated on the way) and the two indices. *)
Record window_scan := {
  ws_patch : patch_desc;
  patch_start_idx : nat;
  patch_end_idx : nat
}.

(** The body of the scan for [i < syscall_idx]. *)
Definition scan_before (desc : intercept_desc)
    (instrs : list intercept_disasm_result) (i : nat) (st : window_scan)
    : window_scan :=
  let ins := instr_at instrs i in
  let patch1 :=
    if -1 <? a7_set ins then set_syscall_num (a7_set ins) (ws_patch st)
    else if is_a7_modified ins then set_syscall_num (-1) (ws_patch st)
    else ws_patch st in
  if has_jump desc (address (instr_at instrs (S i)))
  then {| ws_patch := set_syscall_num (-1) patch1;
          patch_start_idx := S i; patch_end_idx := patch_end_idx st |}
  else if negb (is_copiable_before_syscall ins)
  then {| ws_patch := patch1;
          patch_start_idx := S i; patch_end_idx := patch_end_idx st |}
  else {| ws_patch := patch1;
          patch_start_idx := patch_start_idx st;
          patch_end_idx := patch_end_idx st |}.

(** The scan, with [n] iterations left at index [i]. *)
Fixpoint scan_window (desc : intercept_desc)
    (instrs : list intercept_disasm_result) (syscall_idx : nat)
    (n i : nat) (st : window_scan) : window_scan :=
  match n with
  | O => st
  | S n' =>
      if (i <? syscall_idx)%nat
      then scan_window desc instrs syscall_idx n' (S i)
             (scan_before desc instrs i st)
      else if (syscall_idx <? i)%nat
      then
        let ins := instr_at instrs i in
        if is_syscall ins
        then {| ws_patch := ws_patch st;
                patch_start_idx := patch_start_idx st;
                patch_end_idx :=
                  check_two_ecalls (ws_patch st) syscall_idx
                    (patch_start_idx st) i |}
        else if negb (is_copiable_after_syscall ins)
                || has_jump desc (address ins)
        then {| ws_patch := ws_patch st;
                patch_start_idx := patch_start_idx st;
                patch_end_idx := i |}
        else scan_window desc instrs syscall_idx n' (S i) st
      else scan_window desc instrs syscall_idx n' (S i) st
  end.

(** The last loop: the size of the usable instructions and the two [ra]
    flags. *)
Fixpoint measure_window (instrs : list intercept_disasm_result)
    (syscall_idx : nat) (n i : nat) (acc : Z * bool * bool) : Z * bool * bool :=
  match n with
  | O => acc
  | S n' =>
      let '(size, before, after) := acc in
      let ins := instr_at instrs i in
      let size' := to_uint8 (size + length ins) in
      measure_window instrs syscall_idx n' (S i)
        (if is_ra_used ins
         then (if (i <? syscall_idx)%nat then (size', true, after)
               else (size', before, true))
         else (size', before, after))
  end.

(** [memmove(instrs, instrs + start, n * sizeof ...)]: the first [n] entries
    are replaced, the rest of the array keeps its content. *)
Definition shift_left (instrs : list intercept_disasm_result) (start n : nat)
    : list intercept_disasm_result :=
  take n (drop start instrs) ++ drop n instrs.

(** The patch as left by the function, and the returned size.  The indices
    are [uint8_t] in the source; the scan keeps
    [patch_start_idx <= SYSCALL_IDX] and [patch_start_idx <= patch_end_idx],
    so the subtractions do not wrap. *)
Definition check_surrounding_instructions (desc : intercept_desc)
    (patch : patch_desc) : patch_desc * Z :=
  let instrs := surrounding_instrs patch in
  let patch0 :=
    if negb (reg_set (instr_at instrs (S SYSCALL_IDX)) =? 0)
    then set_return_register (reg_set (instr_at instrs (S SYSCALL_IDX))) patch
    else patch in
  let st := scan_window desc instrs SYSCALL_IDX SURROUNDING_INSTRS_NUM 0
              {| ws_patch := patch0; patch_start_idx := 0%nat;
                 patch_end_idx := SURROUNDING_INSTRS_NUM |} in
  let syscall_idx := (SYSCALL_IDX - patch_start_idx st)%nat in
  let instrs_num := (patch_end_idx st - patch_start_idx st)%nat in
  if (instrs_num <? 1)%nat
  then (set_window syscall_idx instrs
          (is_ra_used_before (ws_patch st)) (is_ra_used_after (ws_patch st))
          (ws_patch st), 0)
  else
    let shifted := shift_left instrs (patch_start_idx st) instrs_num in
    let '(patchable_size, before, after) :=
      measure_window shifted syscall_idx instrs_num 0
        (0, is_ra_used_before (ws_patch st), is_ra_used_after (ws_patch st)) in
    (set_window syscall_idx shifted before after (ws_patch st), patchable_size).

(** [check_patch_alignment]: the loop over the window, left at the first
    address past [end_addr]. *)
Fixpoint check_patch_alignment_loop (instrs : list intercept_disasm_result)
    (start_addr end_addr : Z) (n i : nat) (flags : bool * bool) : bool * bool :=
  match n with
  | O => flags
  | S n' =>
      let a := address (instr_at instrs i) in
      if start_addr =? a
      then check_patch_alignment_loop instrs start_addr end_addr n' (S i)
             (false, snd flags)
      else if end_addr =? a
      then check_patch_alignment_loop instrs start_addr end_addr n' (S i)
             (fst flags, false)
      else if end_addr <? a then flags
      else check_patch_alignment_loop instrs start_addr end_addr n' (S i) flags
  end.

Definition check_patch_alignment (patch : patch_desc) (start_addr : Z)
    (required_size : Z) : bool * bool :=
  check_patch_alignment_loop (surrounding_instrs patch) start_addr
    (start_addr + required_size) SURROUNDING_INSTRS_NUM 0 (true, true).

(** [up_to_ecall_size] of [position_patch]. *)
Fixpoint sum_lengths (instrs : list intercept_disasm_result) (n i : nat)
    (size : Z) : Z :=
  match n with
  | O => size
  | S n' => sum_lengths instrs n' (S i) (to_uint8 (size + length (instr_at instrs i)))
  end.

Definition position_patch (patch : patch_desc) : patch_desc :=
  let instrs := surrounding_instrs patch in
  let up_to_ecall_size := sum_lengths instrs (S (syscall_idx patch)) 0 0 in
  let '(ret, start_addr, required_size) :=
    if syscall_num patch =? TYPE_GW then
      let required_size := to_uint8 TYPE_GW_SIZE in
      let ret :=
        if required_size <=? up_to_ecall_size
        then syscall_addr patch + ECALL_INS_SIZE
             - MODIFY_SP_INS_SIZE - STORE_LOAD_INS_SIZE
        else address (instr_at instrs 0) + MODIFY_SP_INS_SIZE
             + STORE_LOAD_INS_SIZE + JUMP_2GB_INS_SIZE in
      (ret,
       ret - JUMP_2GB_INS_SIZE - STORE_LOAD_INS_SIZE - MODIFY_SP_INS_SIZE,
       required_size)
    else if syscall_num patch =? TYPE_MID then
      let required_size := to_uint8 TYPE_MID_SIZE in
      let ret :=
        if required_size <=? up_to_ecall_size
        then syscall_addr patch + ECALL_INS_SIZE
             - MODIFY_SP_INS_SIZE - STORE_LOAD_INS_SIZE
        else address (instr_at instrs 0) + MODIFY_SP_INS_SIZE
             + STORE_LOAD_INS_SIZE + JAL_INS_SIZE in
      (ret,
       ret - JAL_INS_SIZE - STORE_LOAD_INS_SIZE - MODIFY_SP_INS_SIZE,
       required_size)
    else
      let required_size :=
        if negb (return_register patch =? 0) then to_uint8 JAL_INS_SIZE
        else if riscv_c && (syscall_num patch <? 32)
        then to_uint8 (JAL_INS_SIZE + C_LI_INS_SIZE)
        else to_uint8 (JAL_INS_SIZE + ADDI_INS_SIZE) in
      let ret :=
        if negb (return_register patch =? 0)
        then syscall_addr patch + JAL_INS_SIZE
        else if required_size <=? up_to_ecall_size
        then syscall_addr patch + ECALL_INS_SIZE - required_size + JAL_INS_SIZE
        else address (instr_at instrs 0) + JAL_INS_SIZE in
      (ret, ret - JAL_INS_SIZE, required_size) in
  let '(start_nop, end_nop) :=
    if riscv_c then check_patch_alignment patch start_addr required_size
    else (start_with_c_nop patch, end_with_c_nop patch) in
  set_position ret start_addr required_size start_nop end_nop patch.

(** [relocate_instrs]: the patch with its [relocation_address], and the
    cursor after the block.  The bytes themselves are not modelled; the
    cursor advances by the copied instructions and the emitted glue. *)
Definition relocate_instrs (patch : patch_desc) (dst : Z) : patch_desc * Z :=
  let '(start_addr, patch_size) :=
    if riscv_c
    then
      let '(a, s) :=
        if start_with_c_nop patch
        then (dst_jmp_patch patch - C_NOP_INS_SIZE,
              patch_size_bytes patch + C_NOP_INS_SIZE)
        else (dst_jmp_patch patch, patch_size_bytes patch) in
      if end_with_c_nop patch then (a, s + C_NOP_INS_SIZE) else (a, s)
    else (dst_jmp_patch patch, patch_size_bytes patch) in
  let swap_before :=
    if is_ra_used_before patch
    then load_orig_ra_temp_size + store_new_ra_temp_size else 0 in
  let before_ecall_size := to_uint64 (syscall_addr patch - start_addr) in
  let after_ecall_size :=
    to_uint64 (patch_size - before_ecall_size - ECALL_INS_SIZE) in
  let after :=
    if 0 <? after_ecall_size
    then (if is_ra_used_after patch
          then load_orig_ra_temp_size + store_new_ra_temp_size else 0)
         + after_ecall_size
    else 0 in
  (set_relocation_address dst patch,
   dst + swap_before + before_ecall_size + copy_jump_size + after
     + copy_jump_size + finalize_and_jump_back_size patch).

(** One iteration of the first loop of [create_patch], on the patch at
    index [patch_i]. *)
Definition create_patch_step (desc : intercept_desc) (patch_i : nat)
    (patch : patch_desc) (dst : Z) : outcome (intercept_desc * Z) :=
  let '(patch1, len) := check_surrounding_instructions desc patch in
  let classified :=
    if TYPE_GW_SIZE <=? len
    then Some (set_return_register REG_RA (set_syscall_num TYPE_GW patch1))
    else if TYPE_MID_SIZE <=? len
    then Some (set_return_register REG_RA (set_syscall_num TYPE_MID patch1))
    else if negb (is_SML_patchable patch1 len) then None
    else Some patch1 in
  match classified with
  | None => Aborted "not enough space for patching around syscall"
  | Some patch2 =>
      let patch3 := position_patch patch2 in
      let last_instr_addr :=
        dst_jmp_patch patch3 + patch_size_bytes patch3
        + (if riscv_c && end_with_c_nop patch3 then C_NOP_INS_SIZE else 0) in
      let desc1 := mark_jump desc last_instr_addr in
      let '(patch4, dst') := relocate_instrs patch3 dst in
      let patch5 := set_surrounding_instrs [] patch4 in
      Returned (set_items (<[patch_i := patch5]> (items desc1)) desc1, dst')
  end.

(** The first loop, with [n] iterations left at index [patch_i]. *)
Fixpoint create_patch_loop (n patch_i : nat) (desc : intercept_desc) (dst : Z)
    : outcome (intercept_desc * Z) :=
  match n with
  | O => Returned (desc, dst)
  | S n' =>
      match items desc !! patch_i with
      | None => Returned (desc, dst)
      | Some patch =>
          match create_patch_step desc patch_i patch dst with
          | Aborted msg => Aborted msg
          | Returned (desc', dst') => create_patch_loop n' (S patch_i) desc' dst'
          end
      end
  end.

(** The loop of [find_GW] over the patches of the object: the
    [dst_jmp_patch] of the first gateway in reach of [jump_from]. *)
Fixpoint find_GW_loop (ps : list patch_desc) (jump_from : Z) : option Z :=
  match ps with
  | [] => None
  | patch_GW :: ps' =>
      if negb (syscall_num patch_GW =? TYPE_GW) then find_GW_loop ps' jump_from
      else if Z.abs (dst_jmp_patch patch_GW - jump_from) <? JAL_MID_REACH
      then Some (dst_jmp_patch patch_GW)
      else find_GW_loop ps' jump_from
  end.

Definition jump_from (patch : patch_desc) : Z :=
  if syscall_num patch =? TYPE_MID
  then return_address patch - JAL_INS_SIZE + MODIFY_SP_INS_SIZE
  else return_address patch - JAL_INS_SIZE.

Definition find_GW (desc : intercept_desc) (patch : patch_desc) : patch_desc :=
  let patch1 :=
    match find_GW_loop (items desc) (jump_from patch) with
    | Some d => set_dst_jmp_patch d patch
    | None => patch
    end in
  if syscall_num patch =? TYPE_MID
  then set_dst_jmp_patch (dst_jmp_patch patch1 + MODIFY_SP_INS_SIZE) patch1
  else patch1.

(** The second loop of [create_patch]. *)
Fixpoint find_GW_all (n patch_i : nat) (desc : intercept_desc) : intercept_desc :=
  match n with
  | O => desc
  | S n' =>
      match items desc !! patch_i with
      | None => desc
      | Some patch =>
          find_GW_all n' (S patch_i)
            (if negb (syscall_num patch =? TYPE_GW)
             then set_items (<[patch_i := find_GW desc patch]> (items desc)) desc
             else desc)
      end
  end.

Definition create_patch (desc : intercept_desc) (dst : Z)
    : outcome (intercept_desc * Z) :=
  match create_patch_loop (List.length (items desc)) 0 desc dst with
  | Aborted msg => Aborted msg
  | Returned (desc', dst') =>
      Returned (find_GW_all (List.length (items desc')) 0 desc', dst')
  end.

(** *** activate_patches *)

(** Modelled from the spec: [round_down_address] (its file is not in the
    tree) gives the start of the page covering an address, "the covering
    pages of [text_start, text_end)"; pages are 4 KiB. *)
Definition round_down_address (addr : Z) : Z := addr - addr mod 0x1000.

Inductive protection := PROT_RWX | PROT_RX.

(** What [activate_patches] does to the process: the trampoline written, the
    page protection set, a patch written from a start address (computed as
    [copy_GW], [copy_MID] and [copy_SML] do), the cache cleared. *)
Inductive activation :=
  | Act_trampoline (addr : Z)
  | Act_mprotect (first_page size : Z) (prot : protection)
  | Act_copy (t : patch_type) (patch_start_addr : Z) (patch : patch_desc)
  | Act_clear_cache (first last : Z).

Definition nop_shift (patch : patch_desc) (addr : Z) : Z :=
  if riscv_c && start_with_c_nop patch then addr - RVC_INS_SIZE else addr.

Definition copy_GW (patch : patch_desc) : activation :=
  Act_copy GW (nop_shift patch (dst_jmp_patch patch)) patch.

Definition copy_MID (patch : patch_desc) : activation :=
  Act_copy MID
    (nop_shift patch
       (return_address patch - JAL_INS_SIZE - STORE_LOAD_INS_SIZE
        - MODIFY_SP_INS_SIZE)) patch.

Definition copy_SML (patch : patch_desc) : activation :=
  Act_copy SML (nop_shift patch (return_address patch - JAL_INS_SIZE)) patch.

(** The loop over the patches. *)
Fixpoint activate_loop (desc : intercept_desc) (ps : list patch_desc)
    : outcome (list activation) :=
  match ps with
  | [] => Returned []
  | patch :: ps' =>
      if (dst_jmp_patch patch <? text_start desc)
         || (text_end desc <? dst_jmp_patch patch)
      then Aborted "dst_jmp_patch outside text"
      else
        let act :=
          if syscall_num patch =? TYPE_GW then copy_GW patch
          else if syscall_num patch =? TYPE_MID then copy_MID patch
          else copy_SML patch in
        match activate_loop desc ps' with
        | Aborted msg => Aborted msg
        | Returned acts => Returned (act :: acts)
        end
  end.

Definition activate_patches (desc : intercept_desc) : outcome (list activation) :=
  match items desc with
  | [] => Returned []
  | _ :: _ =>
      let first_page := round_down_address (text_start desc) in
      let size := to_uint64 (text_end desc - first_page) in
      match activate_loop desc (items desc) with
      | Aborted msg => Aborted msg
      | Returned acts =>
          Returned
            ((if uses_trampoline desc
              then [Act_trampoline (trampoline_address desc)] else [])
             ++ [Act_mprotect first_page size PROT_RWX]
             ++ acts
             ++ [Act_clear_cache first_page (first_page + size);
                 Act_mprotect first_page size PROT_RX])
      end
  end.

End WithHeader.
End Patcher.

Import Dispatch Startup Patcher.

(** ** The object enumerator

    Object names and paths are C strings; a [string] stands for the
    characters before the terminating NUL. *)

Module Enumerator.

(** [strrchr(s, c)]: the suffix that starts at the last [c], NULL when
    there is none. *)
Fixpoint strrchr (s : string) (c : Ascii.ascii) : option string :=
  match s with
  | EmptyString => None
  | String x rest =>
      match strrchr rest c with
      | Some t => Some t
      | None => if Ascii.eqb x c then Some s else None
      end
  end.

(** The character ['/']. *)
Definition slash : Ascii.ascii := Ascii.ascii_of_nat 47.

Definition get_lib_short_name (name : string) : string :=
  match strrchr name slash with
  | Some (String _ rest) => rest
  | _ => name
  end.

Fixpoint str_mem (c : Ascii.ascii) (set : string) : bool :=
  match set with
  | EmptyString => false
  | String x rest => Ascii.eqb c x || str_mem c rest
  end.

(** [strcspn(s, reject)]: the number of leading characters of [s] that are
    not in [reject]. *)
Fixpoint strcspn (s reject : string) : nat :=
  match s with
  | EmptyString => O
  | String c rest => if str_mem c reject then O else S (strcspn rest reject)
  end.

(** [strncmp(a, b, n) == 0]. *)
Fixpoint strncmp_eq (a b : string) (n : nat) : bool :=
  match n with
  | O => true
  | S n' =>
      match a, b with
      | EmptyString, EmptyString => true
      | String x a', String y b' => Ascii.eqb x y && strncmp_eq a' b' n'
      | _, _ => false
      end
  end.

Definition str_match (name : string) (name_len : nat) (expected : string) : bool :=
  Nat.eqb name_len (String.length expected) && strncmp_eq name expected name_len.

(** [strstr(haystack, needle) != NULL]. *)
Fixpoint strstr_found (haystack needle : string) : bool :=
  String.prefix needle haystack
  || match haystack with
     | EmptyString => false
     | String _ rest => strstr_found rest needle
     end.

Definition is_vdso (vdso_addr addr : Z) (path : string) : bool :=
  (addr =? vdso_addr) || strstr_found path "vdso".

(** The line feed that ends the diagnostic messages. *)
Definition nl : string := String (Ascii.ascii_of_nat 10) EmptyString.

(** The statics the enumeration goes through: [self_addr] of
    [should_patch_object], [libc_found], the offset of [next_path] in
    [paths] of [get_name_from_proc_maps], and the [objs] array
    ([objs_count] is its length).  Static storage starts zeroed. *)
Record enum_state := {
  self_addr : Z;
  libc_found : bool;
  next_path : Z;
  objs : list intercept_desc
}.

Definition enum_init : enum_state :=
  {| self_addr := 0; libc_found := false; next_path := 0; objs := [] |}.

Definition set_self_addr (v : Z) (st : enum_state) : enum_state :=
  {| self_addr := v; libc_found := libc_found st;
     next_path := next_path st; objs := objs st |}.

Definition set_libc_found (v : bool) (st : enum_state) : enum_state :=
  {| self_addr := self_addr st; libc_found := v;
     next_path := next_path st; objs := objs st |}.

Definition set_next_path (v : Z) (st : enum_state) : enum_state :=
  {| self_addr := self_addr st; libc_found := libc_found st;
     next_path := v; objs := objs st |}.

Definition set_objs (v : list intercept_desc) (st : enum_state) : enum_state :=
  {| self_addr := self_addr st; libc_found := libc_found st;
     next_path := next_path st; objs := v |}.

(** [should_patch_object].  [dladdr] is what [dladdr] finds for the
    library itself: its [dli_fbase], [None] when the call answers 0.  The
    answer comes with the new statics and with what the [debug_dump] calls
    write. *)
Definition should_patch_object (g : globals) (vdso_addr : Z) (dladdr : option Z)
    (st : enum_state) (addr : Z) (path : string)
    : outcome (bool * enum_state * list fd_write) :=
  match (if self_addr st =? 0 then dladdr else Some (self_addr st)) with
  | None => Aborted "self dladdr failure"
  | Some self =>
      let st := set_self_addr self st in
      if is_vdso vdso_addr addr path
      then Returned (false, st,
                     debug_dump g (String.append " - skipping: is_vdso" nl))
      else
        let name := get_lib_short_name path in
        let len := strcspn name "-." in
        if Nat.eqb len 0 then Returned (false, st, [])
        else if addr =? self
        then Returned (false, st,
                       debug_dump g (String.append " - skipping: matches self" nl))
        else if str_match name len "libcapstone"
        then Returned (false, st,
                       debug_dump g
                         (String.append " - skipping: matches capstone" nl))
        else if str_match name len "libc"
        then Returned (true, set_libc_found true st,
                       debug_dump g (String.append " - libc found" nl))
        else if patch_all_objs g then Returned (true, st, [])
        else if str_match name len "libpthread"
        then Returned (true, st,
                       debug_dump g (String.append " - libpthread found" nl))
        else Returned (false, st,
                       debug_dump g
                         (String.append " - skipping, patch_all_objs == false" nl))
  end.

(** The members of [Elf64_Phdr] and [struct dl_phdr_info] the source reads;
    [dlpi_phnum] is the length of [dlpi_phdr]. *)
Record Elf64_Phdr := { p_type : Z; p_vaddr : Z; p_memsz : Z }.

Record dl_phdr_info := {
  dlpi_addr : Z;
  dlpi_name : option string;
  dlpi_phdr : list Elf64_Phdr
}.

Definition PT_LOAD : Z := 1.

Fixpoint get_any_used_vaddr_loop (base : Z) (pheaders : list Elf64_Phdr) : Z :=
  match pheaders with
  | [] => 0
  | ph :: rest =>
      if (p_type ph =? PT_LOAD) && negb (p_memsz ph =? 0)
      then to_uint64 (base + p_vaddr ph)
      else get_any_used_vaddr_loop base rest
  end.

Definition get_any_used_vaddr (info : dl_phdr_info) : Z :=
  get_any_used_vaddr_loop (dlpi_addr info) (dlpi_phdr info).

(** A line of [/proc/self/maps] as the [sscanf] of the source reads it: the
    two bounds and the pathname when all three are there. *)
Definition maps_line : Type := option (Z * Z * string).

Definition sizeof_paths : Z := 0x10000.
Definition sizeof_line : Z := 0x2000.

(** The loop over the lines. *)
Fixpoint proc_maps_loop (addr : Z) (lines : list maps_line) : option string :=
  match lines with
  | [] => None
  | None :: rest => proc_maps_loop addr rest
  | Some (start, end_, pathname) :: rest =>
      if addr <? start then None
      else if (start <=? addr) && (addr <? end_) then Some pathname
      else proc_maps_loop addr rest
  end.

(** [get_name_from_proc_maps]: [maps] is the file as this call reads it,
    [None] when it cannot be opened. *)
Definition get_name_from_proc_maps (maps : option (list maps_line))
    (st : enum_state) (addr : Z) : option string * enum_state :=
  if sizeof_paths - sizeof_line <=? next_path st then (None, st)
  else
    match maps with
    | None => (None, st)
    | Some lines =>
        match proc_maps_loop addr lines with
        | Some pathname =>
            (Some pathname,
             set_next_path
               (next_path st + Z.of_nat (String.length pathname) + 1) st)
        | None => (None, st)
        end
    end.

Definition get_object_path (maps : option (list maps_line)) (st : enum_state)
    (info : dl_phdr_info) : option string * enum_state :=
  match dlpi_name info with
  | Some (String c rest) => (Some (String c rest), st)
  | _ =>
      let addr := get_any_used_vaddr info in
      if addr =? 0 then (None, st)
      else get_name_from_proc_maps maps st addr
  end.

Section WithCollaborators.
Context `{InterceptHeader}.

(** [find_syscalls] and [allocate_trampoline] are defined outside the tree:
    the development holds for whatever they do to a descriptor. *)
Variable find_syscalls : intercept_desc → intercept_desc.
Variable allocate_trampoline : intercept_desc → intercept_desc.

(** The descriptor [allocate_next_obj_desc] hands out (fresh anonymous
    memory reads as zero) with the two fields [analyze_object] sets. *)
Definition new_obj_desc (base : Z) (p : string) : intercept_desc :=
  {| base_addr := base; path := p; text_start := 0; text_end := 0;
     items := []; uses_trampoline := false; trampoline_address := 0;
     jump_table := ∅ |}.

(** [analyze_object], the callback of [dl_iterate_phdr]; it returns 0 on
    every path.  What its [debug_dump] calls write is left out. *)
Definition analyze_object (g : globals) (vdso_addr : Z) (dladdr : option Z)
    (maps : option (list maps_line)) (st : enum_state) (info : dl_phdr_info)
    : outcome enum_state :=
  match get_object_path maps st info with
  | (None, st1) => Returned st1
  | (Some p, st1) =>
      match should_patch_object g vdso_addr dladdr st1 (dlpi_addr info) p with
      | Aborted msg => Aborted msg
      | Returned (false, st2, _) => Returned st2
      | Returned (true, st2, _) =>
          Returned
            (set_objs (objs st2 ++ [find_syscalls (new_obj_desc (dlpi_addr info) p)])
               st2)
      end
  end.

(** [dl_iterate_phdr(analyze_object, NULL)]: the callback never answers
    non-zero, so every loaded object is visited.  Each object comes with
    the maps file as it reads at that moment. *)
Fixpoint dl_iterate_phdr (g : globals) (vdso_addr : Z) (dladdr : option Z)
    (st : enum_state) (loaded : list (dl_phdr_info * option (list maps_line)))
    : outcome enum_state :=
  match loaded with
  | [] => Returned st
  | (info, maps) :: rest =>
      match analyze_object g vdso_addr dladdr maps st info with
      | Aborted msg => Aborted msg
      | Returned st' => dl_iterate_phdr g vdso_addr dladdr st' rest
      end
  end.

(** The first loop of [intercept]: [cur] is [cur_asm_relocation_space]. *)
Fixpoint create_patches (asm_relocation_space asm_relocation_space_size : Z)
    (os : list intercept_desc) (cur : Z) : outcome (list intercept_desc * Z) :=
  match os with
  | [] => Returned ([], cur)
  | o :: rest =>
      if Nat.eqb (List.length (items o)) 0
      then
        match create_patches asm_relocation_space asm_relocation_space_size
                rest cur with
        | Aborted msg => Aborted msg
        | Returned (rest', cur') => Returned (o :: rest', cur')
        end
      else if asm_relocation_space_size
              <? to_uint64 (cur - asm_relocation_space)
      then Aborted "not enough space in relocation space"
      else
        match create_patch (allocate_trampoline o) cur with
        | Aborted msg => Aborted msg
        | Returned (o', cur1) =>
            match create_patches asm_relocation_space
                    asm_relocation_space_size rest cur1 with
            | Aborted msg => Aborted msg
            | Returned (rest', cur') => Returned (o' :: rest', cur')
            end
        end
  end.

(** The second loop of [intercept]. *)
Fixpoint activate_all (os : list intercept_desc) : outcome (list activation) :=
  match os with
  | [] => Returned []
  | o :: rest =>
      match activate_patches o with
      | Aborted msg => Aborted msg
      | Returned acts =>
          match activate_all rest with
          | Aborted msg => Aborted msg
          | Returned acts' => Returned (acts ++ acts')
          end
      end
  end.

Definition write_enable_asm_relocation_space
    (asm_relocation_space asm_relocation_space_size : Z) (enable_write : bool)
    : list activation :=
  if enable_write
  then [Act_mprotect asm_relocation_space asm_relocation_space_size PROT_RWX]
  else [Act_clear_cache asm_relocation_space
          (asm_relocation_space + asm_relocation_space_size);
        Act_mprotect asm_relocation_space asm_relocation_space_size PROT_RX].

(** [intercept], the constructor, from the statics as they are at load
    (the calls into the logging unit and [init_tls_offset_table] left
    out).  [hook_allowed] is what [syscall_hook_in_process_allowed]
    answers, [vdso_addr] what [getauxval(AT_SYSINFO_EHDR)] does. *)
Definition intercept (hook_allowed : bool) (environ : gmap string string)
    (vdso_addr : Z) (dladdr : option Z)
    (asm_relocation_space asm_relocation_space_size : Z)
    (loaded : list (dl_phdr_info * option (list maps_line)))
    : outcome (list intercept_desc * list activation) :=
  if negb hook_allowed then Returned ([], [])
  else
    let g := intercept_flags hook_allowed environ globals_init in
    match dl_iterate_phdr g vdso_addr dladdr enum_init loaded with
    | Aborted msg => Aborted msg
    | Returned st =>
        if negb (libc_found st) then Aborted "libc not found"
        else
          match create_patches asm_relocation_space asm_relocation_space_size
                  (objs st) asm_relocation_space with
          | Aborted msg => Aborted msg
          | Returned (os, _) =>
              match activate_all os with
              | Aborted msg => Aborted msg
              | Returned acts =>
                  Returned
                    (os,
                     write_enable_asm_relocation_space asm_relocation_space
                       asm_relocation_space_size true
                     ++ write_enable_asm_relocation_space asm_relocation_space
                          asm_relocation_space_size false
                     ++ acts)
              end
          end
    end.

End WithCollaborators.
End Enumerator.

(** ** xabort_errno *)

Module Abort.

(** What the process does on its way out. *)
Inductive exit_action :=
  | Write_stderr (buf : list Z) (len : Z)
  | Exit_group (status : Z).

(** The characters of a message, as the bytes written. *)
Definition bytes_of (s : string) : list Z :=
  (λ c, Z.of_nat (Ascii.nat_of_ascii c)) <$> String.list_ascii_of_string s.

Definition main_msg : string :=
  String.append " libsyscall_intercept error" Enumerator.nl.

(** The [do ... while] that stores the digits from the end of [buf]
    backwards: [acc] is what is already stored, [len] the length counted
    so far.  The quotient and the remainder are those of C, truncated
    towards zero, and a digit is stored into a [char]. *)
Fixpoint error_code_digits (fuel : nat) (error_code : Z) (acc : list Z) (len : Z)
    : list Z * Z :=
  match fuel with
  | O => (acc, len)
  | S fuel' =>
      let acc' := to_uint8 (Z.rem error_code 10 + 48) :: acc in
      let error_code' := Z.quot error_code 10 in
      if error_code' =? 0 then (acc', len + 1)
      else error_code_digits fuel' error_code' acc' (len + 1)
  end.

Definition sizeof_buf : Z := 0x10.

(** [xabort_errno(error_code, msg)]; [error_code] is an [int], [msg] may be
    NULL.  The loop is given [sizeof buf] rounds; it ends within ten (see
    [xabort_errno_digits]). *)
Definition xabort_errno (error_code : Z) (msg : option string) : list exit_action :=
  (match msg with
   | Some m => [Write_stderr (bytes_of m) (Z.of_nat (String.length m))]
   | None => []
   end)
  ++ (if error_code =? 0 then []
      else
        let '(digits, len) :=
          error_code_digits (Z.to_nat sizeof_buf) error_code [] 1 in
        [Write_stderr (32 :: digits) len])
  ++ [Write_stderr (bytes_of main_msg) (Z.of_nat (String.length main_msg));
      Exit_group 1].

Definition xabort (msg : option string) : list exit_action := xabort_errno 0 msg.

End Abort.

(** ** The example hook of [examples/icap.c] *)

Module Icap.

(** [SYS_write] on riscv64. *)
Definition SYS_write : Z := 64.

Definition sizeof_buf_copy : Z := 0x1000.

(** The [memcpy] into [buf_copy]: the [size] bytes of the caller's memory
    from [arg1]. *)
Definition memcpy (memory : Z → Z) (src : Z) (size : nat) : list Z :=
  (λ k, memory (src + Z.of_nat k)) <$> seq 0 size.

(** The loop over [buf_copy], from index [i] for [n] rounds; 105 is the
    letter i, 73 its capital. *)
Fixpoint capitalize (n i : nat) (buf_copy : list Z) : list Z :=
  match n with
  | O => buf_copy
  | S n' =>
      capitalize n' (S i)
        (if default 0 (buf_copy !! i) =? 105 then <[i := 73]> buf_copy
         else buf_copy)
  end.

(** [hook]: [memory] is the caller's memory, [sys_write] is
    [syscall_no_intercept(SYS_write, fd, buf, size)] as a function of the
    content of its buffer.  The answer is the returned [int] and the
    content of [*result]. *)
Definition hook (memory : Z → Z) (sys_write : Z → list Z → Z → wrapper_ret)
    (syscall_number arg0 arg1 arg2 : Z) (result : Z) : Z * Z :=
  if syscall_number =? SYS_write then
    let size := to_uint64 arg2 in
    let size := if sizeof_buf_copy <? size then sizeof_buf_copy else size in
    let buf_copy := memcpy memory arg1 (Z.to_nat size) in
    let buf_copy := capitalize (Z.to_nat size) 0 buf_copy in
    let ret := sys_write arg0 buf_copy size in
    (0, ret_a0 ret)
  else (1, result).

(** [start], the constructor: the hook installed, the two clone hooks left
    NULL. *)
Definition start (memory : Z → Z) (sys_write : Z → list Z → Z → wrapper_ret)
    : hook_points :=
  {| intercept_hook_point :=
       Some (λ syscall_number a result,
               hook memory sys_write syscall_number
                 (default 0 (a !! 0%nat)) (default 0 (a !! 1%nat))
                 (default 0 (a !! 2%nat)) result);
     intercept_hook_point_clone_child := false;
     intercept_hook_point_clone_parent := false |}.

End Icap.

Import Enumerator Abort.

(** ** A sample header

    Values for the parameters, used where a statement is evaluated on a
    concrete input: the sizes of the uncompressed RV64 encodings (4-byte
    instructions, an 8-byte [auipc]+[jalr] pair), the reach of [jal], two
    distinct negative tags, and a window of thirteen instructions with the
    [ecall] in the middle. *)
Definition sample_header : InterceptHeader :=
  {| TYPE_GW := -2; TYPE_MID := -3;
     TYPE_GW_SIZE := 24; TYPE_MID_SIZE := 20;
     JAL_INS_SIZE := 4; C_LI_INS_SIZE := 2; ADDI_INS_SIZE := 4;
     ECALL_INS_SIZE := 4; MODIFY_SP_INS_SIZE := 4; STORE_LOAD_INS_SIZE := 4;
     JUMP_2GB_INS_SIZE := 8; C_NOP_INS_SIZE := 2; RVC_INS_SIZE := 2;
     JAL_MID_REACH := 0xFF000;
     SURROUNDING_INSTRS_NUM := 13; SYSCALL_IDX := 6;
     REG_RA := 1; REG_A7 := 17;
     riscv_c := false;
     load_orig_ra_temp_size := 8; store_new_ra_temp_size := 8;
     copy_jump_size := 4;
     finalize_and_jump_back_size := λ _, 16 |}.

(** A patch with the given class tag (or syscall number), return address
    and relocation address; the other members are zero. *)
Definition mk_patch (num ret reloc : Z) : patch_desc :=
  {| syscall_addr := 0; syscall_offset := 0; surrounding_instrs := [];
     syscall_num := num; syscall_idx := 0; return_register := 0;
     dst_jmp_patch := 0; patch_size_bytes := 0; return_address := ret;
     relocation_address := reloc; is_ra_used_before := false;
     is_ra_used_after := false; start_with_c_nop := false;
     end_with_c_nop := false |}.

(** An object with the given patches and text extent. *)
Definition mk_obj (ts te : Z) (ps : list patch_desc) : intercept_desc :=
  {| base_addr := 0; path := "libc.so.6"; text_start := ts; text_end := te;
     items := ps; uses_trampoline := false; trampoline_address := 0;
     jump_table := ∅ |}.

(** An ordinary 4-byte instruction at an address, and the [ecall]. *)
Definition plain_instr (addr : Z) : intercept_disasm_result :=
  {| address := addr; length := 4; is_set := true; is_syscall := false;
     is_abs_jump := false; has_ip_relative_opr := false; is_ra_used := false;
     reg_set := 0; a7_set := -1; is_a7_modified := false |}.

Definition ecall_instr (addr : Z) : intercept_disasm_result :=
  {| address := addr; length := 4; is_set := true; is_syscall := true;
     is_abs_jump := false; has_ip_relative_opr := false; is_ra_used := false;
     reg_set := 0; a7_set := -1; is_a7_modified := false |}.

(** An instruction with a pc-relative operand (an [auipc], a branch). *)
Definition pcrel_instr (addr : Z) : intercept_disasm_result :=
  {| address := addr; length := 4; is_set := true; is_syscall := false;
     is_abs_jump := false; has_ip_relative_opr := true; is_ra_used := false;
     reg_set := 0; a7_set := -1; is_a7_modified := false |}.

(** A site as the scanner hands it to the planner: the [ecall] address, the
    number it found for [a7] (or -1) and the window. *)
Definition mk_site (addr num : Z) (window : list intercept_disasm_result)
    : patch_desc :=
  {| syscall_addr := addr; syscall_offset := addr; surrounding_instrs := window;
     syscall_num := num; syscall_idx := 0; return_register := 0;
     dst_jmp_patch := 0; patch_size_bytes := 0; return_address := 0;
     relocation_address := 0; is_ra_used_before := false;
     is_ra_used_after := false; start_with_c_nop := false;
     end_with_c_nop := false |}.

(** Thirteen ordinary instructions around an [ecall] at index 6. *)
Definition open_window (addr : Z) : list intercept_disasm_result :=
  ((λ i, plain_instr (addr - 24 + 4 * Z.of_nat i)) <$> seq 0 6)
  ++ [ecall_instr addr]
  ++ ((λ i, plain_instr (addr + 4 + 4 * Z.of_nat i)) <$> seq 0 6).

(** A window that leaves twenty bytes: a pc-relative instruction at index 1,
    and another right after the [ecall]. *)
Definition tight_window (addr : Z) : list intercept_disasm_result :=
  [plain_instr (addr - 24); pcrel_instr (addr - 20)]
  ++ ((λ i, plain_instr (addr - 16 + 4 * Z.of_nat i)) <$> seq 0 4)
  ++ [ecall_instr addr; pcrel_instr (addr + 4)]
  ++ ((λ i, plain_instr (addr + 8 + 4 * Z.of_nat i)) <$> seq 0 5).

(** A window whose [ecall] is the last instruction of the text: what follows
    was not disassembled. *)
Definition last_window (addr : Z) : list intercept_disasm_result :=
  [plain_instr (addr - 24); pcrel_instr (addr - 20)]
  ++ ((λ i, plain_instr (addr - 16 + 4 * Z.of_nat i)) <$> seq 0 4)
  ++ [ecall_instr addr]
  ++ replicate 6 no_instr.

(** A window with a second [ecall] two instructions after the first. *)
Definition two_ecalls_window (addr : Z) : list intercept_disasm_result :=
  ((λ i, plain_instr (addr - 24 + 4 * Z.of_nat i)) <$> seq 0 6)
  ++ [ecall_instr addr; plain_instr (addr + 4); ecall_instr (addr + 8)]
  ++ ((λ i, plain_instr (addr + 12 + 4 * Z.of_nat i)) <$> seq 0 4).


(** An object with three sites: two with room for a gateway, at 0x10100 and
    0x10500, and one with twenty bytes, at 0x10600.  An object whose only
    site has twenty bytes and is the end of its text. *)
Definition three_sites : intercept_desc :=
  mk_obj 0x10000 0x20000
    [mk_site 0x10100 (-1) (open_window 0x10100);
     mk_site 0x10500 (-1) (open_window 0x10500);
     mk_site 0x10600 (-1) (tight_window 0x10600)].

Definition lone_site : intercept_desc :=
  mk_obj 0x10000 0x10604 [mk_site 0x10600 (-1) (last_window 0x10600)].

(** The object and the cursor [create_patch] returns. *)
Definition planned (r : outcome (intercept_desc * Z)) : intercept_desc :=
  match r with Returned (d, _) => d | Aborted _ => mk_obj 0 0 [] end.

Definition cursor (r : outcome (intercept_desc * Z)) : Z :=
  match r with Returned (_, dst) => dst | Aborted _ => 0 end.

(** Whether a call came back. *)
Definition is_Returned {A} (r : outcome A) : bool :=
  match r with Returned _ => true | Aborted _ => false end.

(** The patch at an index of the table of an object. *)
Definition nth_patch (d : intercept_desc) (i : nat) : patch_desc :=
  default (mk_patch 0 0 0) (items d !! i).

(** Tag, [dst_jmp_patch], [patch_size_bytes] and [return_address] of a
    patch. *)
Definition placement (p : patch_desc) : Z * Z * Z * Z :=
  (syscall_num p, dst_jmp_patch p, patch_size_bytes p, return_address p).

(** ** Vocabulary of the statements *)

Section Vocabulary.
Context `{InterceptHeader}.

(** Patch [p] of [objs] matches candidate [k] consistently: its return
    address is the [k]-th candidate and [k] is the slot of its shape. *)
Definition consistent_match (objs : list intercept_desc) (cands : list Z)
    (p : patch_desc) (k : nat) : Prop :=
  (∃ o, o ∈ objs ∧ p ∈ items o)
  ∧ cands !! k = Some (return_address p)
  ∧ k = slot_of (patch_type_of (syscall_num p)).

(** The patches of the table in the order the two inner loops of
    [detect_cur_patch] go through them: object by object, item by item. *)
Definition all_patches (objs : list intercept_desc) : list patch_desc :=
  concat (items <$> objs).

(** Patch [p] is the first consistent match of [objs]: it matches candidate
    [k], no patch matches a candidate of a lower index, and no patch that
    comes before it in the table matches candidate [k]. *)
Definition first_consistent_match (objs : list intercept_desc) (cands : list Z)
    (p : patch_desc) (k : nat) : Prop :=
  consistent_match objs cands p k
  ∧ (∀ q j, (j < k)%nat → ¬ consistent_match objs cands q j)
  ∧ ∃ pre post,
      all_patches objs = pre ++ p :: post
      ∧ ∀ q, q ∈ pre → ¬ consistent_match objs cands q k.

(** The test of the innermost loop body. *)
Definition hit (ret_addrs : list Z) (beyond : nat → Z) (ra_idx : nat)
    (p : patch_desc) : bool :=
  (return_address p =? ret_addrs_get ret_addrs beyond ra_idx)
  && slot_matches (syscall_num p) ra_idx.

(** Bytes of the instructions [start .. i] of a window, and that size as the
    [uint8_t] accumulators of the patcher hold it. *)
Definition span_bytes (instrs : list intercept_disasm_result) (start i : nat) : Z :=
  foldr Z.add 0 ((λ j, length (instr_at instrs j)) <$> seq start (S i - start)).

Definition span_size (instrs : list intercept_disasm_result) (start i : nat) : Z :=
  to_uint8 (span_bytes instrs start i).

(** The search of the two-ecalls helper in the order the specification
    gives: a MID-sized span up to the first [ecall]; then an SML-patchable
    span up to the first [ecall]; then, when the number is unknown, a
    MID-sized span before the second [ecall]; then an SML-patchable span
    before the second [ecall]; else the zero-byte span.  Each alternative
    answers as the corresponding loop of the source does. *)
Definition check_two_ecalls_as_specified (patch : patch_desc)
    (syscall_idx start_idx second_ecall_idx : nat) : nat :=
  let instrs := surrounding_instrs patch in
  match first_fit (λ size, TYPE_MID_SIZE <=? size) instrs
          (S syscall_idx - start_idx) start_idx 0 with
  | Some _ => S syscall_idx
  | None =>
      match first_fit (is_SML_patchable patch) instrs
              (S syscall_idx - start_idx) start_idx 0 with
      | Some _ => S syscall_idx
      | None =>
          match (if syscall_num patch <? 0
                 then first_fit (λ size, TYPE_MID_SIZE <=? size) instrs
                        (second_ecall_idx - start_idx) start_idx 0
                 else None) with
          | Some i => S i
          | None =>
              match first_fit (is_SML_patchable patch) instrs
                      (second_ecall_idx - start_idx) start_idx 0 with
              | Some i => S i
              | None => start_idx
              end
          end
      end
  end.

(** The scan of the window of a patch, as [check_surrounding_instructions]
    runs it. *)
Definition window_scan_of (desc : intercept_desc) (patch : patch_desc) : window_scan :=
  scan_window desc (surrounding_instrs patch) SYSCALL_IDX
    SURROUNDING_INSTRS_NUM 0
    {| ws_patch :=
         if negb (reg_set (instr_at (surrounding_instrs patch) (S SYSCALL_IDX)) =? 0)
         then set_return_register
                (reg_set (instr_at (surrounding_instrs patch) (S SYSCALL_IDX))) patch
         else patch;
       patch_start_idx := 0%nat;
       patch_end_idx := SURROUNDING_INSTRS_NUM |}.

(** A gateway [g] in reach of the address [from]. *)
Definition GW_in_reach (from : Z) (g : patch_desc) : Prop :=
  syscall_num g = TYPE_GW ∧ Z.abs (dst_jmp_patch g - from) < JAL_MID_REACH.

(** Two patches that [find_GW] cannot tell apart when it looks for a
    gateway: same tag, same return address, and same [dst_jmp_patch] when
    they are gateways. *)
Definition same_for_find_GW (p q : patch_desc) : Prop :=
  syscall_num p = syscall_num q
  ∧ return_address p = return_address q
  ∧ (syscall_num p = TYPE_GW → dst_jmp_patch p = dst_jmp_patch q).

(** What the second loop of [create_patch] leaves of a patch, the gateways
    being looked up in [ref]. *)
Definition resolved (ref : intercept_desc) (p : patch_desc) : patch_desc :=
  if syscall_num p =? TYPE_GW then p else find_GW ref p.

(** The gateway nearest to [from] among those in reach, as the
    specification words the pairing: [g] is in reach and no gateway of the
    list in reach is strictly nearer. *)
Definition nearest_GW (l : list patch_desc) (from : Z) (g : patch_desc) : Prop :=
  g ∈ l ∧ GW_in_reach from g
  ∧ ∀ g', g' ∈ l → GW_in_reach from g' →
          Z.abs (dst_jmp_patch g - from) ≤ Z.abs (dst_jmp_patch g' - from).

End Vocabulary.

(** The descriptor the routine builds from its register arguments. *)
Definition desc_of (a0 a1 a2 a3 a4 a5 a7 : Z) : syscall_desc :=
  {| nr := to_int32 a7; args := [a0; a1; a2; a3; a4; a5] |}.

(** The call is forwarded: no hook is installed, or the hook returns
    non-zero.  [r0] is the content of the result slot when the hook is
    called. *)
Definition forwards (hk : hook_points) (d : syscall_desc) (r0 : Z) : Prop :=
  match intercept_hook_point hk with
  | None => True
  | Some hook => (hook (nr d) (args d) r0).1 ≠ 0
  end.

(** A hook that sets the result to [R] and returns [ret], an environment
    whose magic handler declines every call and whose kernel answers [v],
    used to evaluate the routine. *)
Definition const_hook (ret R : Z) : hook_points :=
  {| intercept_hook_point := Some (λ _ _ _, (ret, R));
     intercept_hook_point_clone_child := true;
     intercept_hook_point_clone_parent := true |}.

Definition plain_env (v : Z) : collaborators :=
  {| handle_magic_syscalls := λ _ r, (-1, r);
     syscall_no_intercept := λ _, {| a0 := v; a1 := 0 |};
     clone_args_stack := λ _, 0 |}.

(** ** Vocabulary of the further properties *)

(** The two tests of [intercept_routine] that hand a thread-creating call
    back to the assembly entry. *)
Definition deferred_clone (env : collaborators) (d : syscall_desc) : bool :=
  ((nr d =? SYS_clone)
   && (negb (arg d 1 =? 0) || negb (Z.land (arg d 0) CLONE_VFORK =? 0)))
  || ((nr d =? SYS_clone3) && negb (clone_args_stack env (arg d 0) =? 0)).

(** The event of the hook call, when a hook is installed. *)
Definition hook_events (hk : hook_points) (d : syscall_desc) : list event :=
  match intercept_hook_point hk with Some _ => [Ev_hook d] | None => [] end.

(** The post-clone part of the routine after a forwarded call. *)
Definition post_clone_events_of (hk : hook_points) (d : syscall_desc) (v : Z)
    : list event :=
  if (nr d =? SYS_clone) || (nr d =? SYS_clone3)
  then intercept_routine_post_clone hk v else [].

(** Two patches with the members the dispatcher reads: the return address,
    the tag and the relocation address. *)
Definition same_keys (p q : patch_desc) : Prop :=
  return_address p = return_address q
  ∧ syscall_num p = syscall_num q
  ∧ relocation_address p = relocation_address q.

(** Whether no object of the table has a patch. *)
Definition no_patches (objs : list intercept_desc) : bool :=
  forallb (λ o, match items o with [] => true | _ :: _ => false end) objs.

(** What the hook decides: its [int] and the content of the result slot
    after it; without a hook the call is forwarded and the slot is as the
    magic handler left it. *)
Definition hook_outcome (hk : hook_points) (d : syscall_desc) (r0 : Z) : Z * Z :=
  match intercept_hook_point hk with
  | None => (1, r0)
  | Some hook => hook (nr d) (args d) r0
  end.

(** The actions of an activation that completed. *)
Definition acts_of (r : outcome (list activation)) : list activation :=
  match r with Returned acts => acts | Aborted _ => [] end.

Section VocabularyPatcher.
Context `{InterceptHeader}.

(** What [activate_patches] writes for one patch: the [switch] of its
    loop. *)
Definition activation_of (patch : patch_desc) : activation :=
  if syscall_num patch =? TYPE_GW then copy_GW patch
  else if syscall_num patch =? TYPE_MID then copy_MID patch
  else copy_SML patch.

(** The address a patch is written from. *)
Definition written_from (a : activation) : option Z :=
  match a with Act_copy _ start _ => Some start | _ => None end.

(** A patch as [create_patch] leaves it: its window is freed; it is a
    gateway or a MID patch returning through [ra], or it keeps a known
    syscall number; a gateway has its return address after its stack
    adjustment, its store and its long jump, and the size of its class. *)
Definition planned_patch (p : patch_desc) : Prop :=
  surrounding_instrs p = []
  ∧ (((syscall_num p = TYPE_GW ∨ syscall_num p = TYPE_MID)
      ∧ return_register p = REG_RA)
     ∨ 0 ≤ syscall_num p)
  ∧ (syscall_num p = TYPE_GW →
     return_address p
     = dst_jmp_patch p + MODIFY_SP_INS_SIZE + STORE_LOAD_INS_SIZE
       + JUMP_2GB_INS_SIZE
     ∧ patch_size_bytes p = to_uint8 TYPE_GW_SIZE).

End VocabularyPatcher.

(** *** Vocabulary of the object enumerator *)

(** The short name up to its first ['-'] or ['.']: the text
    [should_patch_object] compares with the library names. *)
Definition stem (p : string) : string :=
  String.substring 0 (strcspn (get_lib_short_name p) "-.") (get_lib_short_name p).

(** An object is a target: not the vdso, with a name, not the library
    itself nor capstone, and libc, or libpthread, or anything when every
    object is to be patched. *)
Definition target (g : globals) (vdso_addr self addr : Z) (p : string) : Prop :=
  is_vdso vdso_addr addr p = false
  ∧ stem p ≠ EmptyString
  ∧ addr ≠ self
  ∧ stem p ≠ "libcapstone"
  ∧ (stem p = "libc" ∨ patch_all_objs g = true ∨ stem p = "libpthread").

(** The statics once [should_patch_object] has run: [self_addr] no longer
    changes. *)
Definition settled (dladdr : option Z) (st : enum_state) : Prop :=
  (if self_addr st =? 0 then dladdr else Some (self_addr st))
  = Some (self_addr st).

(** A program header the loader maps: of type [PT_LOAD], of non-zero size
    in memory. *)
Definition loadable (ph : Elf64_Phdr) : bool :=
  (p_type ph =? PT_LOAD) && negb (p_memsz ph =? 0).

Definition nameless (info : dl_phdr_info) : Prop :=
  dlpi_name info = None ∨ dlpi_name info = Some EmptyString.

(** Every pathname of the maps file fits a line buffer with its NUL. *)
Definition lines_fit (maps : option (list maps_line)) : Prop :=
  ∀ lines s e p, maps = Some lines → Some (s, e, p) ∈ lines →
    Z.of_nat (String.length p) < sizeof_line.

(** The number a string of decimal digit characters denotes. *)
Definition decimal_value (digits : list Z) : Z :=
  fold_left (λ a d, 10 * a + (d - 48)) digits 0.

(** The byte the example hook writes for a byte of the caller. *)
Definition capital (b : Z) : Z := if b =? 105 then 73 else b.

(** What the example hook hands to the kernel for a [write] of [arg2]
    bytes from [arg1]: the length, and the bytes. *)
Definition icap_size (arg2 : Z) : Z := Z.min (to_uint64 arg2) Icap.sizeof_buf_copy.

Definition icap_buffer (memory : Z → Z) (arg1 arg2 : Z) : list Z :=
  (λ k, if memory (arg1 + Z.of_nat k) =? 105 then 73
        else memory (arg1 + Z.of_nat k))
  <$> seq 0 (Z.to_nat (icap_size arg2)).

Definition INT_MIN : Z := - 2 ^ 31.
Definition INT_MAX : Z := 2 ^ 31 - 1.

(** A loaded object that [dl_iterate_phdr] reports without a name, its one
    segment mapped from [0x11000], and a maps file that names it; the
    interceptor itself, reported by name. *)
Definition unnamed_libc : dl_phdr_info :=
  {| dlpi_addr := 0x10000; dlpi_name := Some EmptyString;
     dlpi_phdr := [ {| p_type := 6; p_vaddr := 0x40; p_memsz := 0x200 |};
                    {| p_type := PT_LOAD; p_vaddr := 0x1000; p_memsz := 0x2000 |} ] |}.

Definition sample_maps : option (list maps_line) :=
  Some [ Some (0x8000, 0x9000, "/usr/bin/cat"); None;
         Some (0x10000, 0x20000, "/lib/riscv64-linux-gnu/libc.so.6");
         Some (0x50000, 0x60000, "/usr/lib/libsyscall_intercept.so.0") ].

Definition interceptor_itself : dl_phdr_info :=
  {| dlpi_addr := 0x50000;
     dlpi_name := Some "/usr/lib/libsyscall_intercept.so.0";
     dlpi_phdr := [ {| p_type := PT_LOAD; p_vaddr := 0; p_memsz := 0x1000 |} ] |}.

(** An object with neither a name nor a segment in memory. *)
Definition unmapped_object : dl_phdr_info :=
  {| dlpi_addr := 0x30000; dlpi_name := None;
     dlpi_phdr := [ {| p_type := PT_LOAD; p_vaddr := 0x1000; p_memsz := 0 |} ] |}.

(** A run of the constructor over these three objects, with a disassembler
    that finds the sites of [three_sites] in whatever it is given and no
    trampoline. *)
Definition sample_find_syscalls (d : intercept_desc) : intercept_desc :=
  {| base_addr := base_addr d; path := path d;
     text_start := text_start three_sites; text_end := text_end three_sites;
     items := items three_sites; uses_trampoline := false;
     trampoline_address := 0; jump_table := jump_table three_sites |}.

Definition sample_loaded : list (dl_phdr_info * option (list maps_line)) :=
  [ (unnamed_libc, sample_maps); (unmapped_object, None);
    (interceptor_itself, sample_maps) ].

Definition sample_run : outcome (list intercept_desc * list activation) :=
  intercept (H := sample_header) sample_find_syscalls id true ∅ 0x7000
    (Some 0x50000) 0x900000 0x10000 sample_loaded.

(** The objects and the actions of a run that completed. *)
Definition patched_objects (r : outcome (list intercept_desc * list activation))
    : list intercept_desc :=
  match r with Returned (os, _) => os | Aborted _ => [] end.

Definition run_activations (r : outcome (list intercept_desc * list activation))
    : list activation :=
  match r with Returned (_, acts) => acts | Aborted _ => [] end.

(** ** detect_cur_patch *)

Section DetectFacts.
Context `{InterceptHeader}.

Lemma slot_matches_spec num k :
  slot_matches num k = true ↔ k = slot_of (patch_type_of num).
Proof.
  unfold slot_matches, patch_type_of.
  destruct (num =? TYPE_GW); [|destruct (num =? TYPE_MID)]; simpl;
    rewrite Nat.eqb_eq; done.
Qed.

Lemma slot_matches_lt num k : slot_matches num k = true → (k < 3)%nat.
Proof.
  rewrite slot_matches_spec. intros ->.
  destruct (patch_type_of num); simpl; lia.
Qed.

Lemma scan_items_true ra b k ps st st' :
  scan_items ra b k ps st = (true, st') →
  ∃ p, p ∈ ps ∧ hit ra b k p = true
       ∧ ds_syscall_num st' = syscall_num p
       ∧ ds_reloc_addr st' = relocation_address p.
Proof.
  revert st. induction ps as [|p ps IH]; intros st Hs; simpl in Hs.
  - discriminate.
  - destruct (_ && _) eqn:Hh.
    + inversion Hs; subst; clear Hs. exists p. simpl.
      split; [apply list_elem_of_here|]. done.
    + destruct (IH _ Hs) as (q & Hq & Hrest).
      exists q. split; [by apply list_elem_of_further|done].
Qed.

Lemma scan_items_false ra b k ps st st' :
  scan_items ra b k ps st = (false, st') → ∀ p, p ∈ ps → hit ra b k p = false.
Proof.
  revert st. induction ps as [|p ps IH]; intros st Hs q Hq; simpl in Hs.
  - by apply elem_of_nil in Hq.
  - destruct (_ && _) eqn:Hh; [discriminate|].
    apply elem_of_cons in Hq as [->|Hq]; [exact Hh|by eapply IH].
Qed.

Lemma scan_objs_true ra b k os st st' :
  scan_objs ra b k os st = (true, st') →
  ∃ o p, o ∈ os ∧ p ∈ items o ∧ hit ra b k p = true
         ∧ ds_syscall_num st' = syscall_num p
         ∧ ds_reloc_addr st' = relocation_address p.
Proof.
  revert st. induction os as [|o os IH]; intros st Hs; simpl in Hs.
  - discriminate.
  - destruct (scan_items ra b k (items o) st) as [[] st1] eqn:Hi.
    + inversion Hs; subst; clear Hs.
      destruct (scan_items_true _ _ _ _ _ _ Hi) as (p & Hp & Hrest).
      exists o, p. split; [apply list_elem_of_here|done].
    + destruct (IH _ Hs) as (o' & p & Ho & Hrest).
      exists o', p. split; [by apply list_elem_of_further|done].
Qed.

Lemma scan_objs_false ra b k os st st' :
  scan_objs ra b k os st = (false, st') →
  ∀ o p, o ∈ os → p ∈ items o → hit ra b k p = false.
Proof.
  revert st. induction os as [|o os IH]; intros st Hs o' p Ho Hp; simpl in Hs.
  - by apply elem_of_nil in Ho.
  - destruct (scan_items ra b k (items o) st) as [[] st1] eqn:Hi; [discriminate|].
    apply elem_of_cons in Ho as [->|Ho].
    + by eapply scan_items_false.
    + by eapply IH.
Qed.

(** The outer loop stops either at a hit, or past its last index with no hit
    at any index it went through. *)
Lemma scan_slots_spec objs ra b n k st k' st' :
  scan_slots objs ra b n k st = (k', st') →
  (k ≤ k' ≤ k + n)%nat
  ∧ (∀ j o p, (k ≤ j < k')%nat → o ∈ objs → p ∈ items o → hit ra b j p = false)
  ∧ ((k' < k + n)%nat →
     ∃ o p, o ∈ objs ∧ p ∈ items o ∧ hit ra b k' p = true
            ∧ ds_syscall_num st' = syscall_num p
            ∧ ds_reloc_addr st' = relocation_address p).
Proof.
  revert k st. induction n as [|n IH]; intros k st Hs; simpl in Hs.
  - inversion Hs; subst. split; [lia|]. split; intros; lia.
  - destruct (scan_objs ra b k objs st) as [[] st1] eqn:Ho.
    + inversion Hs; subst; clear Hs. split; [lia|].
      split; [intros; lia|]. intros _. by eapply scan_objs_true.
    + destruct (IH _ _ Hs) as (Hle & Hno & Hfound).
      split; [lia|]. split.
      * intros j o p Hj Hin Hp.
        destruct (decide (j = k)) as [->|Hne].
        -- exact (scan_objs_false _ _ _ _ _ _ Ho o p Hin Hp).
        -- apply (Hno j o p); [lia|done|done].
      * intros Hlt. apply Hfound. lia.
Qed.

Lemma hit_consistent objs MID_ret SML_ret GW_ret b k o p :
  o ∈ objs → p ∈ items o →
  hit [MID_ret; SML_ret; GW_ret] b k p = true →
  consistent_match objs [MID_ret; SML_ret; GW_ret] p k.
Proof.
  intros Ho Hp Hh. unfold hit in Hh.
  apply andb_true_iff in Hh as [Hr Hs].
  pose proof (slot_matches_lt _ _ Hs) as Hk.
  apply slot_matches_spec in Hs. apply Z.eqb_eq in Hr.
  split; [by exists o|]. split; [|done].
  rewrite Hr. unfold ret_addrs_get.
  destruct k as [|[|[|k]]]; simpl; try done. lia.
Qed.

Lemma consistent_hit objs cands b k p :
  consistent_match objs cands p k → hit cands b k p = true.
Proof.
  intros (_ & Hc & Hk). unfold hit, ret_addrs_get. rewrite Hc. simpl.
  rewrite Z.eqb_refl. simpl. by apply slot_matches_spec.
Qed.

Lemma detect_cur_patch_cases objs MID_ret SML_ret GW_ret b :
  (∃ p k, consistent_match objs [MID_ret; SML_ret; GW_ret] p k
          ∧ detect_cur_patch objs MID_ret SML_ret GW_ret b
            = Returned {| a0 := syscall_num p; a1 := relocation_address p |})
  ∨ ((∀ p k, ¬ consistent_match objs [MID_ret; SML_ret; GW_ret] p k)
     ∧ detect_cur_patch objs MID_ret SML_ret GW_ret b
       = Aborted "Failed to identify patch").
Proof.
  unfold detect_cur_patch, detect_cur_patch_run.
  destruct (scan_slots _ _ _ _ _ _) as [k' st'] eqn:Hs.
  apply scan_slots_spec in Hs as (Hle & Hno & Hfound).
  destruct (sizeof_ret_addrs <=? k')%nat eqn:Hk.
  - right. split; [|done].
    apply Nat.leb_le in Hk. intros p k Hc.
    pose proof (consistent_hit _ _ b _ _ Hc) as Hh.
    destruct Hc as ((o & Ho & Hp) & Hc & Hslot).
    assert (k < 3)%nat as Hk3.
    { rewrite Hslot. destruct (patch_type_of _); simpl; lia. }
    rewrite (Hno k o p) in Hh; [done| |done|done].
    unfold sizeof_ret_addrs in Hk. lia.
  - left. apply Nat.leb_gt in Hk.
    destruct Hfound as (o & p & Ho & Hp & Hh & Hn & Hr); [simpl; lia|].
    exists p, k'. split; [by eapply hit_consistent|].
    by rewrite Hn, Hr.
Qed.

Lemma scan_items_app ra b k l1 l2 st :
  scan_items ra b k (l1 ++ l2) st
  = match scan_items ra b k l1 st with
    | (true, st') => (true, st')
    | (false, st') => scan_items ra b k l2 st'
    end.
Proof.
  revert st. induction l1 as [|p l1 IH]; intros st; simpl; [done|].
  destruct (_ && _); [done|]. apply IH.
Qed.

Lemma scan_objs_flat ra b k os st :
  scan_objs ra b k os st = scan_items ra b k (all_patches os) st.
Proof.
  unfold all_patches. revert st. induction os as [|o os IH]; intros st; simpl; [done|].
  rewrite scan_items_app.
  destruct (scan_items ra b k (items o) st) as [[] st1]; [done|]. apply IH.
Qed.

Lemma elem_of_all_patches objs p :
  p ∈ all_patches objs ↔ ∃ o, o ∈ objs ∧ p ∈ items o.
Proof.
  unfold all_patches. induction objs as [|o objs IH]; simpl.
  - split; [intros Hp; by apply elem_of_nil in Hp|].
    intros (o & Ho & _). by apply elem_of_nil in Ho.
  - rewrite elem_of_app, IH. split.
    + intros [Hp|(o' & Ho' & Hp)].
      * exists o. split; [apply list_elem_of_here|done].
      * exists o'. split; [by apply list_elem_of_further|done].
    + intros (o' & Ho' & Hp). apply elem_of_cons in Ho' as [->|Ho'].
      * by left.
      * right. by exists o'.
Qed.

(** The inner loops stop at the first patch of the table that passes the
    test. *)
Lemma scan_items_first ra b k ps st st' :
  scan_items ra b k ps st = (true, st') →
  ∃ pre p post,
    ps = pre ++ p :: post ∧ hit ra b k p = true
    ∧ (∀ q, q ∈ pre → hit ra b k q = false)
    ∧ ds_syscall_num st' = syscall_num p
    ∧ ds_reloc_addr st' = relocation_address p.
Proof.
  revert st. induction ps as [|p ps IH]; intros st Hs; simpl in Hs; [done|].
  destruct (_ && _) eqn:Hh.
  - injection Hs as <-. exists [], p, ps. split_and!; [done|exact Hh| |done|done].
    intros q Hq. by apply elem_of_nil in Hq.
  - destruct (IH _ Hs) as (pre & q & post & -> & Hq & Hpre & Hn & Hr).
    exists (p :: pre), q, post. split_and!; [done|done| |done|done].
    intros x Hx. apply elem_of_cons in Hx as [->|Hx]; [exact Hh|by apply Hpre].
Qed.

Lemma scan_slots_first objs ra b n k st k' st' :
  scan_slots objs ra b n k st = (k', st') →
  (k' < k + n)%nat →
  ∃ pre p post,
    all_patches objs = pre ++ p :: post ∧ hit ra b k' p = true
    ∧ (∀ q, q ∈ pre → hit ra b k' q = false)
    ∧ ds_syscall_num st' = syscall_num p
    ∧ ds_reloc_addr st' = relocation_address p.
Proof.
  revert k st. induction n as [|n IH]; intros k st Hs Hlt; simpl in Hs.
  - injection Hs as <- <-. lia.
  - destruct (scan_objs ra b k objs st) as [[] st1] eqn:Ho.
    + injection Hs as <- <-. rewrite scan_objs_flat in Ho.
      by apply scan_items_first in Ho.
    + apply (IH _ _ Hs). lia.
Qed.

(** Two first hits of a list are the same element. *)
Lemma first_hit_unique {A} (f : A → bool) pre p post pre' p' post' :
  pre ++ p :: post = pre' ++ p' :: post' →
  f p = true → (∀ q, q ∈ pre → f q = false) →
  f p' = true → (∀ q, q ∈ pre' → f q = false) →
  p = p'.
Proof.
  revert pre'. induction pre as [|x pre IH]; intros [|x' pre'] Heq Hp Hpre Hp' Hpre';
    simpl in Heq.
  - by injection Heq.
  - injection Heq as -> _.
    rewrite (Hpre' x' (list_elem_of_here _ _)) in Hp. done.
  - injection Heq as -> _.
    rewrite (Hpre p' (list_elem_of_here _ _)) in Hp'. done.
  - injection Heq as -> Heq. apply (IH pre' Heq Hp); [|done|].
    + intros q Hq. apply Hpre. by apply list_elem_of_further.
    + intros q Hq. apply Hpre'. by apply list_elem_of_further.
Qed.

Lemma not_consistent_hit objs MID_ret SML_ret GW_ret b k q :
  q ∈ all_patches objs →
  hit [MID_ret; SML_ret; GW_ret] b k q = false ↔
  ¬ consistent_match objs [MID_ret; SML_ret; GW_ret] q k.
Proof.
  intros (o & Ho & Hq)%elem_of_all_patches. split.
  - intros Hh Hc. by rewrite (consistent_hit _ _ b _ _ Hc) in Hh.
  - intros Hn. destruct (hit _ b k q) eqn:Hh; [|done].
    destruct Hn. by eapply hit_consistent.
Qed.

Lemma first_consistent_match_unique objs MID_ret SML_ret GW_ret p k p' k' :
  first_consistent_match objs [MID_ret; SML_ret; GW_ret] p k →
  first_consistent_match objs [MID_ret; SML_ret; GW_ret] p' k' →
  p = p' ∧ k = k'.
Proof.
  intros (Hc & Hlow & pre & post & Hall & Hpre)
         (Hc' & Hlow' & pre' & post' & Hall' & Hpre').
  assert (k = k') as <-.
  { destruct (Nat.lt_trichotomy k k') as [Hlt|[?|Hlt]]; [|done|].
    - by destruct (Hlow' p k Hlt).
    - by destruct (Hlow p' k' Hlt). }
  split; [|done].
  apply (first_hit_unique (hit [MID_ret; SML_ret; GW_ret] (λ _, 0) k)
           pre p post pre' p' post'); [congruence|..].
  - by apply consistent_hit with objs.
  - intros q Hq. apply (not_consistent_hit objs); [|by apply Hpre].
    rewrite Hall. apply elem_of_app. by left.
  - by apply consistent_hit with objs.
  - intros q Hq. apply (not_consistent_hit objs); [|by apply Hpre'].
    rewrite Hall'. apply elem_of_app. by left.
Qed.

Lemma detect_cur_patch_cases_first objs MID_ret SML_ret GW_ret b :
  (∃ p k, first_consistent_match objs [MID_ret; SML_ret; GW_ret] p k
          ∧ detect_cur_patch objs MID_ret SML_ret GW_ret b
            = Returned {| a0 := syscall_num p; a1 := relocation_address p |})
  ∨ ((∀ p k, ¬ consistent_match objs [MID_ret; SML_ret; GW_ret] p k)
     ∧ detect_cur_patch objs MID_ret SML_ret GW_ret b
       = Aborted "Failed to identify patch").
Proof.
  unfold detect_cur_patch, detect_cur_patch_run.
  destruct (scan_slots _ _ _ _ _ _) as [k' st'] eqn:Hs.
  pose proof (scan_slots_spec _ _ _ _ _ _ _ _ Hs) as (Hle & Hno & _).
  destruct (sizeof_ret_addrs <=? k')%nat eqn:Hk.
  - right. split; [|done].
    apply Nat.leb_le in Hk. intros p k Hc.
    pose proof (consistent_hit _ _ b _ _ Hc) as Hh.
    destruct Hc as ((o & Ho & Hp) & Hc & Hslot).
    assert (k < 3)%nat as Hk3.
    { rewrite Hslot. destruct (patch_type_of _); simpl; lia. }
    rewrite (Hno k o p) in Hh; [done| |done|done].
    unfold sizeof_ret_addrs in Hk. lia.
  - left. apply Nat.leb_gt in Hk.
    destruct (scan_slots_first _ _ _ _ _ _ _ _ Hs)
      as (pre & p & post & Hall & Hh & Hpre & Hn & Hr); [simpl; lia|].
    assert (p ∈ all_patches objs) as Hin.
    { rewrite Hall. apply elem_of_app. right. apply list_elem_of_here. }
    apply elem_of_all_patches in Hin as (o & Ho & Hp).
    exists p, k'. split; [|by rewrite Hn, Hr].
    split; [by eapply hit_consistent|]. split.
    + intros q j Hj Hc.
      pose proof (consistent_hit _ _ b _ _ Hc) as Hq.
      destruct Hc as ((o' & Ho' & Hq') & _).
      rewrite (Hno j o' q) in Hq; [done|lia|done|done].
    + exists pre, post. split; [done|]. intros q Hq.
      apply (not_consistent_hit objs _ _ _ b); [|by apply Hpre].
      rewrite Hall. apply elem_of_app. by left.
Qed.

(** C1, amended.  [detect_cur_patch] with the three candidates (MID, SML,
    GW).  A patch matches consistently when its [return_address] is the
    candidate at the index of its shape: 0 for [TYPE_MID], 2 for [TYPE_GW],
    1 for a small patch, which is any other [syscall_num].  When some patch
    matches consistently there is a first one, in the order of the
    candidates and for one candidate in the order of the table, and the call
    returns the [syscall_num] field of that first patch in [a0] and its
    [relocation_address] in [a1]; when no patch matches consistently the
    process aborts.  This holds whatever lies after the candidate array. *)
Theorem detect_cur_patch_first_match objs MID_ret SML_ret GW_ret beyond :
  (∀ p k, first_consistent_match objs [MID_ret; SML_ret; GW_ret] p k →
          detect_cur_patch objs MID_ret SML_ret GW_ret beyond
          = Returned {| a0 := syscall_num p; a1 := relocation_address p |})
  ∧ ((∃ p k, consistent_match objs [MID_ret; SML_ret; GW_ret] p k) →
     ∃ p k, first_consistent_match objs [MID_ret; SML_ret; GW_ret] p k)
  ∧ ((¬ ∃ p k, consistent_match objs [MID_ret; SML_ret; GW_ret] p k) →
     detect_cur_patch objs MID_ret SML_ret GW_ret beyond
     = Aborted "Failed to identify patch").
Proof.
  destruct (detect_cur_patch_cases_first objs MID_ret SML_ret GW_ret beyond)
    as [(p & k & Hfirst & Hr)|[Hno Hr]].
  - split_and!.
    + intros q j Hq.
      by destruct (first_consistent_match_unique _ _ _ _ _ _ _ _ Hq Hfirst) as [-> _].
    + intros _. by exists p, k.
    + intros Hnone. exfalso. apply Hnone. exists p, k. apply Hfirst.
  - split_and!.
    + intros q j (Hc & _). by destruct (Hno q j).
    + intros (q & j & Hc). by destruct (Hno q j).
    + done.
Qed.

(** With a single consistently matching patch, that patch is the one
    returned. *)
Lemma detect_cur_patch_unique objs MID_ret SML_ret GW_ret beyond p k :
  consistent_match objs [MID_ret; SML_ret; GW_ret] p k →
  (∀ q j, consistent_match objs [MID_ret; SML_ret; GW_ret] q j → q = p) →
  detect_cur_patch objs MID_ret SML_ret GW_ret beyond
  = Returned {| a0 := syscall_num p; a1 := relocation_address p |}.
Proof.
  intros Hc Huniq.
  destruct (detect_cur_patch_cases objs MID_ret SML_ret GW_ret beyond)
    as [(q & j & Hq & Hr)|[Hno Hr]].
  - by rewrite <- (Huniq q j Hq).
  - by destruct (Hno p k).
Qed.

(** Every index the outer loop goes through is read whenever some object has
    a patch. *)
Lemma scan_items_reads ra b k ps st :
  (∀ j, j ∈ ds_reads st → j ∈ ds_reads (scan_items ra b k ps st).2)
  ∧ (ps ≠ [] → k ∈ ds_reads (scan_items ra b k ps st).2).
Proof.
  revert st. induction ps as [|p ps IH]; intros st; simpl.
  - split; [done|]. by intros [].
  - destruct (_ && _); simpl.
    + split; [intros j Hj; by apply list_elem_of_further|].
      intros _. apply list_elem_of_here.
    + destruct (IH {| ds_syscall_num := syscall_num p;
                      ds_reloc_addr := relocation_address p;
                      ds_reads := k :: ds_reads st |}) as [Hmono _].
      split.
      * intros j Hj. apply Hmono. simpl. by apply list_elem_of_further.
      * intros _. apply Hmono. simpl. apply list_elem_of_here.
Qed.

Lemma scan_objs_reads ra b k os st :
  (∀ j, j ∈ ds_reads st → j ∈ ds_reads (scan_objs ra b k os st).2)
  ∧ ((∃ o, o ∈ os ∧ items o ≠ []) → k ∈ ds_reads (scan_objs ra b k os st).2).
Proof.
  revert st. induction os as [|o os IH]; intros st; simpl.
  - split; [done|]. intros (o & Ho & _). by apply elem_of_nil in Ho.
  - destruct (scan_items_reads ra b k (items o) st) as [Hmono Hread].
    destruct (scan_items ra b k (items o) st) as [[] st1] eqn:Hi; simpl in *.
    + split; [done|]. intros _. apply Hread.
      intros Hnil. rewrite Hnil in Hi. simpl in Hi. discriminate.
    + destruct (IH st1) as [Hmono' Hread'].
      split; [intros j Hj; by apply Hmono', Hmono|].
      intros (o' & Ho' & Hne).
      apply elem_of_cons in Ho' as [->|Ho'].
      * apply Hmono', Hread, Hne.
      * apply Hread'. by exists o'.
Qed.

Lemma scan_slots_reads objs ra b n k st :
  (∃ o, o ∈ objs ∧ items o ≠ []) →
  (∀ j, j ∈ ds_reads st → j ∈ ds_reads (scan_slots objs ra b n k st).2)
  ∧ ((scan_slots objs ra b n k st).1 = (k + n)%nat →
     ∀ j, (k ≤ j < k + n)%nat → j ∈ ds_reads (scan_slots objs ra b n k st).2).
Proof.
  intros Hsome. revert k st. induction n as [|n IH]; intros k st; simpl.
  - split; [done|]. intros _ j Hj. lia.
  - destruct (scan_objs_reads ra b k objs st) as [Hmono Hread].
    destruct (scan_objs ra b k objs st) as [[] st1] eqn:Ho; simpl in *.
    + split; [done|]. intros Hk. lia.
    + destruct (IH (S k) st1) as [Hmono' Hread'].
      split; [intros j Hj; by apply Hmono', Hmono|].
      intros Hk j Hj.
      destruct (decide (j = k)) as [->|Hne].
      * apply Hmono', Hread, Hsome.
      * apply Hread'; lia.
Qed.

End DetectFacts.

(** C1, amended, on a MID patch that fires through its gateway: the
    gateway comes first in the table and both patches match consistently
    (the MID patch the first candidate, the gateway the third); the MID
    patch, which matches the candidate of lower index, is the one
    returned. *)
Lemma detect_cur_patch_first_match_witness :
  detect_cur_patch (H := sample_header)
    [mk_obj 0 0x10000 [mk_patch (-2) 0x1010 0x9000; mk_patch (-3) 0x3000 0x9040]]
    0x3000 0x11 0x1010 (λ _, 0)
  = Returned {| a0 := -3; a1 := 0x9040 |}.
Proof.
  destruct (detect_cur_patch_first_match (H := sample_header)
              [mk_obj 0 0x10000
                 [mk_patch (-2) 0x1010 0x9000; mk_patch (-3) 0x3000 0x9040]]
              0x3000 0x11 0x1010 (λ _, 0)) as (Hfirst & _ & _).
  apply (Hfirst (mk_patch (-3) 0x3000 0x9040) 0%nat).
  split; [|split].
  - split; [|done]. eexists. split; [apply list_elem_of_here|].
    simpl. apply list_elem_of_further, list_elem_of_here.
  - intros q j Hj. lia.
  - exists [mk_patch (-2) 0x1010 0x9000], []. split; [reflexivity|].
    intros q ->%list_elem_of_singleton (_ & Hc & _). discriminate Hc.
Defined.

(** C1 where it fails.  On the same table and candidates the gateway
    matches consistently (its return address is the third candidate), yet
    the call returns the fields of the MID patch, not the gateway's.  And
    [a0] is no class tag: two small patches, found through the second
    candidate, give their syscall numbers, 64 and 63. *)
Lemma consistent_match_not_returned :
  consistent_match (H := sample_header)
    [mk_obj 0 0x10000 [mk_patch (-2) 0x1010 0x9000; mk_patch (-3) 0x3000 0x9040]]
    [0x3000; 0x11; 0x1010] (mk_patch (-2) 0x1010 0x9000) 2
  ∧ detect_cur_patch (H := sample_header)
      [mk_obj 0 0x10000 [mk_patch (-2) 0x1010 0x9000; mk_patch (-3) 0x3000 0x9040]]
      0x3000 0x11 0x1010 (λ _, 0)
    ≠ Returned {| a0 := syscall_num (mk_patch (-2) 0x1010 0x9000);
                  a1 := relocation_address (mk_patch (-2) 0x1010 0x9000) |}
  ∧ detect_cur_patch (H := sample_header)
      [mk_obj 0 0x10000 [mk_patch 64 0x2004 0x9040; mk_patch 63 0x2104 0x9080]]
      0x7 0x2004 0x7 (λ _, 0)
    = Returned {| a0 := 64; a1 := 0x9040 |}
  ∧ detect_cur_patch (H := sample_header)
      [mk_obj 0 0x10000 [mk_patch 64 0x2004 0x9040; mk_patch 63 0x2104 0x9080]]
      0x7 0x2104 0x7 (λ _, 0)
    = Returned {| a0 := 63; a1 := 0x9080 |}.
Proof.
  split; [|split; [|split]].
  - split; [|done]. eexists. split; [apply list_elem_of_here|].
    simpl. apply list_elem_of_here.
  - vm_compute. discriminate.
  - vm_compute. reflexivity.
  - vm_compute. reflexivity.
Qed.

Section DetectBounds.
Context `{InterceptHeader}.

(** When the search fails and some object has a patch, [ret_addrs] is read
    at every index below [sizeof(ret_addrs)], the three elements and the
    twenty-one that follow. *)
Lemma detect_cur_patch_abort_reads objs MID_ret SML_ret GW_ret beyond msg :
  (∃ o, o ∈ objs ∧ items o ≠ []) →
  detect_cur_patch objs MID_ret SML_ret GW_ret beyond = Aborted msg →
  ∀ j, (j < sizeof_ret_addrs)%nat →
       j ∈ detect_cur_patch_reads objs MID_ret SML_ret GW_ret beyond.
Proof.
  intros Hsome Hab j Hj.
  unfold detect_cur_patch_reads, detect_cur_patch, detect_cur_patch_run in *.
  set (st0 := {| ds_syscall_num := INT64_MIN; ds_reloc_addr := 0; ds_reads := [] |}) in *.
  destruct (scan_slots_reads objs [MID_ret; SML_ret; GW_ret] beyond
              sizeof_ret_addrs 0 st0 Hsome) as [_ Hall].
  destruct (scan_slots _ _ _ _ _ _) as [k' st'] eqn:Hs.
  cbn [fst snd] in Hall |- *.
  destruct (sizeof_ret_addrs <=? k')%nat eqn:Hk; [|discriminate].
  apply Nat.leb_le in Hk.
  apply scan_slots_spec in Hs as (Hle & _).
  apply elem_of_reverse, Hall; lia.
Qed.

End DetectBounds.

(** C9, evaluated.  One gateway patch, and three candidates none of which is
    its return address: the call reads [ret_addrs] at the indices 0 to 23
    (the array has three elements) before it aborts. *)
Theorem detect_cur_patch_reads_past_array :
  detect_cur_patch (H := sample_header)
    [mk_obj 0 0x10000 [mk_patch (-2) 0x1010 0x9000]] 1 2 3 (λ _, 0)
  = Aborted "Failed to identify patch"
  ∧ detect_cur_patch_reads (H := sample_header)
      [mk_obj 0 0x10000 [mk_patch (-2) 0x1010 0x9000]] 1 2 3 (λ _, 0)
    = seq 0 24
  ∧ (3%nat ∈ detect_cur_patch_reads (H := sample_header)
           [mk_obj 0 0x10000 [mk_patch (-2) 0x1010 0x9000]] 1 2 3 (λ _, 0)).
Proof.
  split; [reflexivity|]. split; [reflexivity|].
  apply (detect_cur_patch_abort_reads (H := sample_header) _ 1 2 3 (λ _, 0)
           "Failed to identify patch").
  - eexists. split; [apply list_elem_of_here|done].
  - reflexivity.
  - unfold sizeof_ret_addrs. lia.
Qed.

(** ** get_cur_patch *)

Section GetCurPatchFacts.

(** Within one object with at least one patch, the pointer ends on the first
    patch with the key, or on the last patch when none has it. *)
Lemma get_cur_patch_items_some key o p ps patch :
  ps ≠ [] →
  ∃ i, get_cur_patch_items key o p ps patch = Some (o, (p + i)%nat)
       ∧ (i < List.length ps)%nat
       ∧ (∀ j x, (j < i)%nat → ps !! j = Some x → to_int64 (return_address x) ≠ key)
       ∧ ((∃ x, ps !! i = Some x ∧ to_int64 (return_address x) = key)
          ∨ (S i = List.length ps
             ∧ ∀ x, x ∈ ps → to_int64 (return_address x) ≠ key)).
Proof.
  revert p patch. induction ps as [|x ps IH]; intros p patch Hne; [done|].
  simpl. destruct (to_int64 (return_address x) =? key) eqn:Hx.
  - apply Z.eqb_eq in Hx. exists 0%nat. rewrite Nat.add_0_r.
    split; [done|]. split; [simpl; lia|]. split; [intros; lia|].
    left. by exists x.
  - apply Z.eqb_neq in Hx. destruct ps as [|y ps'].
    + exists 0%nat. rewrite Nat.add_0_r. simpl.
      split; [done|]. split; [lia|]. split; [intros; lia|].
      right. split; [done|]. intros z Hz.
      apply list_elem_of_singleton in Hz. by subst.
    + destruct (IH (S p) (Some (o, p))) as (i & Hr & Hlt & Hbefore & Hcase); [done|].
      exists (S i). rewrite Hr. split; [f_equal; f_equal; lia|].
      split; [simpl in *; lia|]. split.
      * intros [|j] z Hj Hz; simpl in Hz; [by inversion Hz; subst|].
        apply (Hbefore j z); [lia|done].
      * destruct Hcase as [(z & Hz & Hk)|[Hlast Hnone]].
        -- left. by exists z.
        -- right. split; [simpl in *; lia|].
           intros z Hz. apply elem_of_cons in Hz as [->|Hz]; [done|by apply Hnone].
Qed.

Lemma get_cur_patch_items_nil key o p patch :
  get_cur_patch_items key o p [] patch = patch.
Proof. done. Qed.

(** The objects before the last one with a patch do not count: the result is
    the one of the inner loop on that object alone. *)
Lemma get_cur_patch_objs_app key o os d patch :
  get_cur_patch_objs key o (os ++ [d]) patch
  = get_cur_patch_items key (o + List.length os) 0 (items d)
      (get_cur_patch_objs key o os patch).
Proof.
  revert o patch. induction os as [|x os IH]; intros o patch; simpl.
  - by rewrite Nat.add_0_r.
  - rewrite IH. by replace (S o + List.length os)%nat
      with (o + S (List.length os))%nat by lia.
Qed.

Lemma get_cur_patch_last_object objs d key :
  items d ≠ [] →
  get_cur_patch (objs ++ [d]) key
  = get_cur_patch_items key (List.length objs) 0 (items d) None.
Proof.
  intros Hne. unfold get_cur_patch. rewrite get_cur_patch_objs_app. simpl.
  destruct (get_cur_patch_items_some key (List.length objs) 0 (items d)
              (get_cur_patch_objs key 0 objs None) Hne) as (i & -> & _ & Hb & Hc).
  destruct (get_cur_patch_items_some key (List.length objs) 0 (items d) None Hne)
    as (i' & -> & Hlt' & Hb' & Hc').
  do 2 f_equal.
  destruct Hc as [(x & Hx & Hk)|[Hl Hn]], Hc' as [(x' & Hx' & Hk')|[Hl' Hn']].
  - destruct (Nat.lt_trichotomy i i') as [Hlt|[->|Hgt]]; [|done|].
    + by destruct (Hb' i x Hlt Hx).
    + by destruct (Hb i' x' Hgt Hx').
  - destruct (Hn' x); [by eapply list_elem_of_lookup_2|done].
  - destruct (Hn x'); [by eapply list_elem_of_lookup_2|done].
  - lia.
Qed.

End GetCurPatchFacts.

(** C7, evaluated.  Two objects with one patch each, and the return address
    of the first object's patch as key: the only patch with that return
    address is the patch [(0, 0)], and [get_cur_patch] returns the second
    object's patch [(1, 0)], whose return address is another one. *)
Theorem get_cur_patch_returns_other_patch :
  let objs := [mk_obj 0 0x10000 [mk_patch (-2) 0x1010 0x9000];
               mk_obj 0x20000 0x30000 [mk_patch (-2) 0x21010 0x9040]] in
  get_cur_patch objs 0x1010 = Some (1, 0)%nat
  ∧ (return_address <$> deref objs (1, 0)%nat) = Some 0x21010
  ∧ (return_address <$> deref objs (0, 0)%nat) = Some 0x1010.
Proof. done. Qed.

(** ** intercept_routine *)

Section RoutineFacts.

Lemma post_clone_events hk v :
  (Ev_clone_child ∈ intercept_routine_post_clone hk v
   ↔ v = 0 ∧ intercept_hook_point_clone_child hk = true)
  ∧ (∀ w, Ev_clone_parent w ∈ intercept_routine_post_clone hk v
          ↔ v ≠ 0 ∧ w = v ∧ intercept_hook_point_clone_parent hk = true).
Proof.
  unfold intercept_routine_post_clone.
  destruct (v =? 0) eqn:Hv; [apply Z.eqb_eq in Hv|apply Z.eqb_neq in Hv].
  - destruct (intercept_hook_point_clone_child hk); split.
    + split; [done|]. intros _. apply list_elem_of_here.
    + intros w. split; [intros Hin|intros [? _]; done].
      apply list_elem_of_singleton in Hin. discriminate.
    + split; [intros Hin; by apply elem_of_nil in Hin|intros [_ ?]; done].
    + intros w. split; [intros Hin; by apply elem_of_nil in Hin|intros [? _]; done].
  - destruct (intercept_hook_point_clone_parent hk); split.
    + split; [intros Hin|intros [? _]; done].
      apply list_elem_of_singleton in Hin. discriminate.
    + intros w. split.
      * intros Hin. apply list_elem_of_singleton in Hin. by inversion Hin.
      * intros (_ & -> & _). apply list_elem_of_here.
    + split; [intros Hin; by apply elem_of_nil in Hin|intros [? _]; done].
    + intros w. split; [intros Hin; by apply elem_of_nil in Hin|].
      intros (_ & _ & ?). done.
Qed.

(** C2, amended.  For a syscall other than [rt_sigreturn] that the magic
    handler declines: if the installed hook sets the result to [R] and
    returns 0, [intercept_routine] returns [R] in [a0] (and leaves [a1] as
    it came), and the only things it does are the two log entries and the
    hook call: the kernel is not called. *)
Theorem hook_result_substituted objs env hk hook a0 a1 a2 a3 a4 a5 a6 a7
    magic r0 R :
  handle_magic_syscalls env (desc_of a0 a1 a2 a3 a4 a5 a7) a0 = (magic, r0) →
  magic ≠ 0 →
  intercept_hook_point hk = Some hook →
  hook (to_int32 a7) [a0; a1; a2; a3; a4; a5] r0 = (0, R) →
  to_int32 a7 ≠ SYS_rt_sigreturn →
  intercept_routine objs env hk a0 a1 a2 a3 a4 a5 a6 a7
  = ({| a0 := R; a1 := a1 |},
     [Ev_log (get_cur_patch objs a6) (desc_of a0 a1 a2 a3 a4 a5 a7) UNKNOWN 0;
      Ev_hook (desc_of a0 a1 a2 a3 a4 a5 a7);
      Ev_log (get_cur_patch objs a6) (desc_of a0 a1 a2 a3 a4 a5 a7) KNOWN R])
  ∧ Forall (λ e, is_kernel_call e = false)
      (intercept_routine objs env hk a0 a1 a2 a3 a4 a5 a6 a7).2.
Proof.
  intros Hmagic Hm Hhook Hret Hnr.
  assert (intercept_routine objs env hk a0 a1 a2 a3 a4 a5 a6 a7
          = ({| a0 := R; a1 := a1 |},
             [Ev_log (get_cur_patch objs a6) (desc_of a0 a1 a2 a3 a4 a5 a7) UNKNOWN 0;
              Ev_hook (desc_of a0 a1 a2 a3 a4 a5 a7);
              Ev_log (get_cur_patch objs a6) (desc_of a0 a1 a2 a3 a4 a5 a7) KNOWN R]))
    as Heq.
  { unfold intercept_routine. fold (desc_of a0 a1 a2 a3 a4 a5 a7).
    rewrite Hmagic. apply Z.eqb_neq in Hm. rewrite Hm.
    rewrite Hhook. cbn [nr args desc_of]. rewrite Hret.
    apply Z.eqb_neq in Hnr. rewrite Hnr. done. }
  split; [exact Heq|]. rewrite Heq. cbn [snd].
  repeat constructor.
Qed.

(** C3, amended.  A [clone] whose child-stack argument is non-zero or whose
    flags include [CLONE_VFORK], or a [clone3] whose argument struct has a
    non-zero [stack], that the magic handler declines and that is forwarded
    (no hook, or the hook returns non-zero): [intercept_routine] returns the
    pair (UNH_SYSCALL, UNH_CLONE) = (-0x1000, -0x1002) and does not call the
    kernel. *)
Theorem clone_with_stack_deferred objs env hk a0 a1 a2 a3 a4 a5 a6 a7
    magic r0 :
  handle_magic_syscalls env (desc_of a0 a1 a2 a3 a4 a5 a7) a0 = (magic, r0) →
  magic ≠ 0 →
  forwards hk (desc_of a0 a1 a2 a3 a4 a5 a7) r0 →
  (to_int32 a7 = SYS_clone ∧ (a1 ≠ 0 ∨ Z.land a0 CLONE_VFORK ≠ 0))
  ∨ (to_int32 a7 = SYS_clone3 ∧ clone_args_stack env a0 ≠ 0) →
  (intercept_routine objs env hk a0 a1 a2 a3 a4 a5 a6 a7).1
  = {| a0 := -0x1000; a1 := -0x1002 |}
  ∧ Forall (λ e, is_kernel_call e = false)
      (intercept_routine objs env hk a0 a1 a2 a3 a4 a5 a6 a7).2.
Proof.
  intros Hmagic Hm Hfwd Hcase.
  unfold intercept_routine. fold (desc_of a0 a1 a2 a3 a4 a5 a7).
  rewrite Hmagic. apply Z.eqb_neq in Hm. rewrite Hm.
  unfold forwards in Hfwd.
  assert ((to_int32 a7 =? SYS_rt_sigreturn) = false) as Hsig.
  { apply Z.eqb_neq. destruct Hcase as [[-> _]|[-> _]]; done. }
  assert ((nr (desc_of a0 a1 a2 a3 a4 a5 a7) =? SYS_clone)
          && (negb (arg (desc_of a0 a1 a2 a3 a4 a5 a7) 1 =? 0)
              || negb (Z.land (arg (desc_of a0 a1 a2 a3 a4 a5 a7) 0) CLONE_VFORK =? 0))
          = true
          ∨ ((nr (desc_of a0 a1 a2 a3 a4 a5 a7) =? SYS_clone)
             && (negb (arg (desc_of a0 a1 a2 a3 a4 a5 a7) 1 =? 0)
                 || negb (Z.land (arg (desc_of a0 a1 a2 a3 a4 a5 a7) 0) CLONE_VFORK =? 0))
             = false
             ∧ (nr (desc_of a0 a1 a2 a3 a4 a5 a7) =? SYS_clone3)
               && negb (clone_args_stack env (arg (desc_of a0 a1 a2 a3 a4 a5 a7) 0) =? 0)
               = true)) as Hbranch.
  { cbn [nr args arg desc_of]. simpl.
    destruct Hcase as [[-> Hc]|[-> Hc]].
    - left. simpl. apply orb_true_iff.
      destruct Hc as [Hc|Hc]; [left|right];
        apply negb_true_iff, Z.eqb_neq; done.
    - right. split; [done|]. simpl. apply negb_true_iff, Z.eqb_neq. done. }
  destruct (intercept_hook_point hk) as [hook|].
  - destruct (hook _ _ _) as [ret r] eqn:Hh. simpl in Hfwd.
    cbn [nr desc_of] in *. rewrite Hsig.
    apply Z.eqb_neq in Hfwd. rewrite Hfwd. cbn [negb].
    destruct Hbranch as [->|[-> ->]]; (split; [done|repeat constructor]).
  - cbn [nr desc_of] in *. rewrite Hsig. cbn [negb Z.eqb].
    destruct Hbranch as [->|[-> ->]]; (split; [done|repeat constructor]).
Qed.

End RoutineFacts.

Section PostCloneFacts.

(** A same-stack [clone] or [clone3] that is forwarded goes to the kernel,
    and the post-clone routine runs on what the kernel returns. *)
Lemma forwarded_clone_events objs env hk a0 a1 a2 a3 a4 a5 a6 a7 magic r0 :
  handle_magic_syscalls env (desc_of a0 a1 a2 a3 a4 a5 a7) a0 = (magic, r0) →
  magic ≠ 0 →
  forwards hk (desc_of a0 a1 a2 a3 a4 a5 a7) r0 →
  (to_int32 a7 = SYS_clone ∧ a1 = 0 ∧ Z.land a0 CLONE_VFORK = 0)
  ∨ (to_int32 a7 = SYS_clone3 ∧ clone_args_stack env a0 = 0) →
  intercept_routine objs env hk a0 a1 a2 a3 a4 a5 a6 a7
  = (syscall_no_intercept env (desc_of a0 a1 a2 a3 a4 a5 a7),
     [Ev_log (get_cur_patch objs a6) (desc_of a0 a1 a2 a3 a4 a5 a7) UNKNOWN 0]
     ++ (match intercept_hook_point hk with
         | Some _ => [Ev_hook (desc_of a0 a1 a2 a3 a4 a5 a7)]
         | None => []
         end)
     ++ [Ev_kernel (desc_of a0 a1 a2 a3 a4 a5 a7)]
     ++ intercept_routine_post_clone hk
          (ret_a0 (syscall_no_intercept env (desc_of a0 a1 a2 a3 a4 a5 a7)))
     ++ [Ev_log (get_cur_patch objs a6) (desc_of a0 a1 a2 a3 a4 a5 a7) KNOWN
           (ret_a0 (syscall_no_intercept env (desc_of a0 a1 a2 a3 a4 a5 a7)))]).
Proof.
  intros Hmagic Hm Hfwd Hcase.
  unfold intercept_routine. fold (desc_of a0 a1 a2 a3 a4 a5 a7).
  rewrite Hmagic. apply Z.eqb_neq in Hm. rewrite Hm.
  unfold forwards in Hfwd.
  assert ((to_int32 a7 =? SYS_rt_sigreturn) = false) as Hsig.
  { apply Z.eqb_neq. destruct Hcase as [[-> _]|[-> _]]; done. }
  set (d := desc_of a0 a1 a2 a3 a4 a5 a7) in *.
  assert (nr d = to_int32 a7) as Hnr by done.
  assert (arg d 0 = a0 ∧ arg d 1 = a1) as [Harg0 Harg1] by done.
  rewrite Harg0, Harg1, Hnr. rewrite Hnr in Hfwd.
  assert (∀ ret r1 ev,
    (let '(forward_to_kernel, r, ev_hook) := (ret, r1, ev) in
     if to_int32 a7 =? SYS_rt_sigreturn
     then ({| a0 := UNH_SYSCALL; a1 := UNH_GENERIC |},
           [Ev_log (get_cur_patch objs a6) d UNKNOWN 0] ++ ev_hook)
     else if negb (forward_to_kernel =? 0)
     then
       if (to_int32 a7 =? SYS_clone)
          && (negb (a1 =? 0) || negb (Z.land a0 CLONE_VFORK =? 0))
       then ({| a0 := UNH_SYSCALL; a1 := UNH_CLONE |},
             [Ev_log (get_cur_patch objs a6) d UNKNOWN 0] ++ ev_hook)
       else if (to_int32 a7 =? SYS_clone3)
               && negb (clone_args_stack env a0 =? 0)
       then ({| a0 := UNH_SYSCALL; a1 := UNH_CLONE |},
             [Ev_log (get_cur_patch objs a6) d UNKNOWN 0] ++ ev_hook)
       else
         let result := syscall_no_intercept env d in
         let ev_post :=
           if to_int32 a7 =? SYS_clone
           then intercept_routine_post_clone hk (ret_a0 result)
           else if to_int32 a7 =? SYS_clone3
           then intercept_routine_post_clone hk (ret_a0 result)
           else [] in
         (result,
          [Ev_log (get_cur_patch objs a6) d UNKNOWN 0] ++ ev_hook
            ++ [Ev_kernel d] ++ ev_post
            ++ [Ev_log (get_cur_patch objs a6) d KNOWN (ret_a0 result)])
     else
       ({| a0 := r; a1 := a1 |},
        [Ev_log (get_cur_patch objs a6) d UNKNOWN 0] ++ ev_hook
          ++ [Ev_log (get_cur_patch objs a6) d KNOWN r]))
    = if ret =? 0
      then ({| a0 := r1; a1 := a1 |},
            [Ev_log (get_cur_patch objs a6) d UNKNOWN 0] ++ ev
              ++ [Ev_log (get_cur_patch objs a6) d KNOWN r1])
      else (syscall_no_intercept env d,
            [Ev_log (get_cur_patch objs a6) d UNKNOWN 0] ++ ev
              ++ [Ev_kernel d]
              ++ intercept_routine_post_clone hk (ret_a0 (syscall_no_intercept env d))
              ++ [Ev_log (get_cur_patch objs a6) d KNOWN
                    (ret_a0 (syscall_no_intercept env d))])) as Hbody.
  { intros ret r1 ev. cbv zeta. rewrite Hsig.
    destruct (ret =? 0); cbn [negb]; [done|].
    destruct Hcase as [(-> & -> & ->)|(-> & ->)]; done. }
  destruct (intercept_hook_point hk) as [hook|].
  - destruct (hook _ _ _) as [ret r] eqn:Hh. cbn [fst] in Hfwd.
    rewrite Hbody. apply Z.eqb_neq in Hfwd. by rewrite Hfwd.
  - by rewrite Hbody.
Qed.

(** C10.  On a same-stack [clone] or a [clone3] without a stack that is
    forwarded, the kernel is called and, with [v] the value it returns in
    [a0]: the child hook runs exactly when [v = 0] and the hook is
    installed; the parent hook runs, with [v], exactly when [v <> 0] and the
    hook is installed, be [v] positive (a TID) or negative (an error). *)
Theorem post_clone_hooks_by_result objs env hk a0 a1 a2 a3 a4 a5 a6 a7
    magic r0 :
  handle_magic_syscalls env (desc_of a0 a1 a2 a3 a4 a5 a7) a0 = (magic, r0) →
  magic ≠ 0 →
  forwards hk (desc_of a0 a1 a2 a3 a4 a5 a7) r0 →
  (to_int32 a7 = SYS_clone ∧ a1 = 0 ∧ Z.land a0 CLONE_VFORK = 0)
  ∨ (to_int32 a7 = SYS_clone3 ∧ clone_args_stack env a0 = 0) →
  ∀ v, v = ret_a0 (syscall_no_intercept env (desc_of a0 a1 a2 a3 a4 a5 a7)) →
  Ev_kernel (desc_of a0 a1 a2 a3 a4 a5 a7)
    ∈ (intercept_routine objs env hk a0 a1 a2 a3 a4 a5 a6 a7).2
  ∧ (Ev_clone_child ∈ (intercept_routine objs env hk a0 a1 a2 a3 a4 a5 a6 a7).2
     ↔ v = 0 ∧ intercept_hook_point_clone_child hk = true)
  ∧ (∀ w, Ev_clone_parent w
            ∈ (intercept_routine objs env hk a0 a1 a2 a3 a4 a5 a6 a7).2
          ↔ v ≠ 0 ∧ w = v ∧ intercept_hook_point_clone_parent hk = true).
Proof.
  intros Hmagic Hm Hfwd Hcase v ->.
  rewrite (forwarded_clone_events _ _ _ _ _ _ _ _ _ _ _ _ _ Hmagic Hm Hfwd Hcase).
  cbn [snd].
  set (d := desc_of a0 a1 a2 a3 a4 a5 a7).
  set (hookev := match intercept_hook_point hk with
                 | Some _ => [Ev_hook d] | None => [] end).
  assert (∀ e, e ∈ hookev → e = Ev_hook d) as Hhookev.
  { intros e. unfold hookev. destruct (intercept_hook_point hk).
    - by intros ->%list_elem_of_singleton.
    - by intros ?%elem_of_nil. }
  destruct (post_clone_events hk (ret_a0 (syscall_no_intercept env d)))
    as [Hchild Hparent].
  assert (∀ e, (∀ p k r, e ≠ Ev_log p d k r) → e ≠ Ev_hook d → e ≠ Ev_kernel d →
     (e ∈ [Ev_log (get_cur_patch objs a6) d UNKNOWN 0] ++ hookev ++ [Ev_kernel d]
          ++ intercept_routine_post_clone hk (ret_a0 (syscall_no_intercept env d))
          ++ [Ev_log (get_cur_patch objs a6) d KNOWN
                (ret_a0 (syscall_no_intercept env d))]
      ↔ e ∈ intercept_routine_post_clone hk (ret_a0 (syscall_no_intercept env d))))
    as Honly.
  { intros e Hlog Hh Hk. rewrite !elem_of_app, !list_elem_of_singleton.
    split; [|tauto].
    intros [He|[He|[He|[He|He]]]]; try done.
    - by destruct (Hlog _ _ _ He).
    - by apply Hhookev in He.
    - by destruct (Hlog _ _ _ He). }
  split; [|split].
  - rewrite !elem_of_app, !list_elem_of_singleton. tauto.
  - rewrite Honly; done.
  - intros w. rewrite Honly; done.
Qed.

End PostCloneFacts.

(** C2 where it fails: the hook sets the result to 42 and returns 0 on
    [rt_sigreturn] (139); the routine returns the pair
    (UNH_SYSCALL, UNH_GENERIC), not 42. *)
Lemma rt_sigreturn_result_not_substituted :
  (λ _ _ r, (0, 42)) 139 [0; 0; 0; 0; 0; 0] 0 = (0, 42)
  ∧ intercept_hook_point (const_hook 0 42) = Some (λ _ _ _, (0, 42))
  ∧ (intercept_routine [] (plain_env 7) (const_hook 0 42) 0 0 0 0 0 0 0 139).1
    = {| a0 := -0x1000; a1 := -0x1001 |}
  ∧ a0 (intercept_routine [] (plain_env 7) (const_hook 0 42) 0 0 0 0 0 0 0 139).1
    ≠ 42.
Proof. done. Qed.

(** C2, amended, on [getpid] (172) with a hook that answers 42. *)
Lemma hook_result_substituted_witness :
  intercept_routine [] (plain_env 7) (const_hook 0 42) 0 0 0 0 0 0 0 172
  = ({| a0 := 42; a1 := 0 |},
     [Ev_log None (desc_of 0 0 0 0 0 0 172) UNKNOWN 0;
      Ev_hook (desc_of 0 0 0 0 0 0 172);
      Ev_log None (desc_of 0 0 0 0 0 0 172) KNOWN 42])
  ∧ Forall (λ e, is_kernel_call e = false)
      (intercept_routine [] (plain_env 7) (const_hook 0 42) 0 0 0 0 0 0 0 172).2.
Proof.
  apply (hook_result_substituted [] (plain_env 7) (const_hook 0 42)
           (λ _ _ _, (0, 42)) 0 0 0 0 0 0 0 172 (-1) 0 42);
    [reflexivity | lia | reflexivity | reflexivity | vm_compute; lia].
Defined.

(** C3 where it fails: a [clone] (220) with a child stack, suppressed by a
    hook that returns 0 with result 42; the routine returns 42, not the
    sentinel pair. *)
Lemma suppressed_clone_not_deferred :
  (intercept_routine [] (plain_env 7) (const_hook 0 42)
     0 0x7000 0 0 0 0 0 220).1
  = {| a0 := 42; a1 := 0x7000 |}
  ∧ (intercept_routine [] (plain_env 7) (const_hook 0 42)
       0 0x7000 0 0 0 0 0 220).1
    ≠ {| a0 := -0x1000; a1 := -0x1002 |}.
Proof. done. Qed.

(** C3, amended, on a [clone] with a child stack and no hook installed. *)
Lemma clone_with_stack_deferred_witness :
  (intercept_routine [] (plain_env 7)
     {| intercept_hook_point := None;
        intercept_hook_point_clone_child := false;
        intercept_hook_point_clone_parent := false |}
     0 0x7000 0 0 0 0 0 220).1
  = {| a0 := -0x1000; a1 := -0x1002 |}
  ∧ Forall (λ e, is_kernel_call e = false)
      (intercept_routine [] (plain_env 7)
         {| intercept_hook_point := None;
            intercept_hook_point_clone_child := false;
            intercept_hook_point_clone_parent := false |}
         0 0x7000 0 0 0 0 0 220).2.
Proof.
  apply (clone_with_stack_deferred [] (plain_env 7) _ 0 0x7000 0 0 0 0 0 220 (-1) 0);
    [reflexivity | lia | exact I | left; split; [reflexivity | left; lia]].
Defined.

(** C10 on a [clone] without a stack (a fork) that the kernel refuses with
    -11: the parent hook runs with -11, the child hook does not. *)
Lemma post_clone_hooks_by_result_witness :
  Ev_kernel (desc_of 17 0 0 0 0 0 220)
    ∈ (intercept_routine [] (plain_env (-11)) (const_hook 1 0) 17 0 0 0 0 0 0 220).2
  ∧ (Ev_clone_child
       ∈ (intercept_routine [] (plain_env (-11)) (const_hook 1 0) 17 0 0 0 0 0 0 220).2
     ↔ -11 = 0 ∧ intercept_hook_point_clone_child (const_hook 1 0) = true)
  ∧ (∀ w, Ev_clone_parent w
            ∈ (intercept_routine [] (plain_env (-11)) (const_hook 1 0) 17 0 0 0 0 0 0 220).2
          ↔ -11 ≠ 0 ∧ w = -11
            ∧ intercept_hook_point_clone_parent (const_hook 1 0) = true).
Proof.
  apply (post_clone_hooks_by_result [] (plain_env (-11)) (const_hook 1 0)
           17 0 0 0 0 0 0 220 (-1) 17);
    [reflexivity | lia | unfold forwards; simpl; lia
    | left; split; [reflexivity | split; reflexivity] | reflexivity].
Defined.

(** ** INTERCEPT_DEBUG_DUMP and debug_dump *)

Section DebugDumpFacts.

Lemma debug_dump_writes g msg :
  debug_dump g msg
  = if debug_dumps_on g && negb (String.eqb msg EmptyString)
    then [Sys_write 2 msg (Z.of_nat (String.length msg))]
    else [].
Proof.
  unfold debug_dump. destruct (debug_dumps_on g); simpl; [|done].
  destruct msg as [|c msg]; simpl; [done|].
  destruct (Z.of_nat (S (String.length msg)) <=? 0) eqn:Hle; [|done].
  apply Z.leb_le in Hle. lia.
Qed.

(** C8, amended.  When hooking is allowed in the process, diagnostic output
    is enabled exactly when [INTERCEPT_DEBUG_DUMP] is present in the
    environment, with any value, the empty one included; when the variable is
    absent (or hooking is not allowed) [debug_dump] writes nothing; when
    output is enabled [debug_dump] writes every non-empty message to file
    descriptor 2. *)
Theorem debug_dump_enabled_iff_set (hook_allowed : bool)
    (environ : gmap string string) :
  (debug_dumps_on (intercept_flags hook_allowed environ globals_init) = true
   ↔ hook_allowed = true ∧ is_Some (environ !! "INTERCEPT_DEBUG_DUMP"))
  ∧ (∀ msg,
       debug_dump (intercept_flags hook_allowed environ globals_init) msg
       = if hook_allowed
            && bool_decide (is_Some (environ !! "INTERCEPT_DEBUG_DUMP"))
            && negb (String.eqb msg EmptyString)
         then [Sys_write 2 msg (Z.of_nat (String.length msg))]
         else []).
Proof.
  assert (debug_dumps_on (intercept_flags hook_allowed environ globals_init)
          = hook_allowed
            && bool_decide (is_Some (environ !! "INTERCEPT_DEBUG_DUMP"))) as Hon.
  { unfold intercept_flags, getenv. destruct hook_allowed; simpl; [|done].
    destruct (environ !! "INTERCEPT_DEBUG_DUMP") as [v|] eqn:Hv; simpl.
    - first [done | symmetry; apply bool_decide_eq_true; by exists v].
    - first [done | symmetry; apply bool_decide_eq_false; by intros [v ?]]. }
  split.
  - rewrite Hon, andb_true_iff, bool_decide_eq_true. done.
  - intros msg. by rewrite debug_dump_writes, Hon.
Qed.

End DebugDumpFacts.

(** C8 where it fails: [INTERCEPT_DEBUG_DUMP] set to the empty string
    enables the output, and [debug_dump] writes. *)
Lemma empty_debug_dump_value_enables :
  getenv {[ "INTERCEPT_DEBUG_DUMP" := EmptyString ]} "INTERCEPT_DEBUG_DUMP"
  = Some EmptyString
  ∧ debug_dumps_on
      (intercept_flags true {[ "INTERCEPT_DEBUG_DUMP" := EmptyString ]}
         globals_init) = true
  ∧ debug_dump
      (intercept_flags true {[ "INTERCEPT_DEBUG_DUMP" := EmptyString ]}
         globals_init) "analyze"
    = [Sys_write 2 "analyze" 7].
Proof. vm_compute. done. Qed.

(** ** The two-ecalls helper *)

Section TwoEcallsFacts.
Context `{InterceptHeader}.

Lemma to_uint8_add_l a b : to_uint8 (to_uint8 a + b) = to_uint8 (a + b).
Proof. unfold to_uint8. apply Zplus_mod_idemp_l. Qed.

Lemma span_bytes_first instrs i j :
  (i ≤ j)%nat →
  span_bytes instrs i j = length (instr_at instrs i) + span_bytes instrs (S i) j.
Proof.
  intros Hij. unfold span_bytes.
  replace (S j - i)%nat with (S (j - i)) by lia.
  replace (S j - S i)%nat with (j - i)%nat by lia.
  done.
Qed.

Lemma span_bytes_empty instrs i : span_bytes instrs (S i) i = 0.
Proof. unfold span_bytes. by rewrite Nat.sub_diag. Qed.

(** What a size-accumulating loop returns, for a loop entered at index [i]
    with [base] bytes counted so far. *)
Lemma first_fit_Some fits instrs n i base j :
  first_fit fits instrs n i (to_uint8 base) = Some j →
  (i ≤ j < i + n)%nat
  ∧ fits (to_uint8 (base + span_bytes instrs i j)) = true
  ∧ ∀ k, (i ≤ k < j)%nat → fits (to_uint8 (base + span_bytes instrs i k)) = false.
Proof.
  revert i base. induction n as [|n IH]; intros i base Hf; simpl in Hf; [done|].
  rewrite to_uint8_add_l in Hf.
  destruct (fits (to_uint8 (base + length (instr_at instrs i)))) eqn:Hfit.
  - inversion Hf; subst j; clear Hf.
    split; [lia|]. split; [|intros; lia].
    by rewrite span_bytes_first, span_bytes_empty, Z.add_0_r by lia.
  - destruct (IH _ _ Hf) as (Hr & Hj & Hbefore).
    split; [lia|]. split.
    + by rewrite span_bytes_first, Z.add_assoc by lia.
    + intros k Hk. destruct (decide (k = i)) as [->|Hne].
      * by rewrite span_bytes_first, span_bytes_empty, Z.add_0_r by lia.
      * rewrite span_bytes_first, Z.add_assoc by lia. apply Hbefore. lia.
Qed.

Lemma first_fit_None fits instrs n i base :
  first_fit fits instrs n i (to_uint8 base) = None →
  ∀ k, (i ≤ k < i + n)%nat → fits (to_uint8 (base + span_bytes instrs i k)) = false.
Proof.
  revert i base. induction n as [|n IH]; intros i base Hf k Hk; simpl in Hf; [lia|].
  rewrite to_uint8_add_l in Hf.
  destruct (fits (to_uint8 (base + length (instr_at instrs i)))) eqn:Hfit; [done|].
  destruct (decide (k = i)) as [->|Hne].
  - by rewrite span_bytes_first, span_bytes_empty, Z.add_0_r by lia.
  - rewrite span_bytes_first, Z.add_assoc by lia. apply (IH _ _ Hf). lia.
Qed.

Lemma first_fit_start_Some fits instrs n start j :
  first_fit fits instrs n start 0 = Some j →
  (start ≤ j < start + n)%nat
  ∧ fits (span_size instrs start j) = true
  ∧ ∀ k, (start ≤ k < j)%nat → fits (span_size instrs start k) = false.
Proof. intros Hf. by apply (first_fit_Some fits instrs n start 0 j). Qed.

Lemma first_fit_start_None fits instrs n start :
  first_fit fits instrs n start 0 = None →
  ∀ k, (start ≤ k < start + n)%nat → fits (span_size instrs start k) = false.
Proof. intros Hf. by apply (first_fit_None fits instrs n start 0). Qed.

(** A loop that meets a fitting index returns the first one. *)
Lemma first_fit_is_first fits instrs n start i :
  (start ≤ i < start + n)%nat →
  fits (span_size instrs start i) = true →
  (∀ k, (start ≤ k < i)%nat → fits (span_size instrs start k) = false) →
  first_fit fits instrs n start 0 = Some i.
Proof.
  intros Hi Hfit Hbefore.
  destruct (first_fit fits instrs n start 0) as [j|] eqn:Hf.
  - apply first_fit_start_Some in Hf as (Hj & Hfj & Hbj).
    f_equal. destruct (Nat.lt_trichotomy i j) as [Hlt|[->|Hgt]]; [|done|].
    + rewrite Hbj in Hfit by lia. done.
    + rewrite Hbefore in Hfj by lia. done.
  - rewrite (first_fit_start_None _ _ _ _ Hf i Hi) in Hfit. done.
Qed.

(** A window that leaves no instruction makes the planner abort. *)
Lemma zero_span_aborts desc patch_i site dst :
  0 < TYPE_GW_SIZE → 0 < TYPE_MID_SIZE → 0 ≤ JAL_INS_SIZE →
  patch_end_idx (window_scan_of desc site)
  = patch_start_idx (window_scan_of desc site) →
  create_patch_step desc patch_i site dst
  = Aborted "not enough space for patching around syscall".
Proof.
  intros Hgw Hmid Hjal Hzero.
  unfold create_patch_step, check_surrounding_instructions.
  fold (window_scan_of desc site). rewrite Hzero, Nat.sub_diag. simpl.
  destruct (TYPE_GW_SIZE <=? 0) eqn:H1; [apply Z.leb_le in H1; lia|].
  destruct (TYPE_MID_SIZE <=? 0) eqn:H2; [apply Z.leb_le in H2; lia|].
  unfold is_SML_patchable. simpl.
  destruct (syscall_num (ws_patch (window_scan_of desc site)) <? 0); [done|].
  destruct (0 <=? JAL_INS_SIZE) eqn:H3; [done|]. apply Z.leb_gt in H3. lia.
Qed.

(** C6, amended.  With [size j] the bytes of the instructions from
    [start_idx] to [j]: (1) when the syscall number is unknown the helper
    first takes the shortest MID-sized span that ends before the second
    [ecall]; (2) failing that, if some span ending at or before the first
    [ecall] is MID-sized or SML-patchable, it answers the span up to and
    including the first [ecall]; (3) failing that, the shortest
    SML-patchable span ending before the second [ecall]; (4) failing all,
    the zero-byte span ([start_idx] itself); and (5) a window scan that ends
    on a zero-byte span makes [create_patch] abort. *)
Theorem check_two_ecalls_priority patch syscall_idx start_idx second_ecall_idx :
  0 < TYPE_GW_SIZE → 0 < TYPE_MID_SIZE → 0 ≤ JAL_INS_SIZE →
  let size := span_size (surrounding_instrs patch) start_idx in
  let mid := λ j, TYPE_MID_SIZE ≤ size j in
  let sml := λ j, is_SML_patchable patch (size j) = true in
  let forced :=
    syscall_num patch < 0 ∧ ∃ j, (start_idx ≤ j < second_ecall_idx)%nat ∧ mid j in
  let upto := ∃ j, (start_idx ≤ j ≤ syscall_idx)%nat ∧ (mid j ∨ sml j) in
  (∀ i, syscall_num patch < 0 → (start_idx ≤ i < second_ecall_idx)%nat →
        mid i → (∀ j, (start_idx ≤ j < i)%nat → ¬ mid j) →
        check_two_ecalls patch syscall_idx start_idx second_ecall_idx = S i)
  ∧ (¬ forced → upto →
     check_two_ecalls patch syscall_idx start_idx second_ecall_idx = S syscall_idx)
  ∧ (∀ i, ¬ forced → ¬ upto → (start_idx ≤ i < second_ecall_idx)%nat →
          sml i → (∀ j, (start_idx ≤ j < i)%nat → ¬ sml j) →
          check_two_ecalls patch syscall_idx start_idx second_ecall_idx = S i)
  ∧ (¬ forced → ¬ upto →
     (∀ j, (start_idx ≤ j < second_ecall_idx)%nat → ¬ sml j) →
     check_two_ecalls patch syscall_idx start_idx second_ecall_idx = start_idx)
  ∧ (∀ desc patch_i site dst,
       patch_end_idx (window_scan_of desc site)
       = patch_start_idx (window_scan_of desc site) →
       create_patch_step desc patch_i site dst
       = Aborted "not enough space for patching around syscall").
Proof.
  intros Hgw Hmid Hjal size mid sml forced upto.
  set (instrs := surrounding_instrs patch) in *.
  set (fitM := λ s : Z, TYPE_MID_SIZE <=? s).
  set (fitMS := λ s : Z, (TYPE_MID_SIZE <=? s) || is_SML_patchable patch s).
  assert (∀ j, mid j ↔ fitM (size j) = true) as HmidB.
  { intros j. unfold mid, fitM. by rewrite Z.leb_le. }
  assert (∀ j, mid j ∨ sml j ↔ fitMS (size j) = true) as HuptoB.
  { intros j. unfold mid, sml, fitMS. by rewrite orb_true_iff, Z.leb_le. }
  (* the first loop runs and fails exactly when [forced] does not hold *)
  assert (¬ forced →
          (if syscall_num patch <? 0
           then first_fit fitM instrs (second_ecall_idx - start_idx) start_idx 0
           else None) = None) as Hnot_forced.
  { intros Hnf. destruct (syscall_num patch <? 0) eqn:Hn; [|done].
    apply Z.ltb_lt in Hn.
    destruct (first_fit fitM instrs _ start_idx 0) as [j|] eqn:Hf; [|done].
    apply first_fit_start_Some in Hf as (Hj & Hfit & _).
    destruct Hnf. split; [done|]. exists j. split; [lia|]. by apply HmidB. }
  assert (¬ upto →
          first_fit fitMS instrs (S syscall_idx - start_idx) start_idx 0 = None)
    as Hnot_upto.
  { intros Hnu.
    destruct (first_fit fitMS instrs _ start_idx 0) as [j|] eqn:Hf; [|done].
    apply first_fit_start_Some in Hf as (Hj & Hfit & _).
    destruct Hnu. exists j. split; [lia|]. by apply HuptoB. }
  assert (∀ (fits : Z → bool) (P : nat → Prop) i,
            (∀ j, P j ↔ fits (size j) = true) →
            (start_idx ≤ i < second_ecall_idx)%nat → P i →
            (∀ j, (start_idx ≤ j < i)%nat → ¬ P j) →
            first_fit fits instrs (second_ecall_idx - start_idx) start_idx 0
            = Some i) as Hfirst.
  { intros fits P i HP Hi HPi Hbefore. apply first_fit_is_first; [lia|by apply HP|].
    intros k Hk. specialize (Hbefore k Hk). rewrite HP in Hbefore.
    apply not_true_is_false. exact Hbefore. }
  unfold check_two_ecalls. fold instrs. fold fitM. fold fitMS.
  split; [|split; [|split; [|split]]].
  - intros i Hn Hi Hmi Hbefore.
    apply Z.ltb_lt in Hn. rewrite Hn.
    by rewrite (Hfirst fitM mid i HmidB Hi Hmi Hbefore).
  - intros Hnf (j & Hj & Hfit). rewrite (Hnot_forced Hnf).
    destruct (first_fit fitMS instrs _ start_idx 0) as [j'|] eqn:Hf; [done|].
    apply HuptoB in Hfit.
    assert (fitMS (size j) = false) as Hno
      by (apply (first_fit_start_None _ _ _ _ Hf j); lia).
    congruence.
  - intros i Hnf Hnu Hi Hsi Hbefore.
    rewrite (Hnot_forced Hnf), (Hnot_upto Hnu).
    by rewrite (Hfirst (is_SML_patchable patch) sml i (λ j, reflexivity _)
                  Hi Hsi Hbefore).
  - intros Hnf Hnu Hnone. rewrite (Hnot_forced Hnf), (Hnot_upto Hnu).
    destruct (first_fit (is_SML_patchable patch) instrs _ start_idx 0)
      as [j|] eqn:Hf; [|done].
    apply first_fit_start_Some in Hf as (Hj & Hfit & _).
    destruct (Hnone j); [lia|done].
  - intros desc patch_i site dst. by apply zero_span_aborts.
Qed.

End TwoEcallsFacts.

(** C6 where it fails: the number is unknown and the six instructions
    before the first [ecall] (index 6) already hold a MID-sized span.  In
    the order of the specification the first alternative applies and the
    span ends with the first [ecall] (end index 7); the helper takes the
    span forced for an unknown number first, which ends at index 5, before
    the first [ecall]. *)
Lemma two_ecalls_forced_span_first :
  check_two_ecalls_as_specified (H := sample_header)
    (mk_site 0x10600 (-1) (two_ecalls_window 0x10600)) 6 0 8 = 7%nat
  ∧ check_two_ecalls (H := sample_header)
      (mk_site 0x10600 (-1) (two_ecalls_window 0x10600)) 6 0 8 = 5%nat
  ∧ check_two_ecalls (H := sample_header)
      (mk_site 0x10600 (-1) (two_ecalls_window 0x10600)) 6 0 8
    ≠ check_two_ecalls_as_specified (H := sample_header)
        (mk_site 0x10600 (-1) (two_ecalls_window 0x10600)) 6 0 8.
Proof. vm_compute. split; [done|]. split; [done|]. lia. Qed.

(** C6, amended, on that window (the forced span ends at index 5), and on a
    window that leaves nothing: a pc-relative instruction right before the
    first [ecall], the second [ecall] right after it, and an unknown
    number. *)
Lemma check_two_ecalls_priority_witness :
  check_two_ecalls (H := sample_header)
    (mk_site 0x10600 (-1) (two_ecalls_window 0x10600)) 6 0 8 = 5%nat
  ∧ create_patch_step (H := sample_header)
      (mk_obj 0x10000 0x20000 []) 0
      (mk_site 0x10600 (-1)
         (((λ i, plain_instr (0x10600 - 24 + 4 * Z.of_nat i)) <$> seq 0 5)
          ++ [pcrel_instr (0x10600 - 4); ecall_instr 0x10600;
              ecall_instr (0x10600 + 4)]
          ++ ((λ i, plain_instr (0x10600 + 8 + 4 * Z.of_nat i)) <$> seq 0 5)))
      0x900000
    = Aborted "not enough space for patching around syscall".
Proof.
  destruct (check_two_ecalls_priority (H := sample_header)
              (mk_site 0x10600 (-1) (two_ecalls_window 0x10600)) 6 0 8
              ltac:(reflexivity) ltac:(reflexivity) ltac:(discriminate))
    as (Hforced & _ & _ & _ & Habort).
  split.
  - apply (Hforced 4%nat).
    + reflexivity.
    + lia.
    + vm_compute. discriminate.
    + intros j Hj.
      destruct j as [|[|[|[|j]]]];
        [apply Z.lt_nge; vm_compute; reflexivity..|lia].
  - apply Habort. vm_compute. reflexivity.
Defined.

(** ** Gateway resolution *)

Section GatewayFacts.
Context `{InterceptHeader}.

Lemma same_for_find_GW_refl p : same_for_find_GW p p.
Proof. done. Qed.

Lemma same_for_find_GW_trans p q r :
  same_for_find_GW p q → same_for_find_GW q r → same_for_find_GW p r.
Proof.
  intros (Hn & Hr & Hd) (Hn' & Hr' & Hd'). split; [congruence|].
  split; [congruence|]. intros Hgw. rewrite Hd by done. apply Hd'. congruence.
Qed.

Lemma find_GW_loop_same l l' from :
  Forall2 same_for_find_GW l l' → find_GW_loop l from = find_GW_loop l' from.
Proof.
  induction 1 as [|p q l l' (Hn & _ & Hd) _ IH]; simpl; [done|].
  rewrite <- Hn. destruct (syscall_num p =? TYPE_GW) eqn:Hgw; simpl; [|done].
  apply Z.eqb_eq in Hgw. rewrite <- (Hd Hgw), IH. done.
Qed.

(** [find_GW_loop] answers the first gateway in reach, in the order of the
    list. *)
Lemma find_GW_loop_Some l from d :
  find_GW_loop l from = Some d →
  ∃ k g, l !! k = Some g ∧ GW_in_reach from g ∧ d = dst_jmp_patch g
         ∧ ∀ k' g', (k' < k)%nat → l !! k' = Some g' → ¬ GW_in_reach from g'.
Proof.
  induction l as [|p l IH]; simpl; [done|].
  destruct (syscall_num p =? TYPE_GW) eqn:Hgw; simpl.
  - apply Z.eqb_eq in Hgw.
    destruct (Z.abs (dst_jmp_patch p - from) <? JAL_MID_REACH) eqn:Hr.
    + apply Z.ltb_lt in Hr. intros [= <-]. exists 0%nat, p.
      split; [done|]. split; [done|]. split; [done|]. intros; lia.
    + apply Z.ltb_ge in Hr. intros Hf.
      destruct (IH Hf) as (k & g & Hk & Hg & Hd & Hfirst).
      exists (S k), g. split; [done|]. split; [done|]. split; [done|].
      intros [|k'] g' Hlt Hg'; simpl in Hg'.
      * inversion Hg'; subst g'. intros [_ Hin]. lia.
      * apply (Hfirst k'); [lia|done].
  - apply Z.eqb_neq in Hgw. intros Hf.
    destruct (IH Hf) as (k & g & Hk & Hg & Hd & Hfirst).
    exists (S k), g. split; [done|]. split; [done|]. split; [done|].
    intros [|k'] g' Hlt Hg'; simpl in Hg'.
    + inversion Hg'; subst g'. by intros [? _].
    + apply (Hfirst k'); [lia|done].
Qed.

Lemma find_GW_loop_None l from :
  find_GW_loop l from = None → ∀ g, g ∈ l → ¬ GW_in_reach from g.
Proof.
  induction l as [|p l IH]; simpl; intros Hf g Hg; [by apply elem_of_nil in Hg|].
  destruct (syscall_num p =? TYPE_GW) eqn:Hgw; simpl in Hf.
  - destruct (Z.abs (dst_jmp_patch p - from) <? JAL_MID_REACH) eqn:Hr; [done|].
    apply Z.ltb_ge in Hr.
    apply elem_of_cons in Hg as [->|Hg]; [|by apply IH].
    intros [_ Hin]. lia.
  - apply Z.eqb_neq in Hgw.
    apply elem_of_cons in Hg as [->|Hg]; [|by apply IH].
    by intros [? _].
Qed.

Lemma find_GW_loop_first l from k g :
  l !! k = Some g → GW_in_reach from g →
  (∀ k' g', (k' < k)%nat → l !! k' = Some g' → ¬ GW_in_reach from g') →
  find_GW_loop l from = Some (dst_jmp_patch g).
Proof.
  intros Hk Hg Hfirst.
  destruct (find_GW_loop l from) as [d|] eqn:Hf.
  - apply find_GW_loop_Some in Hf as (k0 & g0 & Hk0 & Hg0 & -> & Hfirst0).
    destruct (Nat.lt_trichotomy k k0) as [Hlt|[->|Hgt]].
    + by destruct (Hfirst0 k g Hlt Hk).
    + congruence.
    + by destruct (Hfirst k0 g0 Hgt Hk0).
  - destruct (find_GW_loop_None _ _ Hf g); [by eapply list_elem_of_lookup_2|done].
Qed.

(** [find_GW] leaves the tag and the return address of a patch. *)
Lemma find_GW_fields desc p :
  syscall_num (find_GW desc p) = syscall_num p
  ∧ return_address (find_GW desc p) = return_address p
  ∧ dst_jmp_patch (find_GW desc p)
    = default (dst_jmp_patch p) (find_GW_loop (items desc) (jump_from p))
      + (if syscall_num p =? TYPE_MID then MODIFY_SP_INS_SIZE else 0).
Proof.
  unfold find_GW.
  destruct (find_GW_loop (items desc) (jump_from p)) as [d|];
    destruct (syscall_num p =? TYPE_MID); simpl; repeat split; lia.
Qed.

Lemma resolved_same ref p : same_for_find_GW p (resolved ref p).
Proof.
  unfold resolved. destruct (syscall_num p =? TYPE_GW) eqn:Hgw; [done|].
  apply Z.eqb_neq in Hgw.
  destruct (find_GW_fields ref p) as (Hn & Hr & _).
  split; [done|]. split; [done|]. intros ?. done.
Qed.

Lemma find_GW_same_ref desc ref p :
  Forall2 same_for_find_GW (items ref) (items desc) →
  find_GW desc p = find_GW ref p.
Proof.
  intros Hsame. unfold find_GW.
  by rewrite (find_GW_loop_same _ _ (jump_from p) Hsame).
Qed.

(** The second loop of [create_patch], entered at the index [length done]
    with the patches [todo] still to go: each of them is resolved against
    the gateways of the object, which the loop never changes. *)
Lemma find_GW_all_items todo done desc ref :
  items desc = done ++ todo →
  Forall2 same_for_find_GW (items ref) (items desc) →
  items (find_GW_all (List.length todo) (List.length done) desc)
  = done ++ (resolved ref <$> todo).
Proof.
  revert done desc. induction todo as [|p todo IH]; intros done desc Hitems Hsame.
  - simpl. by rewrite Hitems.
  - cbn [List.length find_GW_all].
    assert (items desc !! List.length done = Some p) as Hlook.
    { rewrite Hitems. by apply list_lookup_middle. }
    rewrite Hlook.
    set (desc1 := if negb (syscall_num p =? TYPE_GW)
                  then set_items (<[List.length done := find_GW desc p]> (items desc)) desc
                  else desc).
    assert (items desc1 = (done ++ [resolved ref p]) ++ todo) as Hitems1.
    { unfold desc1, resolved.
      destruct (syscall_num p =? TYPE_GW); simpl.
      - by rewrite Hitems, <- app_assoc.
      - rewrite Hitems, insert_app_r_alt, Nat.sub_diag by lia. simpl.
        by rewrite <- app_assoc, (find_GW_same_ref desc ref). }
    assert (Forall2 same_for_find_GW (items ref) (items desc1)) as Hsame1.
    { rewrite Hitems1, <- app_assoc. simpl.
      rewrite Hitems in Hsame.
      apply Forall2_app_inv_r in Hsame as (l1 & l2 & H1 & H2 & ->).
      apply Forall2_cons_inv_r in H2 as (x & l2' & Hx & H2 & ->).
      apply Forall2_app; [done|]. constructor; [|done].
      eapply same_for_find_GW_trans; [exact Hx|apply resolved_same]. }
    replace (S (List.length done)) with (List.length (done ++ [resolved ref p]))
      by (rewrite length_app; simpl; lia).
    rewrite (IH _ _ Hitems1 Hsame1), <- app_assoc. done.
Qed.

Lemma create_patch_items desc dst desc' dst' :
  create_patch desc dst = Returned (desc', dst') →
  ∃ desc1, create_patch_loop (List.length (items desc)) 0 desc dst
           = Returned (desc1, dst')
           ∧ items desc' = resolved desc1 <$> items desc1.
Proof.
  unfold create_patch.
  destruct (create_patch_loop _ _ _ _) as [[desc1 dst1]|msg]; [|done].
  intros [= <- <-]. exists desc1. split; [done|].
  apply (find_GW_all_items (items desc1) [] desc1 desc1); [done|].
  apply Forall2_same_length_lookup_2; [done|].
  intros i x y Hx Hy. assert (x = y) as -> by congruence. done.
Qed.

(** C5, amended.  After [create_patch] has completed for an object, every
    patch that is not a gateway and for which some gateway of the object
    lies within [JAL_MID_REACH] of its [jump_from] address (the address of
    its [jal], plus [MODIFY_SP_INS_SIZE] for MID) is paired with the first
    such gateway in the order of the patch table: its [dst_jmp_patch] is
    that gateway's [dst_jmp_patch], plus [MODIFY_SP_INS_SIZE] for MID. *)
Theorem create_patch_pairs_first_GW desc dst desc' dst' :
  create_patch desc dst = Returned (desc', dst') →
  ∀ i p k g,
    items desc' !! i = Some p → syscall_num p ≠ TYPE_GW →
    items desc' !! k = Some g → GW_in_reach (jump_from p) g →
    (∀ k' g', (k' < k)%nat → items desc' !! k' = Some g' →
              ¬ GW_in_reach (jump_from p) g') →
    dst_jmp_patch p
    = dst_jmp_patch g
      + (if syscall_num p =? TYPE_MID then MODIFY_SP_INS_SIZE else 0).
Proof.
  intros Hcreate i p k g Hp Hngw Hg Hreach Hfirst.
  destruct (create_patch_items _ _ _ _ Hcreate) as (desc1 & _ & Hitems).
  assert (Forall2 same_for_find_GW (items desc1) (items desc')) as Hsame.
  { rewrite Hitems. apply Forall2_fmap_r, Forall_Forall2_diag, Forall_forall.
    intros x _. apply resolved_same. }
  rewrite Hitems, list_lookup_fmap in Hp.
  destruct (items desc1 !! i) as [p1|] eqn:Hp1; [|done].
  simpl in Hp. injection Hp as <-.
  destruct (resolved_same desc1 p1) as (Hn & Hr & _).
  assert (jump_from (resolved desc1 p1) = jump_from p1) as Hjf.
  { unfold jump_from. by rewrite <- Hn, <- Hr. }
  rewrite Hjf in *. rewrite <- Hn in *.
  unfold resolved. apply Z.eqb_neq in Hngw. rewrite Hngw.
  destruct (find_GW_fields desc1 p1) as (_ & _ & ->).
  rewrite (find_GW_loop_same _ _ (jump_from p1) Hsame).
  by rewrite (find_GW_loop_first _ _ k g Hg Hreach Hfirst).
Qed.

End GatewayFacts.

(** C5 where it fails.  On [three_sites] the MID patch (its [jal] at
    0x105F8) is paired with the gateway at 0x100EC, the first of the table,
    although the gateway at 0x104EC is in reach and nearer. *)
Lemma first_GW_not_nearest :
  placement <$> items (planned (create_patch (H := sample_header) three_sites 0x900000))
  = [(-2, 0x100EC, 24, 0x100FC); (-2, 0x104EC, 24, 0x104FC);
     (-3, 0x100EC + 4, 20, 0x105FC)]
  ∧ (∃ g, items (planned (create_patch (H := sample_header) three_sites 0x900000))
            !! 1%nat = Some g
          ∧ dst_jmp_patch g = 0x104EC
          ∧ nearest_GW (H := sample_header)
              (items (planned (create_patch (H := sample_header) three_sites 0x900000)))
              (0x105FC - 4) g)
  ∧ 0x100EC + 4 ≠ 0x104EC + MODIFY_SP_INS_SIZE (InterceptHeader := sample_header).
Proof.
  split; [by vm_compute|]. split; [|by vm_compute].
  eexists. split; [by vm_compute|]. split; [by vm_compute|].
  split; [|split].
  - apply (list_elem_of_lookup_2 _ 1%nat). by vm_compute.
  - split; [by vm_compute|]. by vm_compute.
  - intros g' [k Hk]%list_elem_of_lookup_1 [Hgw Hreach].
    destruct k as [|[|[|k]]]; vm_compute in Hk; try discriminate Hk;
      injection Hk as <-; vm_compute; discriminate.
Qed.

(** C5, amended, on [three_sites]: the MID patch, third of the table, is
    paired with the gateway that comes first in the table. *)
Lemma create_patch_pairs_first_GW_witness :
  dst_jmp_patch
    (nth_patch (planned (create_patch (H := sample_header) three_sites 0x900000)) 2)
  = dst_jmp_patch
      (nth_patch (planned (create_patch (H := sample_header) three_sites 0x900000)) 0)
    + (if syscall_num
            (nth_patch (planned (create_patch (H := sample_header) three_sites 0x900000)) 2)
          =? TYPE_MID (InterceptHeader := sample_header)
       then MODIFY_SP_INS_SIZE (InterceptHeader := sample_header) else 0).
Proof.
  apply (create_patch_pairs_first_GW (H := sample_header) three_sites 0x900000
           (planned (create_patch (H := sample_header) three_sites 0x900000))
           (cursor (create_patch (H := sample_header) three_sites 0x900000))
           ltac:(vm_compute; reflexivity) 2%nat _ 0%nat _).
  - vm_compute. reflexivity.
  - vm_compute. discriminate.
  - vm_compute. reflexivity.
  - split; vm_compute; reflexivity.
  - intros k' g' Hlt. lia.
Defined.

(** ** Activation *)

Section ActivationFacts.
Context `{InterceptHeader}.

Lemma activate_loop_Returned desc ps :
  is_Returned (activate_loop desc ps) = true
  ↔ ∀ p, p ∈ ps → text_start desc ≤ dst_jmp_patch p ≤ text_end desc.
Proof.
  induction ps as [|p ps IH]; simpl.
  - split; [|done]. intros _ q Hq. by apply elem_of_nil in Hq.
  - destruct (dst_jmp_patch p <? text_start desc) eqn:Hlo; simpl.
    { apply Z.ltb_lt in Hlo. split; [done|]. intros Hall.
      specialize (Hall p (list_elem_of_here _ _)). lia. }
    destruct (text_end desc <? dst_jmp_patch p) eqn:Hhi; simpl.
    { apply Z.ltb_lt in Hhi. split; [done|]. intros Hall.
      specialize (Hall p (list_elem_of_here _ _)). lia. }
    apply Z.ltb_ge in Hlo, Hhi.
    destruct (activate_loop desc ps) as [acts|msg]; simpl in *.
    + split; [|done]. intros _ q Hq.
      apply elem_of_cons in Hq as [->|Hq]; [lia|]. by apply IH.
    + split; [done|]. intros Hall. apply IH.
      intros q Hq. apply Hall. by apply list_elem_of_further.
Qed.

Lemma activate_loop_Aborted desc ps msg :
  activate_loop desc ps = Aborted msg → msg = "dst_jmp_patch outside text".
Proof.
  induction ps as [|p ps IH]; simpl; [done|].
  destruct (_ || _); [by intros [= <-]|].
  destruct (activate_loop desc ps); [done|].
  intros [= <-]. by apply IH.
Qed.

(** The guard of [activate_patches]: the call completes on an object exactly
    when every patch [p] of it has [text_start <= p.dst_jmp_patch <= text_end];
    otherwise the process aborts with "dst_jmp_patch outside text". *)
Lemma activate_patches_guard desc :
  (is_Returned (activate_patches desc) = true
   ↔ ∀ p, p ∈ items desc → text_start desc ≤ dst_jmp_patch p ≤ text_end desc)
  ∧ (∀ msg, activate_patches desc = Aborted msg →
            msg = "dst_jmp_patch outside text").
Proof.
  unfold activate_patches.
  destruct (items desc) as [|p ps] eqn:Hitems.
  - split; [|done]. split; [|done]. intros _ q Hq. by apply elem_of_nil in Hq.
  - rewrite <- (activate_loop_Returned desc (p :: ps)).
    pose proof (activate_loop_Aborted desc (p :: ps)) as Hmsg.
    destruct (activate_loop desc (p :: ps)) as [acts|m]; simpl.
    + split; done.
    + split; [done|]. intros msg [= <-]. by apply Hmsg.
Qed.

End ActivationFacts.

(** C4.  The invariant [text_start <= dst_jmp_patch] and
    [dst_jmp_patch + patch_size_bytes <= text_end] at activation, on
    [lone_site]: an object whose text is [0x10000, 0x10604) and whose only
    site, the [ecall] at 0x10600 that ends the text, has room for a MID
    patch and no gateway to pair with.  [create_patch] completes; [find_GW]
    finds no gateway, leaves [dst_jmp_patch] at the start of the patch's own
    range and still adds [MODIFY_SP_INS_SIZE] to it, so [dst_jmp_patch] is
    0x105F4 with 20 bytes: [dst_jmp_patch + patch_size_bytes] is 0x10608,
    past [text_end].  [activate_patches], whose guard reads [dst_jmp_patch]
    alone, completes and writes the patch from 0x105F0, its [jal] aimed at
    0x105F4, inside the patch itself. *)
Theorem activated_patch_ends_past_text :
  is_Returned (create_patch (H := sample_header) lone_site 0x900000) = true
  ∧ text_start (planned (create_patch (H := sample_header) lone_site 0x900000))
    = 0x10000
  ∧ text_end (planned (create_patch (H := sample_header) lone_site 0x900000))
    = 0x10604
  ∧ placement <$> items (planned (create_patch (H := sample_header) lone_site 0x900000))
    = [(TYPE_MID (InterceptHeader := sample_header), 0x105F4, 20, 0x105FC)]
  ∧ ¬ (0x105F4 + 20 ≤ 0x10604)
  ∧ activate_patches (H := sample_header)
      (planned (create_patch (H := sample_header) lone_site 0x900000))
    = Returned
        [Act_mprotect 0x10000 0x604 PROT_RWX;
         Act_copy MID 0x105F0
           (nth_patch (planned (create_patch (H := sample_header) lone_site 0x900000)) 0);
         Act_clear_cache 0x10000 0x10604;
         Act_mprotect 0x10000 0x604 PROT_RX].
Proof. vm_compute. repeat split; done. Qed.

(** Where a gateway is found the invariant holds: every patch of
    [three_sites], as [create_patch] leaves it, has
    [text_start <= dst_jmp_patch] and
    [dst_jmp_patch + patch_size_bytes <= text_end]. *)
Lemma three_sites_ranges_in_text :
  Forall (λ p, text_start three_sites ≤ dst_jmp_patch p
               ∧ dst_jmp_patch p + patch_size_bytes p ≤ text_end three_sites)
    (items (planned (create_patch (H := sample_header) three_sites 0x900000))).
Proof. vm_compute. repeat constructor; discriminate. Qed.

(** * Further properties of the dispatcher *)

Section DetectReadsFacts.
Context `{InterceptHeader}.

Lemma no_patches_spec objs :
  no_patches objs = true ↔ ∀ o, o ∈ objs → items o = [].
Proof.
  unfold no_patches. rewrite forallb_forall. split.
  - intros Hall o Ho. apply list_elem_of_In in Ho. specialize (Hall o Ho).
    by destruct (items o).
  - intros Hall o Ho. apply list_elem_of_In in Ho. by rewrite (Hall o Ho).
Qed.

Lemma no_patches_false objs :
  no_patches objs = false → ∃ o, o ∈ objs ∧ items o ≠ [].
Proof.
  induction objs as [|o objs IH]; simpl; [done|].
  destruct (items o) eqn:Hi; simpl.
  - intros Hf. destruct (IH Hf) as (o' & Ho' & Hne).
    exists o'. split; [by apply list_elem_of_further|done].
  - intros _. exists o. split; [apply list_elem_of_here|]. by rewrite Hi.
Qed.

(** Only the current index is read by the inner loops. *)
Lemma scan_items_reads_at ra b k ps st j :
  j ∈ ds_reads (scan_items ra b k ps st).2 → j = k ∨ j ∈ ds_reads st.
Proof.
  revert st. induction ps as [|p ps IH]; intros st; simpl; [by right|].
  destruct (_ && _); simpl.
  - intros [->|Hj]%elem_of_cons; [by left|by right].
  - intros Hj. destruct (IH _ Hj) as [->|Hj']; [by left|].
    simpl in Hj'. apply elem_of_cons in Hj' as [->|Hj']; [by left|by right].
Qed.

Lemma scan_objs_reads_at ra b k os st j :
  j ∈ ds_reads (scan_objs ra b k os st).2 → j = k ∨ j ∈ ds_reads st.
Proof.
  revert st. induction os as [|o os IH]; intros st; simpl; [by right|].
  pose proof (scan_items_reads_at ra b k (items o) st j) as Hitems.
  destruct (scan_items ra b k (items o) st) as [[] st1]; simpl in *; [done|].
  intros Hj. destruct (IH _ Hj) as [->|Hj']; [by left|by apply Hitems].
Qed.

Lemma scan_slots_reads_at objs ra b n k st j :
  j ∈ ds_reads (scan_slots objs ra b n k st).2 →
  (k ≤ j ≤ (scan_slots objs ra b n k st).1)%nat ∨ j ∈ ds_reads st.
Proof.
  revert k st. induction n as [|n IH]; intros k st; simpl; [by right|].
  pose proof (scan_objs_reads_at ra b k objs st j) as Hobjs.
  destruct (scan_objs ra b k objs st) as [[] st1] eqn:Ho; simpl in *.
  - intros Hj. destruct (Hobjs Hj) as [->|Hj']; [left; lia|by right].
  - intros Hj. destruct (IH _ _ Hj) as [Hr|Hj'].
    + left. lia.
    + destruct (Hobjs Hj') as [->|Hj'']; [|by right].
      left. split; [lia|].
      destruct (scan_slots objs ra b n (S k) st1) as [k' st'] eqn:Hs.
      apply scan_slots_spec in Hs. simpl. lia.
Qed.

Lemma scan_items_no_patch ra b k st : scan_items ra b k [] st = (false, st).
Proof. done. Qed.

Lemma scan_objs_no_patches ra b k os st :
  no_patches os = true → scan_objs ra b k os st = (false, st).
Proof.
  induction os as [|o os IH]; simpl; [done|].
  destruct (items o); simpl; [|done]. apply IH.
Qed.

Lemma scan_slots_no_patches objs ra b n k st :
  no_patches objs = true → (scan_slots objs ra b n k st).2 = st.
Proof.
  intros Hno. revert k. induction n as [|n IH]; intros k; simpl; [done|].
  rewrite (scan_objs_no_patches _ _ _ _ _ Hno). apply IH.
Qed.

(** X1.  [detect_cur_patch] stays within the three-element candidate array
    exactly when it finds a patch or when the table has no patch at all. *)
Theorem detect_cur_patch_reads_in_bounds objs MID_ret SML_ret GW_ret beyond :
  (∀ j, j ∈ detect_cur_patch_reads objs MID_ret SML_ret GW_ret beyond → (j < 3)%nat)
  ↔ is_Returned (detect_cur_patch objs MID_ret SML_ret GW_ret beyond) = true
    ∨ no_patches objs = true.
Proof.
  split.
  - intros Hbound.
    destruct (detect_cur_patch objs MID_ret SML_ret GW_ret beyond)
      as [r|msg] eqn:Hd; [by left|right].
    destruct (no_patches objs) eqn:Hno; [done|].
    apply no_patches_false in Hno.
    pose proof (detect_cur_patch_abort_reads objs MID_ret SML_ret GW_ret beyond
                  msg Hno Hd 3%nat) as H3.
    specialize (Hbound 3%nat (H3 ltac:(unfold sizeof_ret_addrs; lia))). lia.
  - intros Hcase j Hj.
    unfold detect_cur_patch_reads, detect_cur_patch, detect_cur_patch_run in *.
    rewrite elem_of_reverse in Hj.
    destruct Hcase as [Hret|Hno].
    + apply scan_slots_reads_at in Hj as [Hj|Hj]; [|by apply elem_of_nil in Hj].
      destruct (scan_slots _ _ _ _ _ _) as [k' st'] eqn:Hs. cbn [fst] in Hj.
      destruct (sizeof_ret_addrs <=? k')%nat eqn:Hk; [done|].
      apply Nat.leb_gt in Hk.
      apply scan_slots_spec in Hs as (_ & _ & Hfound).
      destruct Hfound as (o & p & _ & _ & Hh & _); [simpl; lia|].
      apply andb_true_iff in Hh as [_ Hs].
      apply slot_matches_lt in Hs. lia.
    + rewrite scan_slots_no_patches in Hj by done. by apply elem_of_nil in Hj.
Qed.

End DetectReadsFacts.

Section GetCurPatchMore.

Lemma get_cur_patch_objs_None key o os patch :
  get_cur_patch_objs key o os patch = None ↔ patch = None ∧ no_patches os = true.
Proof.
  revert o patch. induction os as [|d os IH]; intros o patch; simpl.
  - split; [done|by intros [-> _]].
  - rewrite IH. unfold no_patches. cbn [forallb].
    destruct (items d) as [|x xs] eqn:Hi.
    + rewrite get_cur_patch_items_nil. done.
    + split; [|by intros [_ ?]].
      intros [Hnone _].
      destruct (get_cur_patch_items_some key o 0 (x :: xs) patch) as (i & Hr & _);
        [done|congruence].
Qed.

Lemma get_cur_patch_objs_empty key o os patch :
  no_patches os = true → get_cur_patch_objs key o os patch = patch.
Proof.
  revert o patch. induction os as [|d os IH]; intros o patch; simpl; [done|].
  destruct (items d); simpl; [|done]. apply IH.
Qed.

Lemma get_cur_patch_objs_app2 key o l1 l2 patch :
  get_cur_patch_objs key o (l1 ++ l2) patch
  = get_cur_patch_objs key (o + List.length l1) l2
      (get_cur_patch_objs key o l1 patch).
Proof.
  revert o patch. induction l1 as [|x l1 IH]; intros o patch; simpl.
  - by rewrite Nat.add_0_r.
  - rewrite IH. by replace (S o + List.length l1)%nat
      with (o + S (List.length l1))%nat by lia.
Qed.

(** X2.  [get_cur_patch] answers NULL only when no object has a patch;
    otherwise it answers from the last object that has patches alone: the
    first patch of that object with the key, or the object's last patch when
    none of its patches has the key. *)
Theorem get_cur_patch_characterised objs key :
  (get_cur_patch objs key = None ↔ no_patches objs = true)
  ∧ ∀ pre d post,
      objs = pre ++ d :: post → items d ≠ [] → no_patches post = true →
      ∃ i, get_cur_patch objs key = Some (List.length pre, i)
           ∧ (i < List.length (items d))%nat
           ∧ (∀ j x, (j < i)%nat → items d !! j = Some x →
                     to_int64 (return_address x) ≠ key)
           ∧ ((∃ x, items d !! i = Some x ∧ to_int64 (return_address x) = key)
              ∨ (S i = List.length (items d)
                 ∧ ∀ x, x ∈ items d → to_int64 (return_address x) ≠ key)).
Proof.
  split.
  - unfold get_cur_patch. rewrite get_cur_patch_objs_None.
    split; [by intros [_ ?]|done].
  - intros pre d post -> Hne Hpost.
    destruct (get_cur_patch_items_some key (List.length pre) 0 (items d) None Hne)
      as (i & Hr & Hrest).
    exists i. split; [|exact Hrest].
    unfold get_cur_patch.
    replace (pre ++ d :: post) with ((pre ++ [d]) ++ post)
      by (by rewrite <- app_assoc).
    rewrite get_cur_patch_objs_app2, get_cur_patch_objs_empty by done.
    fold (get_cur_patch (pre ++ [d]) key).
    by rewrite get_cur_patch_last_object, Hr.
Qed.

End GetCurPatchMore.

(** X2 on a table of three objects, the last without patches: the key of
    the first object's patch yields the last patch of the second object. *)
Lemma get_cur_patch_characterised_witness :
  ∃ i, get_cur_patch
         [mk_obj 0 0x10000 [mk_patch (-2) 0x1010 0x9000];
          mk_obj 0x20000 0x30000
            [mk_patch (-2) 0x21010 0x9040; mk_patch 64 0x22004 0x9080];
          mk_obj 0x40000 0x50000 []] 0x1010
       = Some (1%nat, i)
       ∧ (i < 2)%nat
       ∧ (∀ j x, (j < i)%nat →
            [mk_patch (-2) 0x21010 0x9040; mk_patch 64 0x22004 0x9080] !! j = Some x →
            to_int64 (return_address x) ≠ 0x1010)
       ∧ ((∃ x, [mk_patch (-2) 0x21010 0x9040; mk_patch 64 0x22004 0x9080] !! i
                = Some x ∧ to_int64 (return_address x) = 0x1010)
          ∨ (S i = 2%nat
             ∧ ∀ x, x ∈ [mk_patch (-2) 0x21010 0x9040; mk_patch 64 0x22004 0x9080] →
                    to_int64 (return_address x) ≠ 0x1010)).
Proof.
  destruct (get_cur_patch_characterised
              [mk_obj 0 0x10000 [mk_patch (-2) 0x1010 0x9000];
               mk_obj 0x20000 0x30000
                 [mk_patch (-2) 0x21010 0x9040; mk_patch 64 0x22004 0x9080];
               mk_obj 0x40000 0x50000 []] 0x1010) as [_ Hlast].
  apply (Hlast [mk_obj 0 0x10000 [mk_patch (-2) 0x1010 0x9000]]
           (mk_obj 0x20000 0x30000
              [mk_patch (-2) 0x21010 0x9040; mk_patch 64 0x22004 0x9080])
           [mk_obj 0x40000 0x50000 []]);
    [reflexivity | discriminate | reflexivity].
Defined.

Section DispatchAfterResolution.
Context `{InterceptHeader}.

Lemma scan_items_same_keys ra b k ps ps' st :
  Forall2 same_keys ps ps' →
  scan_items ra b k ps st = scan_items ra b k ps' st.
Proof.
  intros Hsame. revert st.
  induction Hsame as [|p q ps ps' (Hr & Hn & Hl) _ IH]; intros st; simpl; [done|].
  rewrite Hr, Hn, Hl. destruct (_ && _); [done|]. apply IH.
Qed.

Lemma scan_objs_same_keys ra b k os os' st :
  Forall2 (λ o o', Forall2 same_keys (items o) (items o')) os os' →
  scan_objs ra b k os st = scan_objs ra b k os' st.
Proof.
  intros Hsame. revert st.
  induction Hsame as [|o o' os os' Ho _ IH]; intros st; simpl; [done|].
  rewrite (scan_items_same_keys _ _ _ _ _ st Ho).
  destruct (scan_items ra b k (items o') st) as [[] st1]; [done|]. apply IH.
Qed.

Lemma scan_slots_same_keys objs objs' ra b n k st :
  Forall2 (λ o o', Forall2 same_keys (items o) (items o')) objs objs' →
  scan_slots objs ra b n k st = scan_slots objs' ra b n k st.
Proof.
  intros Hsame. revert k st. induction n as [|n IH]; intros k st; simpl; [done|].
  rewrite (scan_objs_same_keys _ _ _ _ _ st Hsame).
  destruct (scan_objs ra b k objs' st) as [[] st1]; [done|]. apply IH.
Qed.

Lemma get_cur_patch_items_same_keys key o p ps ps' patch :
  Forall2 same_keys ps ps' →
  get_cur_patch_items key o p ps patch = get_cur_patch_items key o p ps' patch.
Proof.
  intros Hsame. revert p patch.
  induction Hsame as [|x y ps ps' (Hr & _) _ IH]; intros p patch; simpl; [done|].
  rewrite Hr. destruct (_ =? _); [done|]. apply IH.
Qed.

Lemma get_cur_patch_objs_same_keys key o os os' patch :
  Forall2 (λ o o', Forall2 same_keys (items o) (items o')) os os' →
  get_cur_patch_objs key o os patch = get_cur_patch_objs key o os' patch.
Proof.
  intros Hsame. revert o patch.
  induction Hsame as [|d d' os os' Hd _ IH]; intros o patch; simpl; [done|].
  by rewrite (get_cur_patch_items_same_keys _ _ _ _ _ patch Hd), IH.
Qed.

Lemma resolved_same_keys ref p : same_keys p (resolved ref p).
Proof.
  unfold resolved. destruct (syscall_num p =? TYPE_GW); [done|].
  unfold find_GW.
  destruct (find_GW_loop (items ref) (jump_from p));
    destruct (syscall_num p =? TYPE_MID); done.
Qed.

Lemma find_GW_all_same_keys desc :
  Forall2 same_keys (items desc)
    (items (find_GW_all (List.length (items desc)) 0 desc)).
Proof.
  rewrite (find_GW_all_items (items desc) [] desc desc); [|done|].
  - simpl. apply Forall2_fmap_r, Forall_Forall2_diag, Forall_forall.
    intros x _. apply resolved_same_keys.
  - apply Forall_Forall2_diag, Forall_forall. intros x _.
    apply same_for_find_GW_refl.
Qed.

(** X3.  The gateway resolution that ends [create_patch] changes nothing
    for the dispatcher: with the resolved object in the table,
    [detect_cur_patch] returns the same pair (or aborts alike) and
    [get_cur_patch] the same pointer as with the object before
    resolution. *)
Theorem gateway_resolution_keeps_dispatch pre desc post
    MID_ret SML_ret GW_ret beyond key :
  detect_cur_patch
    (pre ++ find_GW_all (List.length (items desc)) 0 desc :: post)
    MID_ret SML_ret GW_ret beyond
  = detect_cur_patch (pre ++ desc :: post) MID_ret SML_ret GW_ret beyond
  ∧ get_cur_patch
      (pre ++ find_GW_all (List.length (items desc)) 0 desc :: post) key
    = get_cur_patch (pre ++ desc :: post) key.
Proof.
  assert (Forall2 (λ o o', Forall2 same_keys (items o) (items o'))
            (pre ++ desc :: post)
            (pre ++ find_GW_all (List.length (items desc)) 0 desc :: post))
    as Hsame.
  { apply Forall2_app.
    - apply Forall_Forall2_diag, Forall_forall. intros o _.
      apply Forall_Forall2_diag, Forall_forall. by intros x _.
    - constructor; [apply find_GW_all_same_keys|].
      apply Forall_Forall2_diag, Forall_forall. intros o _.
      apply Forall_Forall2_diag, Forall_forall. by intros x _. }
  split.
  - unfold detect_cur_patch, detect_cur_patch_run.
    by rewrite (scan_slots_same_keys _ _ _ _ _ _ _ Hsame).
  - unfold get_cur_patch.
    by rewrite (get_cur_patch_objs_same_keys _ _ _ _ _ Hsame).
Qed.

End DispatchAfterResolution.

Section RoutineMore.

(** The routine, case by case. *)
Lemma intercept_routine_cases objs env hk a0 a1 a2 a3 a4 a5 a6 a7 magic r0 ret r1 :
  handle_magic_syscalls env (desc_of a0 a1 a2 a3 a4 a5 a7) a0 = (magic, r0) →
  hook_outcome hk (desc_of a0 a1 a2 a3 a4 a5 a7) r0 = (ret, r1) →
  intercept_routine objs env hk a0 a1 a2 a3 a4 a5 a6 a7
  = let d := desc_of a0 a1 a2 a3 a4 a5 a7 in
    let patch := get_cur_patch objs a6 in
    if magic =? 0 then ({| a0 := r0; a1 := a1 |}, [])
    else if nr d =? SYS_rt_sigreturn
    then ({| a0 := UNH_SYSCALL; a1 := UNH_GENERIC |},
          [Ev_log patch d UNKNOWN 0] ++ hook_events hk d)
    else if ret =? 0
    then ({| a0 := r1; a1 := a1 |},
          [Ev_log patch d UNKNOWN 0] ++ hook_events hk d
            ++ [Ev_log patch d KNOWN r1])
    else if deferred_clone env d
    then ({| a0 := UNH_SYSCALL; a1 := UNH_CLONE |},
          [Ev_log patch d UNKNOWN 0] ++ hook_events hk d)
    else (syscall_no_intercept env d,
          [Ev_log patch d UNKNOWN 0] ++ hook_events hk d ++ [Ev_kernel d]
            ++ post_clone_events_of hk d (ret_a0 (syscall_no_intercept env d))
            ++ [Ev_log patch d KNOWN (ret_a0 (syscall_no_intercept env d))]).
Proof.
  intros Hmagic Hhook. cbv zeta.
  unfold intercept_routine. fold (desc_of a0 a1 a2 a3 a4 a5 a7).
  set (d := desc_of a0 a1 a2 a3 a4 a5 a7) in *.
  rewrite Hmagic. destruct (magic =? 0); [done|].
  unfold hook_outcome, hook_events in *.
  assert (∀ (f : Z) (r : Z) (ev : list event),
    (if nr d =? SYS_rt_sigreturn
     then ({| a0 := UNH_SYSCALL; a1 := UNH_GENERIC |},
           [Ev_log (get_cur_patch objs a6) d UNKNOWN 0] ++ ev)
     else if negb (f =? 0)
     then
       if (nr d =? SYS_clone)
          && (negb (arg d 1 =? 0) || negb (Z.land (arg d 0) CLONE_VFORK =? 0))
       then ({| a0 := UNH_SYSCALL; a1 := UNH_CLONE |},
             [Ev_log (get_cur_patch objs a6) d UNKNOWN 0] ++ ev)
       else if (nr d =? SYS_clone3)
               && negb (clone_args_stack env (arg d 0) =? 0)
       then ({| a0 := UNH_SYSCALL; a1 := UNH_CLONE |},
             [Ev_log (get_cur_patch objs a6) d UNKNOWN 0] ++ ev)
       else
         (syscall_no_intercept env d,
          [Ev_log (get_cur_patch objs a6) d UNKNOWN 0] ++ ev ++ [Ev_kernel d]
            ++ (if nr d =? SYS_clone
                then intercept_routine_post_clone hk
                       (ret_a0 (syscall_no_intercept env d))
                else if nr d =? SYS_clone3
                then intercept_routine_post_clone hk
                       (ret_a0 (syscall_no_intercept env d))
                else [])
            ++ [Ev_log (get_cur_patch objs a6) d KNOWN
                  (ret_a0 (syscall_no_intercept env d))])
     else ({| a0 := r; a1 := a1 |},
           [Ev_log (get_cur_patch objs a6) d UNKNOWN 0] ++ ev
             ++ [Ev_log (get_cur_patch objs a6) d KNOWN r]))
    = if nr d =? SYS_rt_sigreturn
      then ({| a0 := UNH_SYSCALL; a1 := UNH_GENERIC |},
            [Ev_log (get_cur_patch objs a6) d UNKNOWN 0] ++ ev)
      else if f =? 0
      then ({| a0 := r; a1 := a1 |},
            [Ev_log (get_cur_patch objs a6) d UNKNOWN 0] ++ ev
              ++ [Ev_log (get_cur_patch objs a6) d KNOWN r])
      else if deferred_clone env d
      then ({| a0 := UNH_SYSCALL; a1 := UNH_CLONE |},
            [Ev_log (get_cur_patch objs a6) d UNKNOWN 0] ++ ev)
      else (syscall_no_intercept env d,
            [Ev_log (get_cur_patch objs a6) d UNKNOWN 0] ++ ev ++ [Ev_kernel d]
              ++ post_clone_events_of hk d (ret_a0 (syscall_no_intercept env d))
              ++ [Ev_log (get_cur_patch objs a6) d KNOWN
                    (ret_a0 (syscall_no_intercept env d))])) as Hbody.
  { intros f r ev. unfold deferred_clone, post_clone_events_of.
    destruct (nr d =? SYS_rt_sigreturn); [done|].
    destruct (f =? 0); cbn [negb]; [done|].
    destruct (nr d =? SYS_clone) eqn:Hc; cbn [andb orb].
    - destruct (negb (arg d 1 =? 0) || negb (Z.land (arg d 0) CLONE_VFORK =? 0));
        [done|].
      destruct ((nr d =? SYS_clone3)
                && negb (clone_args_stack env (arg d 0) =? 0)) eqn:H3; [|done].
      apply andb_true_iff in H3 as [H3 _].
      apply Z.eqb_eq in Hc, H3. rewrite Hc in H3. discriminate.
    - destruct (nr d =? SYS_clone3); cbn [andb]; [|done].
      by destruct (negb (clone_args_stack env (arg d 0) =? 0)). }
  destruct (intercept_hook_point hk) as [hook|].
  - rewrite Hhook. apply Hbody.
  - injection Hhook as <- <-. apply (Hbody 1 r0 []).
Qed.

(** X4.  A call that is forwarded (no hook, or the hook returns non-zero),
    that is neither [rt_sigreturn] nor a thread-creating clone, and that the
    magic handler declines: the routine returns the pair of the
    no-intercept primitive as it is, whatever the hook wrote into the
    result slot, and calls the kernel exactly once, after the hook. *)
Theorem forwarded_call_returns_kernel_pair objs env hk a0 a1 a2 a3 a4 a5 a6 a7
    magic r0 :
  handle_magic_syscalls env (desc_of a0 a1 a2 a3 a4 a5 a7) a0 = (magic, r0) →
  magic ≠ 0 →
  forwards hk (desc_of a0 a1 a2 a3 a4 a5 a7) r0 →
  to_int32 a7 ≠ SYS_rt_sigreturn →
  deferred_clone env (desc_of a0 a1 a2 a3 a4 a5 a7) = false →
  (intercept_routine objs env hk a0 a1 a2 a3 a4 a5 a6 a7).1
  = syscall_no_intercept env (desc_of a0 a1 a2 a3 a4 a5 a7)
  ∧ List.filter is_kernel_call
      (intercept_routine objs env hk a0 a1 a2 a3 a4 a5 a6 a7).2
    = [Ev_kernel (desc_of a0 a1 a2 a3 a4 a5 a7)]
  ∧ ∃ before after,
      (intercept_routine objs env hk a0 a1 a2 a3 a4 a5 a6 a7).2
      = before ++ [Ev_kernel (desc_of a0 a1 a2 a3 a4 a5 a7)] ++ after
      ∧ (∀ d, Ev_hook d ∉ after)
      ∧ last after
        = Some (Ev_log (get_cur_patch objs a6) (desc_of a0 a1 a2 a3 a4 a5 a7) KNOWN
                  (ret_a0 (syscall_no_intercept env (desc_of a0 a1 a2 a3 a4 a5 a7)))).
Proof.
  intros Hmagic Hm Hfwd Hsig Hdef.
  destruct (hook_outcome hk (desc_of a0 a1 a2 a3 a4 a5 a7) r0) as [ret r1] eqn:Hh.
  rewrite (intercept_routine_cases _ _ _ _ _ _ _ _ _ _ _ _ _ _ _ Hmagic Hh).
  cbv zeta. set (d := desc_of a0 a1 a2 a3 a4 a5 a7) in *.
  apply Z.eqb_neq in Hm. rewrite Hm.
  assert (nr d = to_int32 a7) as Hnr by done.
  rewrite Hnr. apply Z.eqb_neq in Hsig. rewrite Hsig.
  assert (ret ≠ 0) as Hret.
  { unfold forwards, hook_outcome in *.
    destruct (intercept_hook_point hk); [by rewrite Hh in Hfwd|].
    injection Hh as <- _. done. }
  apply Z.eqb_neq in Hret. rewrite Hret, Hdef. cbn [fst snd].
  assert (List.filter is_kernel_call (hook_events hk d) = []) as Hfh.
  { unfold hook_events. by destruct (intercept_hook_point hk). }
  assert (∀ v, List.filter is_kernel_call (post_clone_events_of hk d v) = []
               ∧ ∀ d', Ev_hook d' ∉ post_clone_events_of hk d v) as Hpost.
  { intros v. unfold post_clone_events_of, intercept_routine_post_clone.
    destruct (_ || _); [|split; [done|intros d'; apply not_elem_of_nil]].
    destruct (v =? 0);
      [destruct (intercept_hook_point_clone_child hk)
      |destruct (intercept_hook_point_clone_parent hk)];
      (split; [done|intros d' Hin]);
      try (by apply elem_of_nil in Hin);
      apply list_elem_of_singleton in Hin; discriminate. }
  split; [done|]. split.
  - rewrite !List.filter_app, Hfh, (proj1 (Hpost _)). done.
  - exists ([Ev_log (get_cur_patch objs a6) d UNKNOWN 0] ++ hook_events hk d).
    eexists. split; [by rewrite <- !app_assoc|].
    split.
    + intros d' Hin. apply elem_of_app in Hin as [Hin|Hin].
      * by apply (proj2 (Hpost (ret_a0 (syscall_no_intercept env d))) d').
      * apply list_elem_of_singleton in Hin. discriminate.
    + by rewrite last_snoc.
Qed.

(** X5.  [rt_sigreturn] that the magic handler declines: the hook, when
    installed, is still called, but whatever it answers the routine returns
    (UNH_SYSCALL, UNH_GENERIC); its trace is the UNKNOWN log entry and the
    hook call, with no kernel call and no KNOWN entry. *)
Theorem rt_sigreturn_always_deferred objs env hk a0 a1 a2 a3 a4 a5 a6 a7
    magic r0 :
  handle_magic_syscalls env (desc_of a0 a1 a2 a3 a4 a5 a7) a0 = (magic, r0) →
  magic ≠ 0 →
  to_int32 a7 = SYS_rt_sigreturn →
  intercept_routine objs env hk a0 a1 a2 a3 a4 a5 a6 a7
  = ({| a0 := -0x1000; a1 := -0x1001 |},
     [Ev_log (get_cur_patch objs a6) (desc_of a0 a1 a2 a3 a4 a5 a7) UNKNOWN 0]
     ++ hook_events hk (desc_of a0 a1 a2 a3 a4 a5 a7)).
Proof.
  intros Hmagic Hm Hsig.
  destruct (hook_outcome hk (desc_of a0 a1 a2 a3 a4 a5 a7) r0) as [ret r1] eqn:Hh.
  rewrite (intercept_routine_cases _ _ _ _ _ _ _ _ _ _ _ _ _ _ _ Hmagic Hh).
  cbv zeta. apply Z.eqb_neq in Hm. rewrite Hm.
  assert (nr (desc_of a0 a1 a2 a3 a4 a5 a7) = to_int32 a7) as -> by done.
  by rewrite Hsig.
Qed.

Lemma to_int32_periodic z k : to_int32 (z + k * 2 ^ 32) = to_int32 z.
Proof.
  unfold to_int32.
  replace (z + k * 2 ^ 32 + 2 ^ 31) with (z + 2 ^ 31 + k * 2 ^ 32) by lia.
  by rewrite Z_mod_plus_full.
Qed.

(** X6.  Only the low 32 bits of [a7] count: two calls whose [a7] differ by
    a multiple of 2^32 go the same way, with the same result and the same
    trace. *)
Theorem syscall_number_upper_bits_ignored objs env hk a0 a1 a2 a3 a4 a5 a6 a7 k :
  intercept_routine objs env hk a0 a1 a2 a3 a4 a5 a6 (a7 + k * 2 ^ 32)
  = intercept_routine objs env hk a0 a1 a2 a3 a4 a5 a6 a7.
Proof. unfold intercept_routine. by rewrite to_int32_periodic. Qed.

End RoutineMore.

(** X4 on [getpid] (172) with a hook that writes 42 into the result slot and
    forwards: the caller gets the kernel's 7. *)
Lemma forwarded_call_returns_kernel_pair_witness :
  (intercept_routine [] (plain_env 7) (const_hook 1 42) 0 0 0 0 0 0 0 172).1
  = {| a0 := 7; a1 := 0 |}
  ∧ List.filter is_kernel_call
      (intercept_routine [] (plain_env 7) (const_hook 1 42) 0 0 0 0 0 0 0 172).2
    = [Ev_kernel (desc_of 0 0 0 0 0 0 172)]
  ∧ ∃ before after,
      (intercept_routine [] (plain_env 7) (const_hook 1 42) 0 0 0 0 0 0 0 172).2
      = before ++ [Ev_kernel (desc_of 0 0 0 0 0 0 172)] ++ after
      ∧ (∀ d, Ev_hook d ∉ after)
      ∧ last after
        = Some (Ev_log None (desc_of 0 0 0 0 0 0 172) KNOWN 7).
Proof.
  apply (forwarded_call_returns_kernel_pair [] (plain_env 7) (const_hook 1 42)
           0 0 0 0 0 0 0 172 (-1) 0);
    [reflexivity | lia | unfold forwards; simpl; lia | vm_compute; lia
    | reflexivity].
Defined.

(** X5 with a hook that answers 42 and returns 0. *)
Lemma rt_sigreturn_always_deferred_witness :
  intercept_routine [] (plain_env 7) (const_hook 0 42) 0 0 0 0 0 0 0 139
  = ({| a0 := -0x1000; a1 := -0x1001 |},
     [Ev_log None (desc_of 0 0 0 0 0 0 139) UNKNOWN 0]
     ++ hook_events (const_hook 0 42) (desc_of 0 0 0 0 0 0 139)).
Proof.
  apply (rt_sigreturn_always_deferred [] (plain_env 7) (const_hook 0 42)
           0 0 0 0 0 0 0 139 (-1) 0); [reflexivity | lia | reflexivity].
Defined.

(** * Further properties of the patcher *)

Section WindowFacts.
Context `{InterceptHeader}.

Lemma check_two_ecalls_range patch syscall_idx start_idx second_ecall_idx :
  (start_idx ≤ syscall_idx < second_ecall_idx)%nat →
  (start_idx
   ≤ check_two_ecalls patch syscall_idx start_idx second_ecall_idx
   ≤ second_ecall_idx)%nat.
Proof.
  intros Hidx. unfold check_two_ecalls.
  set (instrs := surrounding_instrs patch).
  assert (∀ fits i,
            first_fit fits instrs (second_ecall_idx - start_idx) start_idx 0
            = Some i → (start_idx ≤ S i ≤ second_ecall_idx)%nat) as Hloop.
  { intros fits i Hf. apply first_fit_start_Some in Hf as (Hi & _). lia. }
  destruct (syscall_num patch <? 0).
  - destruct (first_fit (λ size, TYPE_MID_SIZE <=? size) instrs
                (second_ecall_idx - start_idx) start_idx 0) as [i|] eqn:H1;
      [by eapply Hloop|].
    destruct (first_fit _ instrs (S syscall_idx - start_idx) start_idx 0);
      [lia|].
    destruct (first_fit (is_SML_patchable patch) instrs
                (second_ecall_idx - start_idx) start_idx 0) as [i|] eqn:H3;
      [by eapply Hloop|lia].
  - destruct (first_fit _ instrs (S syscall_idx - start_idx) start_idx 0);
      [lia|].
    destruct (first_fit (is_SML_patchable patch) instrs
                (second_ecall_idx - start_idx) start_idx 0) as [i|] eqn:H3;
      [by eapply Hloop|lia].
Qed.

(** X7.  The span the two-ecalls helper answers starts at [start_idx] and
    ends at or before the second [ecall]: the second [ecall] is never part
    of it. *)
Theorem check_two_ecalls_bounds patch syscall_idx start_idx second_ecall_idx :
  (start_idx ≤ syscall_idx < second_ecall_idx)%nat →
  (start_idx
   ≤ check_two_ecalls patch syscall_idx start_idx second_ecall_idx
   ≤ second_ecall_idx)%nat.
Proof. apply check_two_ecalls_range. Qed.

Lemma scan_before_fields desc instrs i st :
  patch_end_idx (scan_before desc instrs i st) = patch_end_idx st
  ∧ (patch_start_idx (scan_before desc instrs i st) = S i
     ∨ (patch_start_idx (scan_before desc instrs i st) = patch_start_idx st
        ∧ is_copiable_before_syscall (instr_at instrs i) = true
        ∧ has_jump desc (address (instr_at instrs (S i))) = false)).
Proof.
  unfold scan_before.
  destruct (has_jump desc _) eqn:Hj; simpl; [split; [done|by left]|].
  destruct (is_copiable_before_syscall _) eqn:Hc; simpl;
    [split; [done|by right]|split; [done|by left]].
Qed.

(** The invariant of the window scan, entered at index [i] with [n]
    iterations left. *)
Lemma scan_window_invariant desc instrs sidx n i st :
  (patch_start_idx st ≤ i)%nat → (patch_start_idx st ≤ sidx)%nat →
  patch_end_idx st = (i + n)%nat →
  (∀ j, (patch_start_idx st ≤ j < i)%nat → (j < sidx)%nat →
        is_copiable_before_syscall (instr_at instrs j) = true
        ∧ has_jump desc (address (instr_at instrs (S j))) = false) →
  (∀ j, (sidx < j < i)%nat →
        is_copiable_after_syscall (instr_at instrs j) = true
        ∧ has_jump desc (address (instr_at instrs j)) = false) →
  let st' := scan_window desc instrs sidx n i st in
  (patch_start_idx st' ≤ sidx)%nat
  ∧ (patch_start_idx st' ≤ patch_end_idx st' ≤ i + n)%nat
  ∧ (∀ j, (patch_start_idx st' ≤ j < sidx)%nat → (j < i + n)%nat →
          is_copiable_before_syscall (instr_at instrs j) = true
          ∧ has_jump desc (address (instr_at instrs (S j))) = false)
  ∧ (∀ j, (sidx < j < patch_end_idx st')%nat →
          is_copiable_after_syscall (instr_at instrs j) = true
          ∧ has_jump desc (address (instr_at instrs j)) = false).
Proof.
  revert i st. induction n as [|n IH]; intros i st Hsi Hss Hend Hbefore Hafter; simpl.
  - rewrite Hend, Nat.add_0_r. split; [done|]. split; [lia|].
    split; [intros j Hj Hji; apply Hbefore; lia|].
    intros j Hj. apply Hafter. lia.
  - destruct (i <? sidx)%nat eqn:Hlt.
    + apply Nat.ltb_lt in Hlt.
      destruct (scan_before_fields desc instrs i st) as (He & Hs).
      replace (i + S n)%nat with (S i + n)%nat by lia.
      apply IH.
      * destruct Hs as [->|[-> _]]; lia.
      * destruct Hs as [->|[-> _]]; lia.
      * rewrite He, Hend. lia.
      * intros j Hj Hjs. destruct Hs as [Hs|(Hs & Hc & Hj')].
        -- rewrite Hs in Hj. lia.
        -- rewrite Hs in Hj. destruct (decide (j = i)) as [->|Hne]; [done|].
           apply Hbefore; lia.
      * intros j Hj. lia.
    + apply Nat.ltb_ge in Hlt.
      destruct (sidx <? i)%nat eqn:Hgt.
      * apply Nat.ltb_lt in Hgt.
        destruct (is_syscall (instr_at instrs i)) eqn:Hsys; simpl.
        { pose proof (check_two_ecalls_range (ws_patch st) sidx
                        (patch_start_idx st) i ltac:(lia)) as Hb.
          split; [done|]. split; [lia|].
          split; [intros j Hj Hji; apply Hbefore; lia|].
          intros j Hj. apply Hafter. lia. }
        destruct (negb (is_copiable_after_syscall (instr_at instrs i))
                  || has_jump desc (address (instr_at instrs i))) eqn:Hstop; simpl.
        { split; [done|]. split; [lia|].
          split; [intros j Hj Hji; apply Hbefore; lia|].
          intros j Hj. apply Hafter. lia. }
        apply orb_false_iff in Hstop as [Hc Hnj].
        apply negb_false_iff in Hc.
        replace (i + S n)%nat with (S i + n)%nat by lia.
        apply IH; [lia|done|lia| |].
        -- intros j Hj Hjs. apply Hbefore; lia.
        -- intros j Hjr. destruct (decide (j = i)) as [->|Hne]; [done|].
           apply Hafter. lia.
      * apply Nat.ltb_ge in Hgt. assert (i = sidx) as -> by lia.
        replace (sidx + S n)%nat with (S sidx + n)%nat by lia.
        apply IH; [lia|done|lia| |].
        -- intros j Hj Hjs. apply Hbefore; lia.
        -- intros j Hjr. lia.
Qed.

Lemma window_scan_invariants desc patch :
  let st := window_scan_of desc patch in
  let instrs := surrounding_instrs patch in
  (patch_start_idx st ≤ SYSCALL_IDX)%nat
  ∧ (patch_start_idx st ≤ patch_end_idx st ≤ SURROUNDING_INSTRS_NUM)%nat
  ∧ (∀ j, (patch_start_idx st ≤ j < SYSCALL_IDX)%nat →
          (j < SURROUNDING_INSTRS_NUM)%nat →
          is_copiable_before_syscall (instr_at instrs j) = true
          ∧ has_jump desc (address (instr_at instrs (S j))) = false)
  ∧ (∀ j, (SYSCALL_IDX < j < patch_end_idx st)%nat →
          is_copiable_after_syscall (instr_at instrs j) = true
          ∧ has_jump desc (address (instr_at instrs j)) = false).
Proof.
  cbv zeta. unfold window_scan_of.
  apply (scan_window_invariant desc (surrounding_instrs patch) SYSCALL_IDX
           SURROUNDING_INSTRS_NUM 0); simpl; try lia; intros; lia.
Qed.

(** X8.  What the window scan of [check_surrounding_instructions] leaves:
    the start index is at most the index of the [ecall], the end index lies
    between the start index and the size of the window (so the two
    subtractions on [uint8_t] indices do not wrap); every instruction kept
    before the [ecall] is copiable and no jump lands on its successor; every
    instruction kept after the [ecall] is copiable and no jump lands on
    it. *)
Theorem window_scan_keeps_copiable desc patch :
  let st := window_scan_of desc patch in
  let instrs := surrounding_instrs patch in
  (patch_start_idx st ≤ SYSCALL_IDX)%nat
  ∧ (patch_start_idx st ≤ patch_end_idx st ≤ SURROUNDING_INSTRS_NUM)%nat
  ∧ (∀ j, (patch_start_idx st ≤ j < SYSCALL_IDX)%nat →
          (j < SURROUNDING_INSTRS_NUM)%nat →
          is_copiable_before_syscall (instr_at instrs j) = true
          ∧ has_jump desc (address (instr_at instrs (S j))) = false)
  ∧ (∀ j, (SYSCALL_IDX < j < patch_end_idx st)%nat →
          is_copiable_after_syscall (instr_at instrs j) = true
          ∧ has_jump desc (address (instr_at instrs j)) = false).
Proof. apply window_scan_invariants. Qed.

End WindowFacts.

Section WindowSizeFacts.
Context `{InterceptHeader}.

Lemma measure_window_size instrs sidx n i base before after :
  (measure_window instrs sidx n i (to_uint8 base, before, after)).1.1
  = to_uint8 (base + foldr Z.add 0 ((λ j, length (instr_at instrs j)) <$> seq i n)).
Proof.
  revert i base before after. induction n as [|n IH]; intros i base before after.
  - simpl. by rewrite Z.add_0_r.
  - cbn [measure_window seq fmap list_fmap foldr].
    rewrite to_uint8_add_l.
    destruct (is_ra_used (instr_at instrs i)); [destruct (i <? sidx)%nat|];
      rewrite IH; f_equal; lia.
Qed.

Lemma instr_at_shift_left instrs start n k :
  (start + n ≤ List.length instrs)%nat → (k < n)%nat →
  instr_at (shift_left instrs start n) k = instr_at instrs (start + k).
Proof.
  intros Hlen Hk. unfold instr_at, shift_left.
  rewrite lookup_app_l by (rewrite length_take, length_drop; lia).
  by rewrite lookup_take_lt, lookup_drop by lia.
Qed.

Lemma span_bytes_shift_left instrs start n :
  (start + n ≤ List.length instrs)%nat →
  foldr Z.add 0 ((λ j, length (instr_at (shift_left instrs start n) j)) <$> seq 0 n)
  = foldr Z.add 0 ((λ j, length (instr_at instrs j)) <$> seq start n).
Proof.
  intros Hlen.
  replace (seq start n) with (seq (start + 0) n) by (by rewrite Nat.add_0_r).
  rewrite <- (fmap_add_seq start 0 n), <- list_fmap_compose.
  f_equal. apply list_fmap_ext. intros k j Hj.
  apply lookup_seq in Hj as [-> Hk]. simpl.
  by rewrite instr_at_shift_left by lia.
Qed.

(** X9.  On a window of [SURROUNDING_INSTRS_NUM] entries, the length
    [check_surrounding_instructions] returns is the byte size (as a
    [uint8_t]) of the instructions from the start index to the end index of
    its scan, 0 when the scan leaves none; the instructions it leaves at the
    front of the window are those, in order, and the [ecall] is at
    [SYSCALL_IDX] minus the start index. *)
Theorem check_surrounding_instructions_size desc patch :
  List.length (surrounding_instrs patch) = SURROUNDING_INSTRS_NUM →
  let st := window_scan_of desc patch in
  let res := check_surrounding_instructions desc patch in
  res.2 = (if (patch_start_idx st <? patch_end_idx st)%nat
           then span_size (surrounding_instrs patch) (patch_start_idx st)
                  (patch_end_idx st - 1)
           else 0)
  ∧ syscall_idx res.1 = (SYSCALL_IDX - patch_start_idx st)%nat
  ∧ syscall_num res.1 = syscall_num (ws_patch st)
  ∧ ∀ k, (k < patch_end_idx st - patch_start_idx st)%nat →
         instr_at (surrounding_instrs res.1) k
         = instr_at (surrounding_instrs patch) (patch_start_idx st + k).
Proof.
  intros Hlen. cbv zeta.
  destruct (window_scan_invariants desc patch) as (_ & Hbounds & _).
  cbv zeta in Hbounds.
  unfold check_surrounding_instructions. fold (window_scan_of desc patch).
  set (st := window_scan_of desc patch) in *.
  set (n := (patch_end_idx st - patch_start_idx st)%nat).
  destruct (n <? 1)%nat eqn:Hn.
  - apply Nat.ltb_lt in Hn.
    assert ((patch_start_idx st <? patch_end_idx st)%nat = false) as ->
      by (apply Nat.ltb_ge; lia).
    cbn [fst snd]. split; [done|]. split; [done|]. split; [done|].
    intros k Hk. lia.
  - apply Nat.ltb_ge in Hn.
    assert ((patch_start_idx st <? patch_end_idx st)%nat = true) as ->
      by (apply Nat.ltb_lt; lia).
    pose proof (measure_window_size
                  (shift_left (surrounding_instrs patch) (patch_start_idx st) n)
                  (SYSCALL_IDX - patch_start_idx st) n 0 0
                  (is_ra_used_before (ws_patch st))
                  (is_ra_used_after (ws_patch st))) as Hsize.
    change (to_uint8 0) with 0 in Hsize.
    destruct (measure_window _ _ n 0 _) as [[size before] after].
    cbn [fst snd] in *. split; [|split; [done|split; [done|]]].
    + rewrite Hsize, Z.add_0_l, span_bytes_shift_left by lia.
      unfold span_size, span_bytes.
      by replace (S (patch_end_idx st - 1) - patch_start_idx st)%nat with n
        by (unfold n; lia).
    + intros k Hk. simpl. apply instr_at_shift_left; lia.
Qed.

End WindowSizeFacts.

Section PlacementFacts.
Context `{InterceptHeader}.

Lemma position_patch_fields q :
  syscall_num (position_patch q) = syscall_num q
  ∧ return_register (position_patch q) = return_register q
  ∧ syscall_addr (position_patch q) = syscall_addr q
  ∧ surrounding_instrs (position_patch q) = surrounding_instrs q
  ∧ relocation_address (position_patch q) = relocation_address q.
Proof.
  unfold position_patch.
  destruct (if syscall_num q =? TYPE_GW then _ else _) as [[ret start] size].
  by destruct (if riscv_c then _ else _) as [sn en].
Qed.

(** The return address lies at a fixed distance from the start of the
    patch, by class. *)
Lemma position_patch_return_address q :
  return_address (position_patch q)
  = dst_jmp_patch (position_patch q)
    + (if syscall_num q =? TYPE_GW
       then MODIFY_SP_INS_SIZE + STORE_LOAD_INS_SIZE + JUMP_2GB_INS_SIZE
       else if syscall_num q =? TYPE_MID
       then MODIFY_SP_INS_SIZE + STORE_LOAD_INS_SIZE + JAL_INS_SIZE
       else JAL_INS_SIZE).
Proof.
  unfold position_patch.
  destruct (syscall_num q =? TYPE_GW); [|destruct (syscall_num q =? TYPE_MID)];
    cbv zeta; destruct (if riscv_c then _ else _) as [sn en]; simpl; lia.
Qed.

(** X10.  [position_patch] and the three copy routines agree on where a
    patch starts: the address [activate_patches] writes a patch from,
    which [copy_MID] and [copy_SML] recompute from [return_address], is the
    [dst_jmp_patch] that [position_patch] chose (moved back by the leading
    c.nop when there is one), also after [find_GW] has replaced
    [dst_jmp_patch] by the address of the gateway. *)
Theorem written_from_planned_start ref q :
  written_from (activation_of (resolved ref (position_patch q)))
  = Some (nop_shift (position_patch q) (dst_jmp_patch (position_patch q)))
  ∧ written_from (activation_of (position_patch q))
    = Some (nop_shift (position_patch q) (dst_jmp_patch (position_patch q))).
Proof.
  pose proof (position_patch_return_address q) as Hret.
  destruct (position_patch_fields q) as (Hnum & _).
  set (p := position_patch q) in *.
  assert (written_from (activation_of p) = Some (nop_shift p (dst_jmp_patch p)))
    as Hplain.
  { unfold activation_of, copy_GW, copy_MID, copy_SML. rewrite Hnum.
    destruct (syscall_num q =? TYPE_GW); [done|].
    destruct (syscall_num q =? TYPE_MID); simpl; do 2 f_equal; lia. }
  split; [|exact Hplain].
  unfold resolved. rewrite Hnum.
  destruct (syscall_num q =? TYPE_GW) eqn:Hgw; [exact Hplain|].
  destruct (find_GW_fields ref p) as (Hn & Hr & _).
  unfold activation_of, copy_GW, copy_MID, copy_SML, nop_shift.
  rewrite Hn, Hnum, Hgw, Hr.
  assert (start_with_c_nop (find_GW ref p) = start_with_c_nop p) as ->.
  { unfold find_GW. destruct (find_GW_loop _ _);
      destruct (syscall_num p =? TYPE_MID); done. }
  destruct (syscall_num q =? TYPE_MID); simpl;
    destruct (riscv_c && start_with_c_nop p); do 2 f_equal; lia.
Qed.

Lemma activate_loop_acts desc ps acts :
  activate_loop desc ps = Returned acts → acts = activation_of <$> ps.
Proof.
  revert acts. induction ps as [|p ps IH]; intros acts; simpl.
  - by intros [= <-].
  - destruct (_ || _); [done|].
    destruct (activate_loop desc ps) as [acts'|]; [|done].
    intros [= <-]. by rewrite (IH acts').
Qed.

(** X11.  When [activate_patches] completes on an object that has patches,
    what it did is, in this order: the trampoline written if the object
    uses one (before the text is made writable); the pages from the page of
    [text_start] to [text_end] made read-write-execute; one write per patch,
    in the order of the table; the instruction cache cleared and the same
    pages set back to read-execute. *)
Theorem activate_patches_trace desc acts :
  items desc ≠ [] →
  activate_patches desc = Returned acts →
  acts
  = (if uses_trampoline desc then [Act_trampoline (trampoline_address desc)] else [])
    ++ [Act_mprotect (round_down_address (text_start desc))
          (to_uint64 (text_end desc - round_down_address (text_start desc)))
          PROT_RWX]
    ++ (activation_of <$> items desc)
    ++ [Act_clear_cache (round_down_address (text_start desc))
          (round_down_address (text_start desc)
           + to_uint64 (text_end desc - round_down_address (text_start desc)));
        Act_mprotect (round_down_address (text_start desc))
          (to_uint64 (text_end desc - round_down_address (text_start desc)))
          PROT_RX].
Proof.
  intros Hne. unfold activate_patches.
  destruct (items desc) as [|p ps] eqn:Hitems; [done|].
  destruct (activate_loop desc (p :: ps)) as [acts'|] eqn:Hloop; [|done].
  intros [= <-]. by rewrite (activate_loop_acts _ _ _ Hloop).
Qed.

End PlacementFacts.

(** X11 on [three_sites] as [create_patch] leaves it. *)
Lemma activate_patches_trace_witness :
  acts_of (activate_patches (H := sample_header)
             (planned (create_patch (H := sample_header) three_sites 0x900000)))
  = [Act_mprotect 0x10000 0x10000 PROT_RWX]
    ++ (activation_of (H := sample_header)
          <$> items (planned (create_patch (H := sample_header) three_sites 0x900000)))
    ++ [Act_clear_cache 0x10000 0x20000;
        Act_mprotect 0x10000 0x10000 PROT_RX].
Proof.
  refine (eq_trans
    (activate_patches_trace (H := sample_header)
       (planned (create_patch (H := sample_header) three_sites 0x900000))
       (acts_of (activate_patches (H := sample_header)
          (planned (create_patch (H := sample_header) three_sites 0x900000))))
       _ _) _).
  - vm_compute. discriminate.
  - vm_compute. reflexivity.
  - vm_compute. reflexivity.
Defined.

Section CreatePatchFacts.
Context `{InterceptHeader}.

Lemma position_patch_size q :
  syscall_num q = TYPE_GW →
  patch_size_bytes (position_patch q) = to_uint8 TYPE_GW_SIZE.
Proof.
  intros Hgw. unfold position_patch.
  apply Z.eqb_eq in Hgw. rewrite Hgw. cbv zeta.
  by destruct (if riscv_c then _ else _) as [sn en].
Qed.

Lemma check_surrounding_instructions_num desc patch :
  syscall_num (check_surrounding_instructions desc patch).1
  = syscall_num (ws_patch (window_scan_of desc patch)).
Proof.
  unfold check_surrounding_instructions. fold (window_scan_of desc patch).
  destruct (_ <? 1)%nat; [done|].
  by destruct (measure_window _ _ _ _ _) as [[? ?] ?].
Qed.

Lemma relocate_instrs_patch p dst :
  (relocate_instrs p dst).1 = set_relocation_address dst p.
Proof.
  unfold relocate_instrs. by destruct (if riscv_c then _ else _) as [a sz].
Qed.

(** One iteration of the first loop: the patch at the index is replaced by
    a planned patch, the text extent stays. *)
Lemma create_patch_step_planned desc patch_i patch dst desc' dst' :
  create_patch_step desc patch_i patch dst = Returned (desc', dst') →
  ∃ p, items desc' = <[patch_i := p]> (items desc) ∧ planned_patch p
       ∧ text_start desc' = text_start desc ∧ text_end desc' = text_end desc.
Proof.
  unfold create_patch_step.
  destruct (check_surrounding_instructions desc patch) as [patch1 len] eqn:Hcheck.
  set (classified := if TYPE_GW_SIZE <=? len then _ else _).
  destruct classified as [patch2|] eqn:Hclass; [|done].
  assert (((syscall_num patch2 = TYPE_GW ∨ syscall_num patch2 = TYPE_MID)
           ∧ return_register patch2 = REG_RA)
          ∨ 0 ≤ syscall_num patch2) as Hkind.
  { unfold classified in Hclass.
    destruct (TYPE_GW_SIZE <=? len); [injection Hclass as <-; left; by split; [left|]|].
    destruct (TYPE_MID_SIZE <=? len); [injection Hclass as <-; left; by split; [right|]|].
    destruct (is_SML_patchable patch1 len) eqn:Hsml; [|done].
    injection Hclass as <-. right.
    unfold is_SML_patchable in Hsml.
    destruct (syscall_num patch1 <? 0) eqn:Hneg; [done|].
    by apply Z.ltb_ge in Hneg. }
  destruct (relocate_instrs (position_patch patch2) dst) as [patch4 dst1] eqn:Hrel.
  intros [= <- <-].
  assert (patch4 = set_relocation_address dst (position_patch patch2)) as ->.
  { by rewrite <- (relocate_instrs_patch (position_patch patch2) dst), Hrel. }
  eexists. split; [reflexivity|]. split; [|done].
  destruct (position_patch_fields patch2) as (Hn & Hrr & _).
  split; [done|]. split.
  - simpl. by rewrite Hn, Hrr.
  - simpl. rewrite Hn. intros Hgw.
    rewrite position_patch_return_address, (position_patch_size _ Hgw).
    apply Z.eqb_eq in Hgw. rewrite Hgw. split; [lia|done].
Qed.

Lemma create_patch_loop_planned n patch_i desc dst desc' dst' :
  create_patch_loop n patch_i desc dst = Returned (desc', dst') →
  (patch_i + n = List.length (items desc))%nat →
  (∀ j p, (j < patch_i)%nat → items desc !! j = Some p → planned_patch p) →
  List.length (items desc') = List.length (items desc)
  ∧ (∀ p, p ∈ items desc' → planned_patch p)
  ∧ text_start desc' = text_start desc ∧ text_end desc' = text_end desc.
Proof.
  revert patch_i desc dst.
  induction n as [|n IH]; intros patch_i desc dst Hloop Hlen Hdone; simpl in Hloop.
  - injection Hloop as <- <-. split; [done|]. split; [|done].
    intros p [j Hj]%list_elem_of_lookup_1.
    apply (Hdone j p); [|done]. apply lookup_lt_Some in Hj. lia.
  - destruct (items desc !! patch_i) as [patch|] eqn:Hp.
    2: { apply lookup_ge_None in Hp. lia. }
    destruct (create_patch_step desc patch_i patch dst) as [[desc1 dst1]|] eqn:Hstep;
      [|done].
    destruct (create_patch_step_planned _ _ _ _ _ _ Hstep)
      as (p & Hitems & Hplanned & Hts & Hte).
    destruct (IH _ _ _ Hloop) as (Hl & Hall & Hts' & Hte').
    + rewrite Hitems, length_insert. lia.
    + intros j q Hj Hq. rewrite Hitems in Hq.
      destruct (decide (j = patch_i)) as [->|Hne].
      * rewrite list_lookup_insert_eq in Hq by (apply lookup_lt_Some in Hp; lia).
        by injection Hq as <-.
      * rewrite list_lookup_insert_ne in Hq by done.
        apply (Hdone j q); [lia|done].
    + rewrite Hl, Hitems, length_insert. split; [done|]. split; [done|].
      split; congruence.
Qed.

Lemma find_GW_all_text n patch_i desc :
  text_start (find_GW_all n patch_i desc) = text_start desc
  ∧ text_end (find_GW_all n patch_i desc) = text_end desc.
Proof.
  revert patch_i desc. induction n as [|n IH]; intros patch_i desc; simpl; [done|].
  destruct (items desc !! patch_i) as [patch|]; [|done].
  destruct (IH (S patch_i)
              (if negb (syscall_num patch =? TYPE_GW)
               then set_items (<[patch_i:=find_GW desc patch]> (items desc)) desc
               else desc)) as [-> ->].
  by destruct (negb _).
Qed.

Lemma resolved_planned ref p : planned_patch p → planned_patch (resolved ref p).
Proof.
  intros (Hw & Hkind & Hgw). unfold resolved.
  destruct (syscall_num p =? TYPE_GW) eqn:Htag; [done|].
  apply Z.eqb_neq in Htag.
  destruct (find_GW_fields ref p) as (Hn & _).
  assert (surrounding_instrs (find_GW ref p) = surrounding_instrs p
          ∧ return_register (find_GW ref p) = return_register p) as [Hs Hrr].
  { unfold find_GW. destruct (find_GW_loop _ _);
      destruct (syscall_num p =? TYPE_MID); done. }
  split; [congruence|]. split; [by rewrite Hn, Hrr|].
  rewrite Hn. done.
Qed.

(** X12.  When [create_patch] completes on an object, the object has as
    many patches as before and the same text extent, and every patch is
    planned: its window is freed; it carries [TYPE_GW] or [TYPE_MID] and
    returns through [ra], or it keeps a syscall number that is not
    negative; and every patch tagged [TYPE_GW] has the size of its class and
    its return address [MODIFY_SP_INS_SIZE + STORE_LOAD_INS_SIZE +
    JUMP_2GB_INS_SIZE] bytes after its start. *)
Theorem create_patch_leaves_planned desc dst desc' dst' :
  create_patch desc dst = Returned (desc', dst') →
  List.length (items desc') = List.length (items desc)
  ∧ (∀ p, p ∈ items desc' → planned_patch p)
  ∧ text_start desc' = text_start desc ∧ text_end desc' = text_end desc.
Proof.
  intros Hcreate.
  destruct (create_patch_items _ _ _ _ Hcreate) as (desc1 & Hloop & Hitems).
  destruct (create_patch_loop_planned _ _ _ _ _ _ Hloop) as (Hl & Hall & Hts & Hte);
    [lia|intros; lia|].
  split; [by rewrite Hitems, length_fmap|]. split.
  - intros p Hp. rewrite Hitems in Hp.
    apply list_elem_of_fmap in Hp as (q & -> & Hq).
    apply resolved_planned, Hall, Hq.
  - unfold create_patch in Hcreate. rewrite Hloop in Hcreate.
    assert (desc' = find_GW_all (List.length (items desc1)) 0 desc1) as ->
      by congruence.
    destruct (find_GW_all_text (List.length (items desc1)) 0 desc1) as [-> ->].
    done.
Qed.

End CreatePatchFacts.

(** X12 on [three_sites]. *)
Lemma create_patch_leaves_planned_witness :
  List.length (items (planned (create_patch (H := sample_header) three_sites 0x900000)))
  = List.length (items three_sites)
  ∧ (∀ p, p ∈ items (planned (create_patch (H := sample_header) three_sites 0x900000)) →
          planned_patch (H := sample_header) p)
  ∧ text_start (planned (create_patch (H := sample_header) three_sites 0x900000))
    = text_start three_sites
  ∧ text_end (planned (create_patch (H := sample_header) three_sites 0x900000))
    = text_end three_sites.
Proof.
  apply (create_patch_leaves_planned (H := sample_header) three_sites 0x900000
           (planned (create_patch (H := sample_header) three_sites 0x900000))
           (cursor (create_patch (H := sample_header) three_sites 0x900000))).
  vm_compute. reflexivity.
Defined.

(** X7 on the window with two [ecall]s. *)
Lemma check_two_ecalls_bounds_witness :
  (0 ≤ check_two_ecalls (H := sample_header)
         (mk_site 0x10600 (-1) (two_ecalls_window 0x10600)) 6 0 8
   ≤ 8)%nat.
Proof.
  apply (check_two_ecalls_bounds (H := sample_header)
           (mk_site 0x10600 (-1) (two_ecalls_window 0x10600)) 6 0 8). lia.
Defined.

(** X9 on the third site of [three_sites]: twenty bytes are left. *)
Lemma check_surrounding_instructions_size_witness :
  (check_surrounding_instructions (H := sample_header) three_sites
     (mk_site 0x10600 (-1) (tight_window 0x10600))).2
  = 20.
Proof.
  destruct (check_surrounding_instructions_size (H := sample_header) three_sites
              (mk_site 0x10600 (-1) (tight_window 0x10600)) ltac:(reflexivity))
    as [Hsize _].
  refine (eq_trans Hsize _). vm_compute. reflexivity.
Defined.

(** ** The object enumerator *)

Section StringFacts.

Lemma strrchr_None s c : strrchr s c = None → str_mem c s = false.
Proof.
  induction s as [|x s IH]; simpl; [done|].
  destruct (strrchr s c) eqn:Hs; [done|].
  destruct (Ascii.eqb x c) eqn:Hx; [done|]. intros _.
  rewrite Ascii.eqb_sym, Hx. by apply IH.
Qed.

Lemma strrchr_Some s c t :
  strrchr s c = Some t →
  ∃ pre rest, s = String.append pre (String c rest) ∧ t = String c rest
              ∧ str_mem c rest = false.
Proof.
  revert t. induction s as [|x s IH]; simpl; intros t; [done|].
  destruct (strrchr s c) as [t'|] eqn:Hs.
  - intros [= <-]. destruct (IH _ eq_refl) as (pre & rest & -> & -> & Hno).
    by exists (String x pre), rest.
  - destruct (Ascii.eqb x c) eqn:Hx; [|done]. intros [= <-].
    apply Ascii.eqb_eq in Hx as ->.
    exists EmptyString, s. split_and!; [done..|]. by apply strrchr_None.
Qed.

Lemma strcspn_le s r : (strcspn s r ≤ String.length s)%nat.
Proof.
  induction s as [|c s IH]; simpl; [lia|]. destruct (str_mem c r); simpl; lia.
Qed.

Lemma str_match_substring name n expected :
  (n ≤ String.length name)%nat →
  str_match name n expected = true ↔ String.substring 0 n name = expected.
Proof.
  unfold str_match. revert name expected.
  induction n as [|n IH]; intros name expected Hn.
  - destruct name, expected; simpl; split; done.
  - destruct name as [|x name]; simpl in Hn; [lia|].
    destruct expected as [|y expected]; simpl; [split; done|].
    specialize (IH name expected ltac:(lia)).
    rewrite andb_true_iff in IH.
    rewrite !andb_true_iff, Ascii.eqb_eq.
    split.
    + intros (Hl & -> & Hc). f_equal. apply IH. done.
    + intros [= -> Hs]. apply IH in Hs as [? ?]. done.
Qed.

Lemma str_match_stem p expected :
  str_match (get_lib_short_name p) (strcspn (get_lib_short_name p) "-.") expected
  = true ↔ stem p = expected.
Proof. apply str_match_substring, strcspn_le. Qed.

Lemma stem_empty p :
  strcspn (get_lib_short_name p) "-." = 0%nat ↔ stem p = EmptyString.
Proof.
  unfold stem. generalize (get_lib_short_name p). intros [|c name]; simpl.
  - split; done.
  - destruct (str_mem c "-.") eqn:Hc; simpl in Hc; rewrite Hc; split; done.
Qed.

End StringFacts.

(** X13.  [get_lib_short_name] splits a path at its last ['/']: the path is
    a directory part, empty or ending in ['/'], followed by the short name,
    and the short name holds no ['/']. *)
Theorem get_lib_short_name_splits (name : string) :
  ∃ dir, name = String.append dir (get_lib_short_name name)
         ∧ str_mem slash (get_lib_short_name name) = false
         ∧ (dir = EmptyString
            ∨ ∃ d, dir = String.append d (String slash EmptyString)).
Proof.
  unfold get_lib_short_name.
  destruct (strrchr name slash) as [t|] eqn:Hs.
  - destruct (strrchr_Some _ _ _ Hs) as (pre & rest & -> & -> & Hno).
    exists (String.append pre (String slash EmptyString)).
    split_and!; [|done|right; by exists pre].
    clear. induction pre as [|x pre IH]; [done|].
    change (String x (String.append pre (String slash rest))
            = String x (String.append (String.append pre (String slash EmptyString))
                          rest)).
    by f_equal.
  - exists EmptyString. split_and!; [done| |by left].
    assert (str_mem slash name = false) as Hno by by apply strrchr_None.
    by destruct name.
Qed.

Section ShouldPatchFacts.

Lemma str_match_stem_false p expected :
  str_match (get_lib_short_name p) (strcspn (get_lib_short_name p) "-.") expected
  = false ↔ stem p ≠ expected.
Proof.
  rewrite <- str_match_stem. destruct (str_match _ _ _); split; done.
Qed.

Lemma should_patch_object_cases g vdso_addr dladdr st addr p b st' out :
  should_patch_object g vdso_addr dladdr st addr p = Returned (b, st', out) →
  (b = true ↔ target g vdso_addr (self_addr st') addr p)
  ∧ (libc_found st' = true
     ↔ libc_found st = true ∨ (b = true ∧ stem p = "libc"))
  ∧ (self_addr st' = self_addr st
     ∨ (self_addr st = 0 ∧ dladdr = Some (self_addr st')))
  ∧ next_path st' = next_path st ∧ objs st' = objs st.
Proof.
  unfold should_patch_object, target.
  destruct (if self_addr st =? 0 then dladdr else Some (self_addr st))
    as [self|] eqn:Hself; [|done].
  assert (self = self_addr st ∨ (self_addr st = 0 ∧ dladdr = Some self)) as Hsa.
  { destruct (Z.eqb_spec (self_addr st) 0); [right|left]; [done|congruence]. }
  destruct (is_vdso vdso_addr addr p) eqn:Hv.
  { intros [= <- <- <-]. simpl. intuition congruence. }
  destruct (Nat.eqb_spec (strcspn (get_lib_short_name p) "-.") 0) as [H0|H0].
  { apply stem_empty in H0. intros [= <- <- <-]. simpl. intuition congruence. }
  rewrite stem_empty in H0.
  destruct (Z.eqb_spec addr self) as [Ha|Ha].
  { intros [= <- <- <-]. simpl. intuition congruence. }
  destruct (str_match _ _ "libcapstone") eqn:Hcaps.
  { apply str_match_stem in Hcaps. intros [= <- <- <-]. simpl.
    intuition congruence. }
  apply str_match_stem_false in Hcaps.
  destruct (str_match _ _ "libc") eqn:Hlibc.
  { apply str_match_stem in Hlibc. intros [= <- <- <-]. simpl.
    intuition congruence. }
  apply str_match_stem_false in Hlibc.
  destruct (patch_all_objs g) eqn:Hall.
  { intros [= <- <- <-]. simpl. intuition congruence. }
  destruct (str_match _ _ "libpthread") eqn:Hpthr.
  { apply str_match_stem in Hpthr. intros [= <- <- <-]. simpl.
    intuition congruence. }
  apply str_match_stem_false in Hpthr.
  intros [= <- <- <-]. simpl. intuition congruence.
Qed.

(** X14.  What [should_patch_object] answers when it returns: an object is
    accepted exactly when it is a target (not the vdso, with a stem, not
    loaded where the library itself is, not capstone, and libc, libpthread
    or anything under [patch_all_objs]); [libc_found] is raised by an
    accepted libc and never lowered; [self_addr] is kept once it is
    non-zero; the other statics are untouched. *)
Theorem should_patch_object_decision g vdso_addr dladdr st addr p b st' out :
  should_patch_object g vdso_addr dladdr st addr p = Returned (b, st', out) →
  (b = true ↔ target g vdso_addr (self_addr st') addr p)
  ∧ (libc_found st' = true
     ↔ libc_found st = true ∨ (b = true ∧ stem p = "libc"))
  ∧ (self_addr st' = self_addr st
     ∨ (self_addr st = 0 ∧ dladdr = Some (self_addr st')))
  ∧ next_path st' = next_path st ∧ objs st' = objs st.
Proof. apply should_patch_object_cases. Qed.

End ShouldPatchFacts.

(** X14 on the C library of a riscv64 system, with the vdso at [0x7000] and
    the interceptor itself at [0x5000]. *)
Lemma should_patch_object_decision_witness :
  target globals_init 0x7000 0x5000 0x1000 "/lib/riscv64-linux-gnu/libc.so.6".
Proof.
  destruct (should_patch_object_decision globals_init 0x7000 (Some 0x5000)
              enum_init 0x1000 "/lib/riscv64-linux-gnu/libc.so.6" true
              (set_libc_found true (set_self_addr 0x5000 enum_init)) [])
    as (Hb & _); [vm_compute; reflexivity|].
  exact (proj1 Hb eq_refl).
Defined.

Section ObjectPathFacts.

Lemma proc_maps_loop_Some addr lines p :
  proc_maps_loop addr lines = Some p
  ↔ ∃ pre s e post,
      lines = pre ++ Some (s, e, p) :: post ∧ s ≤ addr < e
      ∧ ∀ s' e' p', Some (s', e', p') ∈ pre → s' ≤ addr ∧ e' ≤ addr.
Proof.
  split.
  - induction lines as [|[[[s e] q]|] lines IH]; simpl; [done| |].
    + destruct (Z.ltb_spec addr s) as [Hlt|Hge]; [done|].
      destruct (Z.leb_spec s addr) as [_|?]; [|lia].
      destruct (Z.ltb_spec addr e) as [Hin|Hout]; simpl.
      * intros [= ->]. exists [], s, e, lines. split_and!; [done|lia|lia|].
        intros s' e' p' Hel. by apply elem_of_nil in Hel.
      * intros Hrest. destruct (IH Hrest) as (pre & s1 & e1 & post & -> & Hin & Hpre).
        exists (Some (s, e, q) :: pre), s1, e1, post. split_and!; [done|lia|lia|].
        intros s' e' p' Hel. apply elem_of_cons in Hel as [[= -> -> ->]|Hel];
          [lia|by eapply Hpre].
    + intros Hrest. destruct (IH Hrest) as (pre & s1 & e1 & post & -> & Hin & Hpre).
      exists (None :: pre), s1, e1, post. split_and!; [done|lia|lia|].
      intros s' e' p' Hel. apply elem_of_cons in Hel as [?|Hel];
        [done|by eapply Hpre].
  - intros (pre & s & e & post & -> & Hin & Hpre).
    induction pre as [|[[[s' e'] q]|] pre IH]; simpl.
    + destruct (Z.ltb_spec addr s); [lia|].
      destruct (Z.leb_spec s addr); [|lia].
      destruct (Z.ltb_spec addr e); [done|lia].
    + destruct (Hpre s' e' q) as [Hs He]; [by left|].
      destruct (Z.ltb_spec addr s'); [lia|].
      destruct (Z.leb_spec s' addr); [|lia].
      destruct (Z.ltb_spec addr e'); [lia|]. simpl.
      apply IH. intros s1 e1 p1 Hel. apply (Hpre s1 e1 p1). by right.
    + apply IH. intros s1 e1 p1 Hel. apply (Hpre s1 e1 p1). by right.
Qed.

Lemma get_name_from_proc_maps_Some maps st addr p st' :
  get_name_from_proc_maps maps st addr = (Some p, st')
  ↔ next_path st < sizeof_paths - sizeof_line
    ∧ st' = set_next_path (next_path st + Z.of_nat (String.length p) + 1) st
    ∧ ∃ lines pre s e post,
        maps = Some lines
        ∧ lines = pre ++ Some (s, e, p) :: post ∧ s ≤ addr < e
        ∧ ∀ s' e' p', Some (s', e', p') ∈ pre → s' ≤ addr ∧ e' ≤ addr.
Proof.
  unfold get_name_from_proc_maps.
  destruct (Z.leb_spec (sizeof_paths - sizeof_line) (next_path st)) as [Hfull|Hroom].
  { split; [done|]. intros (? & _). lia. }
  destruct maps as [lines|].
  - destruct (proc_maps_loop addr lines) as [q|] eqn:Hloop.
    + split.
      * intros [= -> <-]. split_and!; [done..|].
        apply proc_maps_loop_Some in Hloop
          as (pre & s & e & post & Hl & Hin & Hpre).
        by exists lines, pre, s, e, post.
      * intros (_ & -> & lines' & pre & s & e & post & [= <-] & Hl & Hin & Hpre).
        assert (proc_maps_loop addr lines = Some p) as Hp.
        { apply proc_maps_loop_Some. by exists pre, s, e, post. }
        congruence.
    + split; [done|].
      intros (_ & _ & lines' & pre & s & e & post & [= <-] & Hl & Hin & Hpre).
      assert (proc_maps_loop addr lines = Some p) as Hp.
      { apply proc_maps_loop_Some. by exists pre, s, e, post. }
      congruence.
  - split; [done|]. by intros (_ & _ & ? & ? & ? & ? & ? & ? & _).
Qed.

(** X15.  [get_name_from_proc_maps] finds a path exactly when [paths] has
    room for a line, the maps file opens, and the file has a line whose
    range covers the address with no parsed line before it starting above
    the address or covering it; the path is that line's, and [next_path]
    moves past it and its NUL. *)
Theorem get_name_from_proc_maps_found maps st addr p st' :
  get_name_from_proc_maps maps st addr = (Some p, st')
  ↔ next_path st < sizeof_paths - sizeof_line
    ∧ st' = set_next_path (next_path st + Z.of_nat (String.length p) + 1) st
    ∧ ∃ lines pre s e post,
        maps = Some lines
        ∧ lines = pre ++ Some (s, e, p) :: post ∧ s ≤ addr < e
        ∧ ∀ s' e' p', Some (s', e', p') ∈ pre → s' ≤ addr ∧ e' ≤ addr.
Proof. apply get_name_from_proc_maps_Some. Qed.

(** X16.  [get_object_path] never moves [next_path] back nor past the end
    of [paths], given that each pathname of the maps file fits the line
    buffer it was read into; a call that finds no path leaves the statics
    as they were, and no call touches [self_addr], [libc_found] or
    [objs]. *)
Theorem get_object_path_keeps_paths maps st info r st' :
  0 ≤ next_path st ≤ sizeof_paths →
  lines_fit maps →
  get_object_path maps st info = (r, st') →
  next_path st ≤ next_path st' ≤ sizeof_paths
  ∧ (r = None → st' = st)
  ∧ self_addr st' = self_addr st ∧ libc_found st' = libc_found st
  ∧ objs st' = objs st.
Proof.
  intros Hb Hfit. unfold get_object_path.
  assert (∀ addr, get_name_from_proc_maps maps st addr = (r, st') →
            next_path st ≤ next_path st' ≤ sizeof_paths
            ∧ (r = None → st' = st)
            ∧ self_addr st' = self_addr st ∧ libc_found st' = libc_found st
            ∧ objs st' = objs st) as Hmaps.
  { intros addr Hget. destruct r as [p|].
    - apply get_name_from_proc_maps_Some in Hget
        as (Hroom & -> & lines & pre & s & e & post & Hm & Hl & _).
      assert (Z.of_nat (String.length p) < sizeof_line) as Hlen.
      { apply (Hfit lines s e p Hm). rewrite Hl.
        apply elem_of_app. right. by left. }
      simpl. split_and!; [lia|lia|done..].
    - revert Hget. unfold get_name_from_proc_maps.
      destruct (_ <=? _); [intros [= <-]; split_and!; [lia|lia|done..]|].
      destruct maps as [lines|]; [|intros [= <-]; split_and!; [lia|lia|done..]].
      destruct (proc_maps_loop addr lines); [done|].
      intros [= <-]; split_and!; [lia|lia|done..]. }
  destruct (dlpi_name info) as [[|c rest]|].
  - destruct (_ =? 0); [intros [= <- <-]; split_and!; [lia|lia|done..]|].
    apply Hmaps.
  - intros [= <- <-]. split_and!; [lia|lia|done..].
  - destruct (_ =? 0); [intros [= <- <-]; split_and!; [lia|lia|done..]|].
    apply Hmaps.
Qed.

End ObjectPathFacts.

(** X16 on an object reported without a name and found in the maps file. *)
Lemma get_object_path_keeps_paths_witness :
  (get_object_path sample_maps enum_init unnamed_libc).1
  = Some "/lib/riscv64-linux-gnu/libc.so.6"
  ∧ next_path (get_object_path sample_maps enum_init unnamed_libc).2 = 33
  ∧ 33 ≤ sizeof_paths.
Proof.
  split; [reflexivity|]. split; [reflexivity|].
  refine (proj2 (proj1 (get_object_path_keeps_paths sample_maps enum_init
                          unnamed_libc _ _ _ _ eq_refl))).
  - vm_compute. split; discriminate.
  - intros lines s e p [= <-] Hel.
    repeat (apply elem_of_cons in Hel as [Hel|Hel];
            [first [discriminate Hel | injection Hel as -> -> ->; reflexivity]|]).
    by apply elem_of_nil in Hel.
Defined.

(** ** analyze_object and the constructor *)

Section EnumerationFacts.
Context `{InterceptHeader}.
Variable find_syscalls : intercept_desc → intercept_desc.
Variable allocate_trampoline : intercept_desc → intercept_desc.

Lemma get_any_used_vaddr_loop_none base pheaders :
  Forall (λ ph, loadable ph = false) pheaders →
  get_any_used_vaddr_loop base pheaders = 0.
Proof.
  induction 1 as [|ph pheaders Hph _ IH]; simpl; [done|].
  unfold loadable in Hph. by rewrite Hph.
Qed.

(** X17.  An object that [dl_iterate_phdr] reports without a name and
    without a [PT_LOAD] segment of non-zero size is passed over: the maps
    file is not searched, [dladdr] is not consulted, the statics stay as
    they are. *)
Theorem analyze_object_skips_unmapped g vdso_addr dladdr maps st info :
  nameless info →
  Forall (λ ph, loadable ph = false) (dlpi_phdr info) →
  analyze_object find_syscalls g vdso_addr dladdr maps st info = Returned st.
Proof.
  intros Hname Hnone. unfold analyze_object, get_object_path, get_any_used_vaddr.
  rewrite (get_any_used_vaddr_loop_none _ _ Hnone).
  by destruct Hname as [-> | ->].
Qed.

Lemma should_patch_object_settles g vdso_addr dladdr st addr p b st' out :
  should_patch_object g vdso_addr dladdr st addr p = Returned (b, st', out) →
  settled dladdr st'
  ∧ (settled dladdr st → self_addr st' = self_addr st).
Proof.
  unfold should_patch_object, settled.
  destruct (if self_addr st =? 0 then dladdr else Some (self_addr st))
    as [self|] eqn:Hself; [|done].
  intros Hret.
  assert (self_addr st' = self) as Hst'.
  { repeat match type of Hret with
           | (if ?c then _ else _) = _ => destruct c
           end; by injection Hret as <- <- <-. }
  rewrite Hst'. split; [|congruence].
  destruct (Z.eqb_spec self 0) as [->|Hn]; [|done].
  destruct (Z.eqb_spec (self_addr st) 0); congruence.
Qed.

Lemma analyze_object_cases g vdso_addr dladdr maps st info st' :
  analyze_object find_syscalls g vdso_addr dladdr maps st info = Returned st' →
  ∃ r st1, get_object_path maps st info = (r, st1)
    ∧ ((r = None ∧ st' = st1)
       ∨ ∃ p b st2 out,
           r = Some p
           ∧ should_patch_object g vdso_addr dladdr st1 (dlpi_addr info) p
             = Returned (b, st2, out)
           ∧ ((b = false ∧ st' = st2)
              ∨ (b = true
                 ∧ st' = set_objs
                           (objs st2
                            ++ [find_syscalls (new_obj_desc (dlpi_addr info) p)])
                           st2))).
Proof.
  unfold analyze_object.
  destruct (get_object_path maps st info) as [[p|] st1] eqn:Hpath.
  - destruct (should_patch_object _ _ _ _ _ _) as [[[[|] st2] out]|] eqn:Hsp;
      [| |done].
    + intros [= <-]. exists (Some p), st1. split; [done|]. right.
      exists p, true, st2, out. split_and!; [done..|]. by right.
    + intros [= <-]. exists (Some p), st1. split; [done|]. right.
      exists p, false, st2, out. split_and!; [done..|]. by left.
  - intros [= <-]. exists None, st1. split; [done|]. by left.
Qed.

Lemma get_object_path_statics maps st info r st1 :
  get_object_path maps st info = (r, st1) →
  self_addr st1 = self_addr st ∧ libc_found st1 = libc_found st
  ∧ objs st1 = objs st.
Proof.
  unfold get_object_path, get_name_from_proc_maps.
  repeat match goal with
         | |- context [match ?c with _ => _ end] => destruct c
         end; by intros [= <- <-].
Qed.

Lemma analyze_object_self g vdso_addr dladdr maps st info st' :
  analyze_object find_syscalls g vdso_addr dladdr maps st info = Returned st' →
  settled dladdr st → settled dladdr st' ∧ self_addr st' = self_addr st.
Proof.
  intros Han Hset.
  destruct (analyze_object_cases _ _ _ _ _ _ _ Han)
    as (r & st1 & Hpath
        & [[_ ->] | (p & b & st2 & out & _ & Hsp & [[_ ->] | [_ ->]])]);
    destruct (get_object_path_statics _ _ _ _ _ Hpath) as (Hself & _ & _).
  - unfold settled in *. by rewrite Hself.
  - destruct (should_patch_object_settles _ _ _ _ _ _ _ _ _ Hsp) as [Hs Hk].
    split; [done|]. rewrite <- Hself. apply Hk. unfold settled in *.
    by rewrite Hself.
  - destruct (should_patch_object_settles _ _ _ _ _ _ _ _ _ Hsp) as [Hs Hk].
    split; [done|]. simpl. rewrite <- Hself. apply Hk. unfold settled in *.
    by rewrite Hself.
Qed.

Lemma dl_iterate_phdr_self g vdso_addr dladdr st loaded st' :
  dl_iterate_phdr find_syscalls g vdso_addr dladdr st loaded = Returned st' →
  settled dladdr st → self_addr st' = self_addr st.
Proof.
  revert st. induction loaded as [|[info maps] loaded IH]; simpl; intros st.
  - by intros [= <-].
  - destruct (analyze_object _ _ _ _ _ _ _) as [st1|] eqn:Han; [|done].
    intros Hit Hset.
    destruct (analyze_object_self _ _ _ _ _ _ _ Han Hset) as [Hset1 <-].
    by apply IH.
Qed.

Lemma analyze_object_self_known g vdso_addr dladdr maps st info st' :
  analyze_object find_syscalls g vdso_addr dladdr maps st info = Returned st' →
  self_addr st = 0 ∨ dladdr = Some (self_addr st) →
  self_addr st' = 0 ∨ dladdr = Some (self_addr st').
Proof.
  intros Han Hknown.
  destruct (analyze_object_cases _ _ _ _ _ _ _ Han)
    as (r & st1 & Hpath
        & [[_ ->] | (p & b & st2 & out & _ & Hsp & Hb)]);
    destruct (get_object_path_statics _ _ _ _ _ Hpath) as (Hself & _ & _).
  { by rewrite Hself. }
  assert (self_addr st' = self_addr st2) as ->
    by (by destruct Hb as [[_ ->] | [_ ->]]).
  destruct (should_patch_object_cases _ _ _ _ _ _ _ _ _ Hsp)
    as (_ & _ & [Hsame|[_ ?]] & _); [|by right].
  rewrite Hsame, Hself. done.
Qed.

Lemma dl_iterate_phdr_libc g vdso_addr dladdr st loaded st' :
  dl_iterate_phdr find_syscalls g vdso_addr dladdr st loaded = Returned st' →
  self_addr st = 0 ∨ dladdr = Some (self_addr st) →
  libc_found st' = true →
  libc_found st = true
  ∨ ∃ info maps st0 p,
      (info, maps) ∈ loaded
      ∧ (get_object_path maps st0 info).1 = Some p
      ∧ stem p = "libc"
      ∧ dladdr = Some (self_addr st')
      ∧ target g vdso_addr (self_addr st') (dlpi_addr info) p.
Proof.
  revert st. induction loaded as [|[info maps] loaded IH]; simpl; intros st.
  - intros [= <-]. by left.
  - destruct (analyze_object _ _ _ _ _ _ _) as [st1|] eqn:Han; [|done].
    intros Hit Hknown Hfound.
    pose proof (analyze_object_self_known _ _ _ _ _ _ _ Han Hknown) as Hknown1.
    destruct (IH _ Hit Hknown1 Hfound)
      as [Hf1 | (i & m & st0 & p & Hel & Hp & Hs & Hd & Ht)];
      [|right; exists i, m, st0, p; split_and!; [by right|done..]].
    destruct (analyze_object_cases _ _ _ _ _ _ _ Han)
      as (r & st2 & Hpath
          & [[_ ->] | (p & b & st3 & out & -> & Hsp & Hb)]);
      destruct (get_object_path_statics _ _ _ _ _ Hpath) as (Hsa & Hlf & _).
    { left. congruence. }
    assert (libc_found st1 = libc_found st3 ∧ self_addr st1 = self_addr st3)
      as [Hlf1 Hsa1] by (by destruct Hb as [[_ ->] | [_ ->]]).
    destruct (should_patch_object_cases _ _ _ _ _ _ _ _ _ Hsp)
      as (Htarget & Hlibc & Hself & _).
    destruct (should_patch_object_settles _ _ _ _ _ _ _ _ _ Hsp) as [Hset3 _].
    rewrite Hlf1 in Hf1. apply Hlibc in Hf1.
    destruct Hf1 as [Hf|[Hbt Hstem]]; [left; congruence|].
    right. exists info, maps, st, p.
    assert (self_addr st' = self_addr st3) as ->.
    { rewrite <- Hsa1. apply (dl_iterate_phdr_self _ _ _ _ _ _ Hit).
      unfold settled in *. by rewrite Hsa1. }
    split_and!; [by left|by rewrite Hpath|done| |by apply Htarget].
    destruct Hself as [Hsame|[_ ?]]; [|done].
    rewrite Hsa in Hsame. destruct Hknown as [H0|?]; [|congruence].
    unfold settled in Hset3. rewrite Hsame, H0 in Hset3. simpl in Hset3.
    congruence.
Qed.

(** X18.  [intercept] completes in a process where hooking is allowed only
    if [dladdr] finds the interceptor and some loaded object is a target
    whose stem is [libc]: an object whose path ([dlpi_name], or the maps
    line covering its first loaded segment) has the short name [libc] up
    to its first ['-'] or ['.'], that is not the vdso and is not loaded
    where the interceptor is. *)
Theorem intercept_needs_libc environ vdso_addr dladdr asm_relocation_space
    asm_relocation_space_size loaded os acts :
  intercept find_syscalls allocate_trampoline true environ vdso_addr dladdr
    asm_relocation_space asm_relocation_space_size loaded
  = Returned (os, acts) →
  ∃ info maps st0 p self,
    (info, maps) ∈ loaded
    ∧ (get_object_path maps st0 info).1 = Some p
    ∧ stem p = "libc"
    ∧ dladdr = Some self
    ∧ target (intercept_flags true environ globals_init) vdso_addr self
        (dlpi_addr info) p.
Proof.
  unfold intercept. simpl negb. cbv iota.
  destruct (dl_iterate_phdr _ _ _ _ _ _) as [st|] eqn:Hit; [|done].
  destruct (libc_found st) eqn:Hfound; [|done]. intros _.
  destruct (dl_iterate_phdr_libc _ _ _ _ _ _ Hit (or_introl eq_refl) Hfound)
    as [Hinit | (info & maps & st0 & p & Hel & Hp & Hs & Hd & Ht)]; [done|].
  by exists info, maps, st0, p, (self_addr st).
Qed.

End EnumerationFacts.

(** X17 on [unmapped_object], with [dladdr] failing and no maps file. *)
Lemma analyze_object_skips_unmapped_witness :
  analyze_object sample_find_syscalls globals_init 0x7000 None None enum_init
    unmapped_object
  = Returned enum_init.
Proof.
  apply analyze_object_skips_unmapped.
  - by left.
  - repeat constructor.
Defined.

(** X18 on [sample_run]. *)
Lemma intercept_needs_libc_witness :
  patched_objects sample_run ≠ []
  ∧ ∃ info maps st0 p self,
      (info, maps) ∈ sample_loaded
      ∧ (get_object_path maps st0 info).1 = Some p
      ∧ stem p = "libc"
      ∧ Some 0x50000 = Some self
      ∧ target (intercept_flags true ∅ globals_init) 0x7000 self
          (dlpi_addr info) p.
Proof.
  split; [vm_compute; discriminate|].
  apply (intercept_needs_libc (H := sample_header) sample_find_syscalls id ∅
           0x7000 (Some 0x50000) 0x900000 0x10000 sample_loaded
           (patched_objects sample_run) (run_activations sample_run)).
  vm_compute. reflexivity.
Defined.

Section ConstructorFacts.
Context `{InterceptHeader}.
Variable find_syscalls : intercept_desc → intercept_desc.
Variable allocate_trampoline : intercept_desc → intercept_desc.

Lemma create_patch_planned_items desc dst desc' dst' p :
  create_patch desc dst = Returned (desc', dst') →
  p ∈ items desc' → planned_patch p.
Proof.
  intros Hcreate Hp.
  destruct (create_patch_items _ _ _ _ Hcreate) as (desc1 & Hloop & Hitems).
  destruct (create_patch_loop_planned _ _ _ _ _ _ Hloop) as (_ & Hall & _);
    [lia|intros; lia|].
  rewrite Hitems in Hp. apply list_elem_of_fmap in Hp as (q & -> & Hq).
  apply resolved_planned, Hall, Hq.
Qed.

Lemma create_patches_planned asm_relocation_space asm_relocation_space_size
    os cur os' cur' o p :
  create_patches allocate_trampoline asm_relocation_space
    asm_relocation_space_size os cur = Returned (os', cur') →
  o ∈ os' → p ∈ items o → planned_patch p.
Proof.
  revert cur os'. induction os as [|o1 os IH]; simpl; intros cur os'.
  - intros [= <- _] Ho. by apply elem_of_nil in Ho.
  - destruct (Nat.eqb_spec (List.length (items o1)) 0) as [Hempty|Hsome].
    + destruct (create_patches _ _ _ os cur) as [[rest cur1]|] eqn:Hrest; [|done].
      intros [= <- <-] Ho Hp. apply elem_of_cons in Ho as [->|Ho].
      * destruct (items o1); [by apply elem_of_nil in Hp|done].
      * by eapply IH.
    + destruct (_ <? _); [done|].
      destruct (create_patch (allocate_trampoline o1) cur)
        as [[o1' cur1]|] eqn:Hcreate; [|done].
      destruct (create_patches _ _ _ os cur1) as [[rest cur2]|] eqn:Hrest; [|done].
      intros [= <- <-] Ho Hp. apply elem_of_cons in Ho as [->|Ho].
      * by eapply create_patch_planned_items.
      * by eapply IH.
Qed.

Lemma activate_all_guard os acts o p :
  activate_all os = Returned acts →
  o ∈ os → p ∈ items o →
  text_start o ≤ dst_jmp_patch p ≤ text_end o.
Proof.
  revert acts. induction os as [|o1 os IH]; simpl; intros acts.
  - intros _ Ho. by apply elem_of_nil in Ho.
  - destruct (activate_patches o1) as [acts1|] eqn:Hact; [|done].
    destruct (activate_all os) as [acts2|] eqn:Hrest; [|done].
    intros _ Ho Hp. apply elem_of_cons in Ho as [->|Ho]; [|by eapply IH].
    unfold activate_patches in Hact.
    destruct (items o1) as [|q qs] eqn:Hitems; [by apply elem_of_nil in Hp|].
    destruct (activate_loop o1 (q :: qs)) as [acts'|] eqn:Hloop; [|done].
    assert (is_Returned (activate_loop o1 (q :: qs)) = true) as Hret
      by by rewrite Hloop.
    by apply (proj1 (activate_loop_Returned _ _) Hret).
Qed.

(** X19.  When [intercept] completes, every patch of every object it
    leaves is planned (window freed, class or syscall number settled, a
    gateway with its return address and size) and has its jump destination
    within the text of its object. *)
Theorem intercept_patched_objects hook_allowed environ vdso_addr dladdr
    asm_relocation_space asm_relocation_space_size loaded os acts :
  intercept find_syscalls allocate_trampoline hook_allowed environ vdso_addr
    dladdr asm_relocation_space asm_relocation_space_size loaded
  = Returned (os, acts) →
  ∀ o p, o ∈ os → p ∈ items o →
    planned_patch p ∧ text_start o ≤ dst_jmp_patch p ≤ text_end o.
Proof.
  unfold intercept. destruct hook_allowed; simpl negb; cbv iota.
  - destruct (dl_iterate_phdr _ _ _ _ _ _) as [st|]; [|done].
    destruct (libc_found st); simpl; [|done].
    destruct (create_patches _ _ _ _ _) as [[os1 cur]|] eqn:Hcreate; [|done].
    destruct (activate_all os1) as [acts1|] eqn:Hact; [|done].
    intros [= <- _] o p Ho Hp. split.
    + by eapply create_patches_planned.
    + by eapply activate_all_guard.
  - intros [= <- _] o p Ho. by apply elem_of_nil in Ho.
Qed.

End ConstructorFacts.

(** X19 on [sample_run]. *)
Lemma intercept_patched_objects_witness :
  List.length (patched_objects sample_run) = 1%nat
  ∧ ∀ o p, o ∈ patched_objects sample_run → p ∈ items o →
      planned_patch (H := sample_header) p
      ∧ text_start o ≤ dst_jmp_patch p ≤ text_end o.
Proof.
  split; [vm_compute; reflexivity|].
  apply (intercept_patched_objects (H := sample_header) sample_find_syscalls id
           true ∅ 0x7000 (Some 0x50000) 0x900000 0x10000 sample_loaded
           (patched_objects sample_run) (run_activations sample_run)).
  vm_compute. reflexivity.
Defined.

(** ** xabort_errno *)

Section AbortFacts.

Lemma quot_rem_10 ec :
  ec = 10 * (ec ÷ 10) + Z.rem ec 10
  ∧ (0 < ec → 0 ≤ Z.rem ec 10 < 10 ∧ 0 ≤ ec ÷ 10)
  ∧ (ec < 0 → -10 < Z.rem ec 10 ≤ 0 ∧ ec ÷ 10 ≤ 0)
  ∧ Z.abs ec = 10 * Z.abs (ec ÷ 10) + Z.abs (Z.rem ec 10).
Proof.
  pose proof (Z.quot_rem' ec 10) as Hqr.
  assert (0 < ec → 0 ≤ Z.rem ec 10 < 10) as Hpos
    by (intros; apply Z.rem_bound_pos; lia).
  assert (ec < 0 → -10 < Z.rem ec 10 ≤ 0) as Hneg.
  { intros Hlt. pose proof (Z.rem_bound_pos_neg ec 10 ltac:(lia) ltac:(lia)). lia. }
  destruct (Z.eq_dec ec 0) as [->|Hne]; [done|]. lia.
Qed.

Lemma decimal_value_snoc front d :
  decimal_value (front ++ [d]) = 10 * decimal_value front + (d - 48).
Proof. unfold decimal_value. by rewrite fold_left_app. Qed.

Lemma error_code_digits_spec fuel ec acc len :
  ec ≠ 0 → Z.abs ec < 10 ^ Z.of_nat fuel →
  ∃ front,
    error_code_digits fuel ec acc len
    = (front ++ acc, len + Z.of_nat (List.length front))
    ∧ decimal_value front = ec
    ∧ 10 ^ Z.of_nat (List.length front) ≤ 10 * Z.abs ec
    ∧ (0 < ec → Forall (λ d, 48 ≤ d ≤ 57) front)
    ∧ (ec < 0 → Forall (λ d, 39 ≤ d ≤ 48) front).
Proof.
  revert ec acc len. induction fuel as [|fuel IH]; intros ec acc len Hne Hlt.
  { simpl in Hlt. lia. }
  destruct (quot_rem_10 ec) as (Hqr & Hpos & Hneg & Habs).
  assert (to_uint8 (Z.rem ec 10 + 48) = Z.rem ec 10 + 48) as Hbyte.
  { unfold to_uint8. apply Z.mod_small. lia. }
  cbn [error_code_digits]. rewrite Hbyte.
  destruct (Z.eqb_spec (ec ÷ 10) 0) as [Hq|Hq].
  - exists [Z.rem ec 10 + 48]. split_and!.
    + done.
    + unfold decimal_value. simpl. lia.
    + simpl. lia.
    + intros ?. constructor; [lia|constructor].
    + intros ?. constructor; [lia|constructor].
  - destruct (IH (ec ÷ 10) (Z.rem ec 10 + 48 :: acc) (len + 1) Hq)
      as (front & Hrun & Hval & Hlen & Hp & Hn).
    { rewrite Nat2Z.inj_succ, Z.pow_succ_r in Hlt by lia. lia. }
    exists (front ++ [Z.rem ec 10 + 48]). split_and!.
    + rewrite Hrun, <- app_assoc, length_app. simpl. f_equal. lia.
    + rewrite decimal_value_snoc, Hval. lia.
    + rewrite length_app. simpl.
      replace (Z.of_nat (List.length front + 1)) with (Z.succ (Z.of_nat (List.length front)))
        by lia.
      rewrite Z.pow_succ_r by lia. lia.
    + intros ?. apply Forall_app. split; [apply Hp; lia|].
      constructor; [lia|constructor].
    + intros ?. apply Forall_app. split; [apply Hn; lia|].
      constructor; [lia|constructor].
Qed.

(** X20.  [xabort_errno] with a non-zero [int] code writes the message,
    then a space and the characters of the code, then the fixed text, and
    exits with status 1.  The characters after the space denote the code in
    base ten, there are at most ten of them (the sixteen-byte buffer is
    never overrun and the length passed to [write] is that of what was
    stored); for a positive code they are the digits 0 to 9 (bytes 48 to
    57), for a negative one the bytes 39 to 48, with no sign. *)
Theorem xabort_errno_digits error_code msg :
  INT_MIN ≤ error_code ≤ INT_MAX → error_code ≠ 0 →
  ∃ digits,
    xabort_errno error_code msg
    = (match msg with
       | Some m => [Write_stderr (bytes_of m) (Z.of_nat (String.length m))]
       | None => []
       end)
      ++ [Write_stderr (32 :: digits) (1 + Z.of_nat (List.length digits));
          Write_stderr (bytes_of main_msg) (Z.of_nat (String.length main_msg));
          Exit_group 1]
    ∧ decimal_value digits = error_code
    ∧ 1 + Z.of_nat (List.length digits) ≤ 11 < sizeof_buf
    ∧ (0 < error_code → Forall (λ d, 48 ≤ d ≤ 57) digits)
    ∧ (error_code < 0 → Forall (λ d, 39 ≤ d ≤ 48) digits).
Proof.
  unfold INT_MIN, INT_MAX. intros Hrange Hne.
  destruct (error_code_digits_spec (Z.to_nat sizeof_buf) error_code [] 1 Hne)
    as (digits & Hrun & Hval & Hlen & Hpos & Hneg).
  { change (10 ^ Z.of_nat (Z.to_nat sizeof_buf)) with 10000000000000000. lia. }
  exists digits. split_and!; [|done| |done|done|done].
  - unfold xabort_errno. destruct (Z.eqb_spec error_code 0) as [?|_]; [done|].
    rewrite Hrun, app_nil_r. done.
  - destruct (Z.le_gt_cases 11 (Z.of_nat (List.length digits))) as [Hbig|?];
      [|lia].
    pose proof (Z.pow_le_mono_r 10 11 (Z.of_nat (List.length digits))
                  ltac:(lia) Hbig) as Hpow.
    change (10 ^ 11) with 100000000000 in Hpow. lia.
Qed.

(** X20 on [EINVAL] (22) with a message. *)
Lemma xabort_errno_digits_witness :
  ∃ digits,
    xabort_errno 22 (Some "mmap")
    = [Write_stderr (bytes_of "mmap") 4]
      ++ [Write_stderr (32 :: digits) (1 + Z.of_nat (List.length digits));
          Write_stderr (bytes_of main_msg) (Z.of_nat (String.length main_msg));
          Exit_group 1]
    ∧ decimal_value digits = 22.
Proof.
  destruct (xabort_errno_digits 22 (Some "mmap")) as (digits & Hrun & Hval & _).
  - vm_compute. split; discriminate.
  - discriminate.
  - by exists digits.
Defined.

End AbortFacts.

(** ** check_patch_alignment *)

Section AlignmentFacts.
Context `{InterceptHeader}.

Lemma check_patch_alignment_loop_keeps instrs start_addr end_addr n i flags :
  (fst flags = false →
   fst (check_patch_alignment_loop instrs start_addr end_addr n i flags) = false)
  ∧ (snd flags = false →
     snd (check_patch_alignment_loop instrs start_addr end_addr n i flags) = false).
Proof.
  revert i flags. induction n as [|n IH]; intros i flags; simpl; [done|].
  destruct (start_addr =? _).
  { destruct (IH (S i) (false, snd flags)) as [IH1 IH2].
    split; intros ?; [by apply IH1|by apply IH2]. }
  destruct (end_addr =? _).
  { destruct (IH (S i) (fst flags, false)) as [IH1 IH2].
    split; intros ?; [by apply IH1|by apply IH2]. }
  destruct (end_addr <? _); [done|apply IH].
Qed.

Lemma check_patch_alignment_loop_sound instrs start_addr end_addr n i flags :
  (fst (check_patch_alignment_loop instrs start_addr end_addr n i flags) = false →
   fst flags = false
   ∨ ∃ j, (i ≤ j < i + n)%nat ∧ address (instr_at instrs j) = start_addr)
  ∧ (snd (check_patch_alignment_loop instrs start_addr end_addr n i flags) = false →
     snd flags = false
     ∨ ∃ j, (i ≤ j < i + n)%nat ∧ address (instr_at instrs j) = end_addr).
Proof.
  revert i flags. induction n as [|n IH]; intros i flags; simpl.
  { split; intros ?; by left. }
  destruct (Z.eqb_spec start_addr (address (instr_at instrs i))) as [Hs|Hs].
  { destruct (IH (S i) (false, snd flags)) as [IH1 IH2]. split.
    - intros _. right. exists i. split; [lia|done].
    - intros Hr. destruct (IH2 Hr) as [?|(j & ? & ?)]; [by left|].
      right. exists j. split; [lia|done]. }
  destruct (Z.eqb_spec end_addr (address (instr_at instrs i))) as [He|He].
  { destruct (IH (S i) (fst flags, false)) as [IH1 IH2]. split.
    - intros Hr. destruct (IH1 Hr) as [?|(j & ? & ?)]; [by left|].
      right. exists j. split; [lia|done].
    - intros _. right. exists i. split; [lia|done]. }
  destruct (end_addr <? _); [split; intros ?; by left|].
  destruct (IH (S i) flags) as [IH1 IH2]. split.
  - intros Hr. destruct (IH1 Hr) as [?|(j & ? & ?)]; [by left|].
    right. exists j. split; [lia|done].
  - intros Hr. destruct (IH2 Hr) as [?|(j & ? & ?)]; [by left|].
    right. exists j. split; [lia|done].
Qed.

Lemma check_patch_alignment_loop_finds instrs start_addr end_addr n i flags k :
  (i ≤ k < i + n)%nat →
  start_addr < end_addr →
  (∀ j, (i ≤ j < k)%nat →
        address (instr_at instrs j) < address (instr_at instrs k)) →
  (address (instr_at instrs k) = start_addr →
   fst (check_patch_alignment_loop instrs start_addr end_addr n i flags) = false)
  ∧ (address (instr_at instrs k) = end_addr →
     snd (check_patch_alignment_loop instrs start_addr end_addr n i flags) = false).
Proof.
  revert i flags. induction n as [|n IH]; intros i flags Hk Hsize Hasc; [lia|].
  simpl. destruct (decide (i = k)) as [->|Hik].
  - split; intros Hat.
    + destruct (Z.eqb_spec start_addr (address (instr_at instrs k))); [|lia].
      by apply check_patch_alignment_loop_keeps.
    + destruct (Z.eqb_spec start_addr (address (instr_at instrs k))); [lia|].
      destruct (Z.eqb_spec end_addr (address (instr_at instrs k))); [|lia].
      by apply check_patch_alignment_loop_keeps.
  - assert (address (instr_at instrs i) < address (instr_at instrs k)) as Hlt
      by (apply Hasc; lia).
    assert (∀ j, (S i ≤ j < k)%nat →
              address (instr_at instrs j) < address (instr_at instrs k)) as Hasc'
      by (intros j ?; apply Hasc; lia).
    split; intros Hat.
    + destruct (Z.eqb_spec start_addr (address (instr_at instrs i))); [lia|].
      destruct (Z.eqb_spec end_addr (address (instr_at instrs i))); [lia|].
      destruct (Z.ltb_spec end_addr (address (instr_at instrs i))); [lia|].
      by apply IH; [lia|done..].
    + destruct (Z.eqb_spec start_addr (address (instr_at instrs i))).
      { by apply IH; [lia|done..]. }
      destruct (Z.eqb_spec end_addr (address (instr_at instrs i))); [lia|].
      destruct (Z.ltb_spec end_addr (address (instr_at instrs i))); [lia|].
      by apply IH; [lia|done..].
Qed.

(** X21.  [check_patch_alignment] on a patch of non-zero size.  A flag is
    cleared only if an entry of the window has the start (for
    [start_with_c_nop]) or the end (for [end_with_c_nop]) of the patch as
    its address; and it is cleared whenever such an entry is reached
    through entries of smaller addresses, as in a window in program
    order. *)
Theorem check_patch_alignment_boundaries patch start_addr required_size :
  0 < required_size →
  let instrs := surrounding_instrs patch in
  let flags := check_patch_alignment patch start_addr required_size in
  (fst flags = false →
   ∃ j, (j < SURROUNDING_INSTRS_NUM)%nat
        ∧ address (instr_at instrs j) = start_addr)
  ∧ (snd flags = false →
     ∃ j, (j < SURROUNDING_INSTRS_NUM)%nat
          ∧ address (instr_at instrs j) = start_addr + required_size)
  ∧ ∀ k, (k < SURROUNDING_INSTRS_NUM)%nat →
      (∀ j, (j < k)%nat →
            address (instr_at instrs j) < address (instr_at instrs k)) →
      (address (instr_at instrs k) = start_addr → fst flags = false)
      ∧ (address (instr_at instrs k) = start_addr + required_size →
         snd flags = false).
Proof.
  intros Hsize instrs flags. subst flags. unfold check_patch_alignment.
  fold instrs.
  destruct (check_patch_alignment_loop_sound instrs start_addr
              (start_addr + required_size) SURROUNDING_INSTRS_NUM 0 (true, true))
    as [Hs He].
  split_and!.
  - intros Hr. destruct (Hs Hr) as [?|(j & ? & ?)]; [done|].
    exists j. split; [lia|done].
  - intros Hr. destruct (He Hr) as [?|(j & ? & ?)]; [done|].
    exists j. split; [lia|done].
  - intros k Hk Hasc. apply check_patch_alignment_loop_finds; [lia|lia|].
    intros j ?. apply Hasc. lia.
Qed.

End AlignmentFacts.

(** X21 on the first site of [three_sites]: an eight-byte patch from the
    second entry of its window starts on an instruction. *)
Lemma check_patch_alignment_boundaries_witness :
  fst (check_patch_alignment (H := sample_header)
         (mk_site 0x10100 (-1) (open_window 0x10100)) 0x100EC 8)
  = false.
Proof.
  destruct (check_patch_alignment_boundaries (H := sample_header)
              (mk_site 0x10100 (-1) (open_window 0x10100)) 0x100EC 8
              ltac:(lia)) as (_ & _ & Hfind).
  destruct (Hfind 1%nat) as [Hstart _]; [simpl; lia| |by apply Hstart].
  intros j Hj. assert (j = 0%nat) as -> by lia. reflexivity.
Defined.

(** ** The example hook *)

Section IcapFacts.

Lemma capitalize_middle pre mid post :
  Icap.capitalize (List.length mid) (List.length pre) (pre ++ mid ++ post)
  = pre ++ (capital <$> mid) ++ post.
Proof.
  revert pre. induction mid as [|x mid IH]; intros pre; [done|].
  cbn [List.length Icap.capitalize].
  change (pre ++ (x :: mid) ++ post) with (pre ++ x :: (mid ++ post)).
  rewrite list_lookup_middle by done. change (default 0 (Some x)) with x.
  assert ((if x =? 105 then <[List.length pre := 73]> (pre ++ x :: (mid ++ post))
           else pre ++ x :: (mid ++ post))
          = (pre ++ [capital x]) ++ mid ++ post) as ->.
  { unfold capital. destruct (Z.eqb_spec x 105) as [->|Hx].
    - rewrite insert_app_r_alt, Nat.sub_diag by lia. simpl.
      by rewrite <- app_assoc.
    - by rewrite <- app_assoc. }
  replace (S (List.length pre)) with (List.length (pre ++ [capital x]))
    by (rewrite length_app; simpl; lia).
  rewrite IH, <- app_assoc. done.
Qed.

Lemma icap_buffer_fmap memory arg1 arg2 :
  capital <$> Icap.memcpy memory arg1 (Z.to_nat (icap_size arg2))
  = icap_buffer memory arg1 arg2.
Proof. unfold Icap.memcpy, icap_buffer. by rewrite <- list_fmap_compose. Qed.

Lemma icap_size_range arg2 : 0 ≤ icap_size arg2 ≤ Icap.sizeof_buf_copy.
Proof.
  unfold icap_size, to_uint64, Icap.sizeof_buf_copy.
  pose proof (Z.mod_pos_bound arg2 (2 ^ 64) ltac:(lia)). lia.
Qed.

Lemma icap_hook_eq memory sys_write arg0 arg1 arg2 result :
  Icap.hook memory sys_write Icap.SYS_write arg0 arg1 arg2 result
  = (0, ret_a0 (sys_write arg0 (icap_buffer memory arg1 arg2) (icap_size arg2))).
Proof.
  unfold Icap.hook. rewrite Z.eqb_refl.
  assert ((if Icap.sizeof_buf_copy <? to_uint64 arg2 then Icap.sizeof_buf_copy
           else to_uint64 arg2) = icap_size arg2) as ->.
  { unfold icap_size. destruct (Z.ltb_spec Icap.sizeof_buf_copy (to_uint64 arg2)); lia. }
  do 3 f_equal.
  pose proof (capitalize_middle []
                (Icap.memcpy memory arg1 (Z.to_nat (icap_size arg2))) []) as Hc.
  rewrite !app_nil_r in Hc. cbn [app List.length] in Hc.
  unfold Icap.memcpy in Hc at 1. rewrite length_fmap, length_seq in Hc.
  rewrite Hc. apply icap_buffer_fmap.
Qed.

(** X22.  The example hook on a [write]: it returns 0 and leaves in the
    result slot what the kernel answers to a write of a copy of the
    caller's buffer; the copy has the requested length cut to 4096 (the
    length read as unsigned), holds no letter i, and has the capital where
    the caller's buffer has the letter and the caller's byte elsewhere. *)
Theorem icap_hook_write memory sys_write arg0 arg1 arg2 result :
  Icap.hook memory sys_write Icap.SYS_write arg0 arg1 arg2 result
  = (0, ret_a0 (sys_write arg0 (icap_buffer memory arg1 arg2) (icap_size arg2)))
  ∧ Z.of_nat (List.length (icap_buffer memory arg1 arg2)) = icap_size arg2
  ∧ 0 ≤ icap_size arg2 ≤ 0x1000
  ∧ (105 ∉ icap_buffer memory arg1 arg2)
  ∧ ∀ k, (k < List.length (icap_buffer memory arg1 arg2))%nat →
      icap_buffer memory arg1 arg2 !! k
      = Some (capital (memory (arg1 + Z.of_nat k))).
Proof.
  pose proof (icap_size_range arg2) as Hrange.
  split_and!.
  - apply icap_hook_eq.
  - unfold icap_buffer. rewrite length_fmap, length_seq. lia.
  - apply Hrange.
  - apply Hrange.
  - unfold icap_buffer. intros Hin.
    apply list_elem_of_fmap in Hin as (k & Hk & _).
    destruct (Z.eqb_spec (memory (arg1 + Z.of_nat k)) 105); [done|lia].
  - unfold icap_buffer. intros k Hk. rewrite length_fmap, length_seq in Hk.
    rewrite list_lookup_fmap, lookup_seq_lt by done. done.
Qed.

(** X23.  With the example hook installed, a [write] that the magic handler
    declines is answered by the hook: the routine returns what the kernel
    answered to the write of the capitalised copy, with [a1] as it came,
    and does not forward the call itself. *)
Theorem icap_write_served_by_hook objs env memory sys_write
    a0 a1 a2 a3 a4 a5 a6 a7 magic r0 :
  handle_magic_syscalls env (desc_of a0 a1 a2 a3 a4 a5 a7) a0 = (magic, r0) →
  magic ≠ 0 →
  to_int32 a7 = Icap.SYS_write →
  intercept_routine objs env (Icap.start memory sys_write) a0 a1 a2 a3 a4 a5 a6 a7
  = ({| a0 := ret_a0 (sys_write a0 (icap_buffer memory a1 a2) (icap_size a2));
        a1 := a1 |},
     [Ev_log (get_cur_patch objs a6) (desc_of a0 a1 a2 a3 a4 a5 a7) UNKNOWN 0;
      Ev_hook (desc_of a0 a1 a2 a3 a4 a5 a7);
      Ev_log (get_cur_patch objs a6) (desc_of a0 a1 a2 a3 a4 a5 a7) KNOWN
        (ret_a0 (sys_write a0 (icap_buffer memory a1 a2) (icap_size a2)))]).
Proof.
  intros Hmagic Hm Hnr.
  rewrite (intercept_routine_cases objs env (Icap.start memory sys_write)
             a0 a1 a2 a3 a4 a5 a6 a7 magic r0 0
             (ret_a0 (sys_write a0 (icap_buffer memory a1 a2) (icap_size a2)))
             Hmagic).
  - cbn zeta. apply Z.eqb_neq in Hm. rewrite Hm.
    unfold desc_of at 1. cbn [nr]. rewrite Hnr. done.
  - unfold hook_outcome, Icap.start, desc_of. cbn [intercept_hook_point nr args].
    rewrite Hnr. cbn [lookup list_lookup default]. apply icap_hook_eq.
Qed.

(** X23 on a five-byte write of the letter i to descriptor 1, with a kernel
    that writes everything. *)
Lemma icap_write_served_by_hook_witness :
  (intercept_routine [] (plain_env 7)
     (Icap.start (λ _, 105) (λ _ _ size, {| a0 := size; a1 := 0 |}))
     1 0x2000 5 0 0 0 0 64).1
  = {| a0 := 5; a1 := 0x2000 |}.
Proof.
  rewrite (icap_write_served_by_hook [] (plain_env 7) (λ _, 105)
             (λ _ _ size, {| a0 := size; a1 := 0 |})
             1 0x2000 5 0 0 0 0 64 (-1) 1); [reflexivity|reflexivity|lia|reflexivity].
Defined.

End IcapFacts.
